(** * Classic Battleship: a shallow embedding of the Python sources

    The development follows the layout of the repository:
    - [Py]            the Python builtins the program calls (text, [int],
                      [chr], exceptions, the random source);
    - [Utils]         src/utils.py: coordinate codec, ship geometry and the
                      placement validator;
    - [Gameplay]      src/gameplay.py: [GameBoard], [GameState], [play_game];
    - [BotGeneration] src/bot_generation.py: [generate_bot_ships].

    Python integers are [Z]; a cell is a pair of integers; Python sets of
    cells are [gset (Z * Z)]; Python text is a list of code points. *)

From Stdlib Require Import ZArith NArith List Lia String Ascii DecimalString.
From stdpp Require Import base decidable option list numbers sorting gmap sets.

Local Open Scope Z_scope.

(** ** Python builtins *)

Module Py.

(** Python text: a sequence of Unicode code points. *)
Definition str : Type := list N.

(** An ASCII literal of the source, as code points. *)
Definition lit (s : string) : str :=
  map N_of_ascii (list_ascii_of_string s).

(** The empty text. *)
Definition empty_text : str := [].

(** What a [ValueError] of the program reports.  The message text of the
    source is kept as the raise site together with the data it formats. *)
Inductive value_error : Type :=
| InvalidCoordinateFormat (coord_str : str)
| RowMustBeAJ (row_char : N)
| ColumnMustBeNumeric (col_str : str)
| ColumnOutOfRange (number : Z)
| InvalidLiteralForInt (text : str)
| IntStrDigitsLimit
| ChrArgNotInRange (i : Z)
| EmptyRangeForRandint (a b : Z)
| NotStraightLine
| InvalidShipSize (ship_no : Z) (ship_size : Z)
| ShipOverlaps (ship_no : Z)
| ShipTooClose (ship_no : Z)
| WrongShipCount (got : Z)
| ShipSizesMismatch (actual_sizes : list Z)
| CellAlreadyShot (coord : str).

(** The exceptions of the program.  [OutOfFuel] is not a Python
    exception: it marks a run of the model cut off inside a loop that the
    program could still be executing. *)
Inductive exn : Type :=
| ValueError (why : value_error)
| OverflowError
| EOFError
| RuntimeError (max_attempts : Z)
| OutOfFuel.

(** A call either raises or returns. *)
Definition result (A : Type) : Type := exn + A.

Definition Ok {A} (a : A) : result A := inr a.
Definition raise {A} (e : exn) : result A := inl e.

#[global] Instance result_ret : MRet result := fun A a => inr a.
#[global] Instance result_bind : MBind result := fun A B f m =>
  match m with
  | inl e => inl e
  | inr a => f a
  end.

(** [for x in xs: body], where the body updates a loop state and may
    raise: the loop stops at the first exception. *)
Fixpoint for_each {A S} (xs : list A) (body : A -> S -> result S) (s : S)
  : result S :=
  match xs with
  | [] => Ok s
  | x :: xs' => s' ← body x s; for_each xs' body s'
  end.

(** [[f(x) for x in xs]], evaluated left to right. *)
Fixpoint comprehension {A B} (f : A -> result B) (xs : list A)
  : result (list B) :=
  match xs with
  | [] => Ok []
  | x :: xs' => y ← f x; ys ← comprehension f xs'; Ok (y :: ys)
  end.

(** [range(lo, hi)]. *)
Definition range (lo hi : Z) : list Z := seqZ lo (hi - lo).

(** [len]. *)
Definition len {A} (l : list A) : Z := Z.of_nat (length l).

(** [sorted] on a list of integers. *)
Definition sorted (l : list Z) : list Z := merge_sort Z.le l.

(** A computation that updates a state [S] and either raises or
    returns; an exception leaves the updates made before it in place, as
    a Python exception leaves the mutated objects. *)
Definition stateful (S A : Type) : Type := S -> S * result A.

#[global] Instance stateful_ret {S} : MRet (stateful S) :=
  fun A a s => (s, inr a).
#[global] Instance stateful_bind {S} : MBind (stateful S) :=
  fun A B f m s =>
    match m s with
    | (s', inl e) => (s', inl e)
    | (s', inr a) => f a s'
    end.

Definition get {S} : stateful S S := fun s => (s, inr s).
Definition modify {S} (f : S -> S) : stateful S unit :=
  fun s => (f s, inr tt).
Definition throw {S A} (e : exn) : stateful S A := fun s => (s, inl e).
Definition lift {S A} (r : result A) : stateful S A := fun s => (s, r).

(** [try: m except ValueError as e: handler e] *)
Definition try_except_ValueError {S A} (m : stateful S A)
    (handler : value_error -> stateful S A) : stateful S A :=
  fun s =>
    match m s with
    | (s', inl (ValueError why)) => handler why s'
    | r => r
    end.

(** [for x in xs: body] on a mutable state. *)
Fixpoint for_ {A S} (xs : list A) (body : A -> stateful S unit)
  : stateful S unit :=
  match xs with
  | [] => mret tt
  | x :: xs' => _ ← body x; for_ xs' body
  end.

(** [while True: body], where the body answers [Some a] to leave the loop
    with [a] and [None] to go round again.  The loops of the program
    wait for input or for a random draw and need not end: the model runs
    them for at most [fuel] rounds and then stops with [OutOfFuel]. *)
Fixpoint while_True {S A} (fuel : nat) (body : stateful S (option A))
  : stateful S A :=
  match fuel with
  | O => throw OutOfFuel
  | Datatypes.S fuel' =>
      r ← body;
      match r with
      | Some a => mret a
      | None => while_True fuel' body
      end
  end.

(** The Unicode character database beyond ASCII.  The program never
    depends on its contents; every statement below holds for all of them. *)
Class UnicodeData : Type := {
  uni_isspace : N -> bool;
  uni_upper : N -> list N;
  uni_decimal : N -> option N
}.

(** A database with no white space, no digits and no case pairs beyond
    ASCII, to run the model on ASCII text. *)
Definition ascii_only : UnicodeData :=
  {| uni_isspace := fun _ => false;
     uni_upper := fun c => [c];
     uni_decimal := fun _ => None |}.

Fixpoint drop_while {A} (p : A -> bool) (l : list A) : list A :=
  match l with
  | [] => []
  | x :: l' => if p x then drop_while p l' else l
  end.

Section text.
Context {ucd : UnicodeData}.

(** [str.isspace] of one character: in ASCII, TAB..CR, FS..US and the
    space. *)
Definition isspace (c : N) : bool :=
  if (c <? 128)%N
  then ((9 <=? c) && (c <=? 13) || (28 <=? c) && (c <=? 32))%N
  else uni_isspace c.

(** [s.strip()] *)
Definition strip (s : str) : str :=
  rev (drop_while isspace (rev (drop_while isspace s))).

Definition upper_char (c : N) : list N :=
  if (c <? 128)%N
  then (if ((97 <=? c) && (c <=? 122))%N then [(c - 32)%N] else [c])
  else uni_upper c.

(** [s.upper()]: every character is replaced by its upper-case
    mapping, which beyond ASCII may be several characters. *)
Definition upper (s : str) : str := concat (map upper_char s).

Definition is_digit (c : N) : bool := ((48 <=? c) && (c <=? 57))%N.

Definition decimal (c : N) : option N :=
  if (c <? 128)%N
  then (if is_digit c then Some (c - 48)%N else None)
  else match uni_decimal c with
       | Some d => if (d <? 10)%N then Some d else None
       | None => None
       end.

(** [int(text)] first turns every white space beyond ASCII into a space
    and every decimal digit into its ASCII digit; any other character
    beyond ASCII makes the literal invalid. *)
Definition to_ascii (c : N) : option N :=
  if (c <? 127)%N then Some c
  else if isspace c then Some 32%N
  else match decimal c with
       | Some d => Some (48 + d)%N
       | None => None
       end.

(** The white space [int] skips around the number: TAB..CR and space. *)
Definition int_space (c : N) : bool :=
  ((9 <=? c) && (c <=? 13) || (c =? 32))%N.

(** The digits of the literal, with single underscores allowed
    between digits.  Returns the value, the number of digits and the
    text left over. *)
Fixpoint scan_digits (prev_underscore : bool) (digits : nat) (acc : Z)
    (s : list N) : option (Z * nat * list N) :=
  match s with
  | [] => if prev_underscore then None else Some (acc, digits, [])
  | c :: s' =>
      if is_digit c
      then scan_digits false (S digits) (10 * acc + Z.of_N (c - 48)) s'
      else if (c =? 95)%N
      then (if prev_underscore then None
            else scan_digits true digits acc s')
      else if prev_underscore then None else Some (acc, digits, s)
  end.

(** The default of [sys.get_int_max_str_digits()]. *)
Definition int_max_str_digits : nat := 4300.

(** [int(text)] in base 10. *)
Definition int (text : str) : result Z :=
  match mapM to_ascii text with
  | None => raise (ValueError (InvalidLiteralForInt text))
  | Some s =>
      let s := drop_while int_space s in
      let '(sign, s) :=
        match s with
        | 43%N :: s' => (1, s')
        | 45%N :: s' => (-1, s')
        | _ => (1, s)
        end in
      match s with
      | 95%N :: _ => raise (ValueError (InvalidLiteralForInt text))
      | _ =>
          match scan_digits false 0 0 s with
          | None => raise (ValueError (InvalidLiteralForInt text))
          | Some (v, digits, rest) =>
              if (digits =? 0)%nat
              then raise (ValueError (InvalidLiteralForInt text))
              else if (int_max_str_digits <? digits)%nat
              then raise (ValueError IntStrDigitsLimit)
              else match drop_while int_space rest with
                   | [] => Ok (sign * v)
                   | _ => raise (ValueError (InvalidLiteralForInt text))
                   end
          end
      end
  end.
End text.

(** [chr(i)] *)
Definition chr (i : Z) : result N :=
  if (i <? - 2 ^ 31) || (2 ^ 31 <=? i) then raise OverflowError
  else if (i <? 0) || (1114111 <? i) then raise (ValueError (ChrArgNotInRange i))
  else Ok (Z.to_N i).

(** [ord(c)] *)
Definition ord (c : N) : Z := Z.of_N c.

(** [str(i)], as an f-string formats an integer. *)
Definition str_of_int (i : Z) : result str :=
  let s := lit (NilZero.string_of_int (Z.to_int i)) in
  let digits := match s with 45%N :: d => length d | _ => length s end in
  if (int_max_str_digits <? digits)%nat
  then raise (ValueError IntStrDigitsLimit)
  else Ok s.

(** The random source: an endless sequence of raw draws and the position
    of the next one.  Every outcome [random.randint] or [random.choice]
    can produce is produced by some sequence. *)
Record random : Type := { draws : nat -> N; next : nat }.

Definition draw : stateful random N :=
  fun g => ({| draws := draws g; next := S (next g) |},
            Ok (draws g (next g))).

(** [random.randint(a, b)]: an integer between [a] and [b], both
    included; an empty range is a [ValueError]. *)
Definition randint (a b : Z) : stateful random Z :=
  if b <? a then throw (ValueError (EmptyRangeForRandint a b))
  else x ← draw; mret (a + Z.of_N x mod (b - a + 1)).

(** [random.choice([True, False])] *)
Definition choice_True_False : stateful random bool :=
  x ← draw; mret (N.even x).

End Py.

Import Py.

(** ** src/utils.py *)

Module Utils.

Definition cell : Type := Z * Z.
Definition ship : Type := cell * cell.

Definition BOARD_SIZE : Z := 10.
Definition SHIP_SIZES : list Z := [4; 3; 3; 2; 2; 2; 1; 1; 1; 1].

Section codec.
Context {ucd : UnicodeData}.

Definition parse_coordinates (coord_str : str) : result cell :=
  let coord_str := upper (strip coord_str) in
  match coord_str with
  | row_char :: ((_ :: _) as col_str) =>
      if ((row_char <? 65) || (74 <? row_char))%N
      then raise (ValueError (RowMustBeAJ row_char))
      else
        match int col_str with
        | inl (ValueError _) =>
            raise (ValueError (ColumnMustBeNumeric col_str))
        | inl e => raise e
        | inr n =>
            let col := n - 1 in
            if (col <? 0) || (BOARD_SIZE <=? col)
            then n' ← int col_str;
                 raise (ValueError (ColumnOutOfRange n'))
            else
              let row := ord row_char - ord 65%N in
              Ok (row, col)
        end
  | _ => raise (ValueError (InvalidCoordinateFormat coord_str))
  end.
End codec.

Definition format_coordinates (row col : Z) : result str :=
  letter ← chr (ord 65%N + row);
  number ← str_of_int (col + 1);
  Ok (letter :: number).

Definition get_ship_cells (start end_ : cell) : result (list cell) :=
  let '(r1, c1) := start in
  let '(r2, c2) := end_ in
  if decide (r1 = r2)
  then Ok (map (fun c => (r1, c)) (range (Z.min c1 c2) (Z.max c1 c2 + 1)))
  else if decide (c1 = c2)
  then Ok (map (fun r => (r, c1)) (range (Z.min r1 r2) (Z.max r1 r2 + 1)))
  else raise (ValueError NotStraightLine).

Definition in_bounds (c : cell) : bool :=
  (0 <=? c.1) && (c.1 <? BOARD_SIZE) && (0 <=? c.2) && (c.2 <? BOARD_SIZE).

Definition get_adjacent_cells (cells : list cell) : gset cell :=
  let ship_cells : gset cell := list_to_set cells in
  foldl (fun adjacent '(r, c) =>
    foldl (fun adjacent dr =>
      foldl (fun adjacent dc =>
        if (dr =? 0) && (dc =? 0) then adjacent
        else
          let nr := r + dr in
          let nc := c + dc in
          if in_bounds (nr, nc)
          then if decide ((nr, nc) ∉ ship_cells)
               then adjacent ∪ {[ (nr, nc) ]}
               else adjacent
          else adjacent)
        adjacent [-1; 0; 1])
      adjacent [-1; 0; 1])
    ∅ cells.

(** The body of the loop over [enumerate(ships)]; the loop state is
    [all_cells]. *)
Definition check_ship (all_cells : gset cell) (i : Z) (s : ship)
  : result (gset cell) :=
  let '(start, end_) := s in
  ship_cells ← get_ship_cells start end_;
  let cells : gset cell := list_to_set ship_cells in
  let ship_size := Z.of_nat (size cells) in
  if decide (ship_size ∉ SHIP_SIZES)
  then raise (ValueError (InvalidShipSize (i + 1) ship_size))
  else if decide (all_cells ∩ cells ≠ ∅)
  then raise (ValueError (ShipOverlaps (i + 1)))
  else
    let adjacent := get_adjacent_cells (elements cells) in
    if decide (all_cells ∩ adjacent ≠ ∅)
    then raise (ValueError (ShipTooClose (i + 1)))
    else Ok (all_cells ∪ cells).

Fixpoint check_ships (i : Z) (ships : list ship) (all_cells : gset cell)
  : result (gset cell) :=
  match ships with
  | [] => Ok all_cells
  | s :: rest =>
      all_cells' ← check_ship all_cells i s;
      check_ships (i + 1) rest all_cells'
  end.

Definition validate_ship_placement (ships : list ship) (final_check : bool)
  : result bool :=
  _ ← check_ships 0 ships ∅;
  if final_check
  then
    if decide (len ships ≠ len SHIP_SIZES)
    then raise (ValueError (WrongShipCount (len ships)))
    else
      sizes ← comprehension
                (fun '(s, e) => cells ← get_ship_cells s e; Ok (len cells))
                ships;
      let actual_sizes := sorted sizes in
      if decide (actual_sizes ≠ sorted SHIP_SIZES)
      then raise (ValueError (ShipSizesMismatch actual_sizes))
      else Ok true
  else Ok true.

End Utils.

Import Utils.

(** ** src/gameplay.py *)

Module Gameplay.

Record GameBoard : Type := {
  ships : list ship;
  ship_cells : gset cell;
  hits : gset cell;
  misses : gset cell;
  destroyed_zones : gset cell
}.

Definition add_hit (c : cell) (self : GameBoard) : GameBoard :=
  {| ships := ships self; ship_cells := ship_cells self;
     hits := hits self ∪ {[ c ]}; misses := misses self;
     destroyed_zones := destroyed_zones self |}.

Definition add_miss (c : cell) (self : GameBoard) : GameBoard :=
  {| ships := ships self; ship_cells := ship_cells self;
     hits := hits self; misses := misses self ∪ {[ c ]};
     destroyed_zones := destroyed_zones self |}.

Definition update_destroyed_zones (cs : gset cell) (self : GameBoard)
  : GameBoard :=
  {| ships := ships self; ship_cells := ship_cells self;
     hits := hits self; misses := misses self;
     destroyed_zones := destroyed_zones self ∪ cs |}.

(** [GameBoard.__init__] *)
Definition GameBoard__init__ (ships : list ship) : result GameBoard :=
  ship_cells ← for_each ships
    (fun '(start, end_) ship_cells =>
       cells ← get_ship_cells start end_;
       Ok (ship_cells ∪ list_to_set cells))
    (∅ : gset cell);
  Ok {| ships := ships; ship_cells := ship_cells;
        hits := ∅; misses := ∅; destroyed_zones := ∅ |}.

Definition get_cell_state (self : GameBoard) (row col : Z) : str :=
  let cell := (row, col) in
  if decide (cell ∈ hits self) then lit "X"
  else if decide (cell ∈ misses self ∨ cell ∈ destroyed_zones self)
  then lit "O"
  else lit ".".

(** The body of the loop of [_check_destroyed_ships], for one ship. *)
Definition check_destroyed_ship (s : ship) : stateful GameBoard unit :=
  let '(start, end_) := s in
  ship_cells ← lift (get_ship_cells start end_);
  let cells : gset cell := list_to_set ship_cells in
  self ← get;
  if decide (cells ⊆ hits self)
  then
    let adjacent := get_adjacent_cells (elements cells) in
    modify (update_destroyed_zones (adjacent ∖ cells))
  else mret tt.

Definition _check_destroyed_ships : stateful GameBoard unit :=
  self ← get;
  for_ (ships self) check_destroyed_ship.

Definition record_shot (row col : Z) : stateful GameBoard bool :=
  let cell := (row, col) in
  self ← get;
  if decide (cell ∈ hits self ∨ cell ∈ misses self
             ∨ cell ∈ destroyed_zones self)
  then
    coord ← lift (format_coordinates row col);
    throw (ValueError (CellAlreadyShot coord))
  else if decide (cell ∈ ship_cells self)
  then
    _ ← modify (add_hit cell);
    _ ← _check_destroyed_ships;
    mret true
  else
    _ ← modify (add_miss cell);
    mret false.

(** The loop returns [True] at the first ship that is not wholly hit and
    does not look at the ships after it. *)
Fixpoint has_ships_remaining_loop (self : GameBoard) (l : list ship)
  : result bool :=
  match l with
  | [] => Ok false
  | (start, end_) :: rest =>
      ship_cells ← get_ship_cells start end_;
      let cells : gset cell := list_to_set ship_cells in
      if decide (¬ cells ⊆ hits self) then Ok true
      else has_ships_remaining_loop self rest
  end.

Definition has_ships_remaining (self : GameBoard) : result bool :=
  has_ships_remaining_loop self (ships self).

(** One row of the move log. *)
Record move : Type := {
  turn_no : Z;
  player_move : str;
  player_hit : str;
  bot_move : str;
  bot_hit : str
}.

Record GameState : Type := {
  player_board : GameBoard;
  bot_board : GameBoard;
  turn : Z;
  move_history : list move
}.

(** What [play_game] works on: the lines [input] will read, the random
    source, the game state, and data/game_state.csv once it is written.
    The text printed and the boards drawn by the display are left out. *)
Record world : Type := {
  stdin : list str;
  rnd : random;
  game_state : GameState;
  game_state_csv : option (list move)
}.

Definition set_game_state (f : GameState -> GameState) (w : world) : world :=
  {| stdin := stdin w; rnd := rnd w; game_state := f (game_state w);
     game_state_csv := game_state_csv w |}.

Definition GameState__init__ (player_board bot_board : GameBoard)
  : GameState :=
  {| player_board := player_board; bot_board := bot_board;
     turn := 0; move_history := [] |}.

Definition hit_text (hit : bool) : str :=
  if hit then lit "hit" else lit "miss".

Definition log_move (turn : Z) (player_coord : str) (player_hit : bool)
    (bot_coord : str) (bot_hit : bool) (self : GameState) : GameState :=
  {| player_board := player_board self; bot_board := bot_board self;
     turn := Gameplay.turn self;
     move_history := move_history self ++
       [ {| turn_no := turn;
            player_move := player_coord;
            player_hit := hit_text player_hit;
            bot_move := bot_coord;
            bot_hit := hit_text bot_hit |} ] |}.

Definition save_to_csv : stateful world unit :=
  modify (fun w =>
    {| stdin := stdin w; rnd := rnd w; game_state := game_state w;
       game_state_csv := Some (move_history (game_state w)) |}).

(** [input(prompt)]: the next line, or [EOFError] at the end of input. *)
Definition input : stateful world str :=
  fun w =>
    match stdin w with
    | [] => (w, raise EOFError)
    | line :: rest =>
        ({| stdin := rest; rnd := rnd w; game_state := game_state w;
            game_state_csv := game_state_csv w |}, Ok line)
    end.

(** A call into the [random] module. *)
Definition on_random {A} (m : stateful random A) : stateful world A :=
  fun w =>
    let '(g, r) := m (rnd w) in
    ({| stdin := stdin w; rnd := g; game_state := game_state w;
        game_state_csv := game_state_csv w |}, r).

(** A method call on the bot's, or on the player's, board. *)
Definition on_bot_board {A} (m : stateful GameBoard A) : stateful world A :=
  fun w =>
    let gs := game_state w in
    let '(b, r) := m (bot_board gs) in
    (set_game_state (fun _ =>
       {| player_board := player_board gs; bot_board := b;
          turn := turn gs; move_history := move_history gs |}) w, r).

Definition on_player_board {A} (m : stateful GameBoard A)
  : stateful world A :=
  fun w =>
    let gs := game_state w in
    let '(b, r) := m (player_board gs) in
    (set_game_state (fun _ =>
       {| player_board := b; bot_board := bot_board gs;
          turn := turn gs; move_history := move_history gs |}) w, r).

Section game.
Context {ucd : UnicodeData}.
Variable fuel : nat.

Definition get_player_move : stateful world cell :=
  while_True fuel
    (try_except_ValueError
       (line ← input;
        let coord := upper (strip line) in
        '(row, col) ← lift (parse_coordinates coord);
        mret (Some (row, col)))
       (fun _ => mret None)).

Definition player_turn : stateful world (str * bool) :=
  while_True fuel
    (try_except_ValueError
       ('(row, col) ← get_player_move;
        player_hit ← on_bot_board (record_shot row col);
        player_move_str ← lift (format_coordinates row col);
        mret (Some (player_move_str, player_hit)))
       (fun _ => mret None)).

Definition bot_turn : stateful world (str * bool) :=
  while_True fuel
    (row ← on_random (randint 0 (BOARD_SIZE - 1));
     col ← on_random (randint 0 (BOARD_SIZE - 1));
     try_except_ValueError
       (bot_hit ← on_player_board (record_shot row col);
        bot_move_str ← lift (format_coordinates row col);
        mret (Some (bot_move_str, bot_hit)))
       (fun _ => mret None)).

(** One round of the main loop; [Some winner] is the [return]. *)
Definition round : stateful world (option str) :=
  _ ← modify (set_game_state (fun gs =>
         {| player_board := player_board gs; bot_board := bot_board gs;
            turn := turn gs + 1; move_history := move_history gs |}));
  '(player_move_str, player_hit) ← player_turn;
  w ← get;
  bot_alive ← lift (has_ships_remaining (bot_board (game_state w)));
  if negb bot_alive
  then
    _ ← modify (set_game_state (fun gs =>
           log_move (turn gs) player_move_str player_hit empty_text false gs));
    _ ← save_to_csv;
    mret (Some (lit "player"))
  else
    '(bot_move_str, bot_hit) ← bot_turn;
    w ← get;
    player_alive ← lift (has_ships_remaining (player_board (game_state w)));
    if negb player_alive
    then
      _ ← modify (set_game_state (fun gs =>
             log_move (turn gs) player_move_str player_hit
                      bot_move_str bot_hit gs));
      _ ← save_to_csv;
      mret (Some (lit "bot"))
    else
      _ ← modify (set_game_state (fun gs =>
             log_move (turn gs) player_move_str player_hit
                      bot_move_str bot_hit gs));
      mret None.

(** [play_game(player_board, bot_board)], run on the lines of input
    [lines] and the random source [g].  The two boards are two objects,
    as [main] builds them. *)
Definition play_game (player_board bot_board : GameBoard)
    (lines : list str) (g : random) : world * result str :=
  while_True fuel round
    {| stdin := lines; rnd := g;
       game_state := GameState__init__ player_board bot_board;
       game_state_csv := None |}.
End game.

End Gameplay.

Import Gameplay.

(** ** src/bot_generation.py *)

Module BotGeneration.

(** The variables of one fleet attempt. *)
Record placement : Type := {
  placed_ships : list ship;
  all_cells : gset cell;
  all_adjacent : gset cell
}.

Definition max_placement_attempts : nat := 100.

(** The [while not placed and attempts < max_placement_attempts] loop,
    with [budget] attempts left.  [Some] is the loop left with
    [placed = True], [None] with the attempts used up. *)
Fixpoint place_ship (budget : nat) (ship_size : Z) (p : placement)
  : stateful random (option placement) :=
  match budget with
  | O => mret None
  | S budget' =>
      horizontal ← choice_True_False;
      '(start, end_) ←
        (if horizontal : bool
         then
           row ← randint 0 (BOARD_SIZE - 1);
           col ← randint 0 (BOARD_SIZE - ship_size);
           mret ((row, col), (row, col + ship_size - 1))
         else
           row ← randint 0 (BOARD_SIZE - ship_size);
           col ← randint 0 (BOARD_SIZE - 1);
           mret ((row, col), (row + ship_size - 1, col)));
      cells ← lift (get_ship_cells start end_);
      let adjacent := get_adjacent_cells cells in
      if decide (all_cells p ∩ list_to_set cells = ∅)
      then
        if decide (all_adjacent p ∩ adjacent = ∅)
        then mret (Some
               {| placed_ships := placed_ships p ++ [(start, end_)];
                  all_cells := all_cells p ∪ list_to_set cells;
                  all_adjacent := all_adjacent p ∪ adjacent |})
        else place_ship budget' ship_size p
      else place_ship budget' ship_size p
  end.

(** The [for ship_size in SHIP_SIZES] loop; [None] is the [break] with
    [valid = False]. *)
Fixpoint place_fleet (sizes : list Z) (p : placement)
  : stateful random (option placement) :=
  match sizes with
  | [] => mret (Some p)
  | ship_size :: rest =>
      placed ← place_ship max_placement_attempts ship_size p;
      match placed with
      | None => mret None
      | Some p' => place_fleet rest p'
      end
  end.

(** The [for attempt in range(max_attempts)] loop, with [attempts] rounds
    left, and the [raise] after it. *)
Fixpoint attempt_loop (max_attempts : Z) (attempts : nat)
  : stateful random (list ship) :=
  match attempts with
  | O => throw (RuntimeError max_attempts)
  | S attempts' =>
      fleet ← place_fleet SHIP_SIZES
                {| placed_ships := []; all_cells := ∅; all_adjacent := ∅ |};
      match fleet with
      | None => attempt_loop max_attempts attempts'
      | Some p =>
          let ships := placed_ships p in
          match validate_ship_placement ships true with
          | inr _ => mret ships
          | inl (ValueError _) => attempt_loop max_attempts attempts'
          | inl e => throw e
          end
      end
  end.

Definition generate_bot_ships (max_attempts : Z)
  : stateful random (list ship) :=
  attempt_loop max_attempts (length (range 0 max_attempts)).

End BotGeneration.

Import BotGeneration.

(** ** src/ship_input.py *)

Module ShipInput.

(** The lower-case mapping of text that has characters beyond ASCII.  As
    with [UnicodeData], no statement depends on its contents. *)
Class UnicodeCase : Type := {
  uni_lower : str -> str
}.

(** A mapping that leaves such text alone, to run the model on ASCII
    text. *)
Definition ascii_case : UnicodeCase := {| uni_lower := fun s => s |}.

Section text.
Context {ucd : UnicodeData} {ucc : UnicodeCase}.

(** [s.lower()] *)
Definition lower (s : str) : str :=
  if forallb (fun c => (c <? 128)%N) s
  then map (fun c => if ((65 <=? c) && (c <=? 90))%N then (c + 32)%N else c) s
  else uni_lower s.

(** [s.split()]: the words between runs of white space.  [word] holds the
    characters of the word being read, the last one first. *)
Fixpoint split_words (word : str) (s : str) : list str :=
  match s with
  | [] => match word with [] => [] | _ => [rev word] end
  | c :: s' =>
      if isspace c
      then match word with
           | [] => split_words [] s'
           | _ => rev word :: split_words [] s'
           end
      else split_words (c :: word) s'
  end.

Definition split (s : str) : list str := split_words [] s.

End text.

(** The lines [input] will read and the variables of [get_player_ships].
    The text printed is left out. *)
Record frame : Type := {
  stdin : list str;
  ships : list ship;
  ship_count : Z
}.

(** How a call ends when it raises no exception the model has: it returns
    the fleet, or [sys.exit] ends the program with [SystemExit], which is
    no [Exception] and passes both handlers of the loop. *)
Inductive ending : Type :=
| Return (fleet : list ship)
| SystemExit (code : Z).

(** How the [try] block is left when it does not raise: to the next round
    of the loop, at its end or by [continue], or by [sys.exit]. *)
Inductive flow : Type :=
| Next
| Exit (code : Z).

(** [input(prompt)]: the next line, or [EOFError] at the end of input. *)
Definition input : stateful frame str :=
  fun s =>
    match stdin s with
    | [] => (s, raise EOFError)
    | line :: rest =>
        ({| stdin := rest; ships := ships s; ship_count := ship_count s |},
         Ok line)
    end.

Definition total_ships : Z := len SHIP_SIZES.

(** [l.count(x)] *)
Definition count (l : list Z) (x : Z) : Z :=
  Z.of_nat (count_occ Z.eq_dec l x).

Section get_player_ships.
Context {ucd : UnicodeData} {ucc : UnicodeCase}.

(** The [try] block of the loop. *)
Definition try_block : stateful frame flow :=
  user_input ← input;
  let user_input := strip user_input in
  if decide (lower user_input = lit "quit")
  then mret (Exit 0)
  else
    match split user_input with
    | [part0; part1] =>
        start ← lift (parse_coordinates part0);
        end_ ← lift (parse_coordinates part1);
        cells ← lift (get_ship_cells start end_);
        let ship_size := len cells in
        if decide (ship_size ∉ SHIP_SIZES)
        then mret Next
        else
          s ← get;
          current_sizes ← lift (comprehension
            (fun '(s, e) => cells ← get_ship_cells s e; Ok (len cells))
            (ships s));
          if decide (count SHIP_SIZES ship_size ≤ count current_sizes ship_size)
          then mret Next
          else
            modify (fun s =>
              {| stdin := stdin s; ships := ships s ++ [(start, end_)];
                 ship_count := ship_count s |});;
            s ← get;
            (if decide (len (ships s) = len SHIP_SIZES)
             then lift (validate_ship_placement (ships s) true)
             else lift (validate_ship_placement (ships s) false));;
            modify (fun s =>
              {| stdin := stdin s; ships := ships s;
                 ship_count := ship_count s + 1 |});;
            mret Next
    | _ => mret Next
    end.

(** [while ship_count < total_ships] around the [try] statement, for at
    most [fuel] rounds.  Both handlers print and go round again; a run
    of the model that is cut off is no exception and is not handled. *)
Fixpoint placement_loop (fuel : nat) (s : frame) : frame * result ending :=
  if decide (ship_count s < total_ships)
  then
    match fuel with
    | O => (s, raise OutOfFuel)
    | S fuel' =>
        match try_block s with
        | (s', inr (Exit code)) => (s', Ok (SystemExit code))
        | (s', inr Next) => placement_loop fuel' s'
        | (s', inl OutOfFuel) => (s', raise OutOfFuel)
        | (s', inl (ValueError _)) => placement_loop fuel' s'
        | (s', inl _) => placement_loop fuel' s'
        end
    end
  else (s, Ok (Return (ships s))).

Definition get_player_ships (fuel : nat) (lines : list str)
  : frame * result ending :=
  placement_loop fuel {| stdin := lines; ships := []; ship_count := 0 |}.

End get_player_ships.

End ShipInput.

(** ** Vocabulary of the statements *)

(** Two distinct cells that touch, diagonals included. *)
Definition neighbour (a b : cell) : Prop :=
  a ≠ b ∧ Z.abs (a.1 - b.1) ≤ 1 ∧ Z.abs (a.2 - b.2) ≤ 1.

(** The cell set of a ship, once [get_ship_cells] has returned it. *)
Definition has_cells (s : ship) (cells : gset cell) : Prop :=
  ∃ l, get_ship_cells s.1 s.2 = inr l ∧ cells = list_to_set l.

(** The halo of a cell set, as the validator and the board compute it. *)
Definition halo (cells : gset cell) : gset cell :=
  get_adjacent_cells (elements cells).

(** A ship that lies on the board. *)
Definition on_board (s : ship) : Prop :=
  in_bounds s.1 = true ∧ in_bounds s.2 = true.

(** What one visit of the innermost loop of [get_adjacent_cells] adds. *)
Definition visited (ship_cells : gset cell) (r c dr dc : Z) : gset cell :=
  if (dr =? 0) && (dc =? 0) then ∅
  else if in_bounds (r + dr, c + dc)
       then if decide ((r + dr, c + dc) ∉ ship_cells)
            then {[ (r + dr, c + dc) ]} else ∅
       else ∅.

(** What the loop over [dc] adds for one [dr], and what the two inner
    loops add for one ship cell. *)
Definition visited_row (ship_cells : gset cell) (r c dr : Z) : gset cell :=
  visited ship_cells r c dr (-1) ∪ visited ship_cells r c dr 0
  ∪ visited ship_cells r c dr 1.

Definition visited_around (ship_cells : gset cell) (rc : cell) : gset cell :=
  visited_row ship_cells rc.1 rc.2 (-1) ∪ visited_row ship_cells rc.1 rc.2 0
  ∪ visited_row ship_cells rc.1 rc.2 1.

(** The decimal numeral of an integer, as [str] writes it. *)
Definition decimal_text (n : Z) : str :=
  lit (NilZero.string_of_int (Z.to_int n)).

(** A coordinate in the notation of the game: a letter A..J in either
    case followed by the numeral of an integer 1..10. *)
Definition valid_coordinate (s : str) : Prop :=
  ∃ letter n,
    s = letter :: decimal_text n
    ∧ ((65 ≤ letter ≤ 74)%N ∨ (97 ≤ letter ≤ 106)%N)
    ∧ 1 ≤ n ≤ 10.

(** The row a letter stands for: A and a are row 0. *)
Definition row_of_letter (letter : N) : Z :=
  if (letter <? 97)%N then Z.of_N letter - 65 else Z.of_N letter - 97.

(** The board after a sequence of [record_shot] calls, whether they
    return or raise. *)
Definition shoot (shots : list cell) (b : GameBoard) : GameBoard :=
  foldl (λ b '(row, col), (record_shot row col b).1) b shots.

Definition shots_from (b b' : GameBoard) : Prop :=
  ∃ shots, b' = shoot shots b.

(** The boards of the program: built by [GameBoard.__init__] and changed
    by [record_shot] only. *)
Definition reachable (b : GameBoard) : Prop :=
  ∃ ships b0, GameBoard__init__ ships = inr b0 ∧ shots_from b0 b.

Definition already_shot (b : GameBoard) (c : cell) : Prop :=
  c ∈ hits b ∨ c ∈ misses b ∨ c ∈ destroyed_zones b.

(** The board [GameBoard(ships)] of a fleet of straight ships. *)
Definition board_of (fleet : list ship) : GameBoard :=
  match GameBoard__init__ fleet with
  | inr b => b
  | inl _ =>
      {| ships := fleet; ship_cells := ∅; hits := ∅; misses := ∅;
         destroyed_zones := ∅ |}
  end.

(** What [GameBoard.__init__] establishes and [record_shot] keeps. *)
Record board_inv (b : GameBoard) : Prop := {
  inv_straight : ∀ s, s ∈ ships b → ∃ cells, has_cells s cells;
  inv_ship_cells : ∀ x, x ∈ ship_cells b ↔
    ∃ s cells, s ∈ ships b ∧ has_cells s cells ∧ x ∈ cells;
  inv_hits : hits b ⊆ ship_cells b;
  inv_misses : misses b ## ship_cells b;
  inv_zones : ∀ x, x ∈ destroyed_zones b →
    ∃ s cells, s ∈ ships b ∧ has_cells s cells ∧ x ∈ halo cells ∧ x ∉ cells
}.

(** A row of the move log whose two hit fields are the literal strings
    [hit] or [miss]. *)
Definition hit_fields_ok (m : move) : Prop :=
  (player_hit m = lit "hit" ∨ player_hit m = lit "miss")
  ∧ (bot_hit m = lit "hit" ∨ bot_hit m = lit "miss").

(** The move log in memory and, once written, on disk have such rows
    only. *)
Definition log_ok (w : world) : Prop :=
  Forall hit_fields_ok (move_history (game_state w))
  ∧ ∀ saved, game_state_csv w = Some saved → Forall hit_fields_ok saved.

(** A step of the game that leaves the move log and the saved file
    alone. *)
Definition keeps_log {A} (m : stateful world A) : Prop :=
  ∀ w, move_history (game_state (m w).1) = move_history (game_state w)
       ∧ game_state_csv (m w).1 = game_state_csv w.

(** A random source that replays a list of draws, then draws zeros. *)
Definition scripted (l : list N) : random :=
  {| draws := λ n, nth n l 0%N; next := 0 |}.

(** The draws that place [spaced_fleet]: for each ship the orientation
    (even: horizontal), the row and the column. *)
Definition spaced_draws : list N :=
  [ 0; 0; 0;  0; 0; 6;  0; 3; 0;  0; 3; 5;  0; 6; 0;
    0; 6; 4;  0; 3; 9;  0; 6; 8;  0; 9; 0;  0; 9; 3 ]%N.

(** A fleet of the required composition, its ships well apart. *)
Definition spaced_fleet : list ship :=
  [ ((0, 0), (0, 3)); ((0, 6), (0, 8)); ((3, 0), (3, 2));
    ((3, 5), (3, 6)); ((6, 0), (6, 1)); ((6, 4), (6, 5));
    ((3, 9), (3, 9)); ((6, 8), (6, 8)); ((9, 0), (9, 0)); ((9, 3), (9, 3)) ].

(** The same composition with the four-cell ship to the right of the
    board, in columns 10 to 13 of row A, and a three-cell ship ending in
    the last column of that row. *)
Definition overhanging_fleet : list ship :=
  [ ((0, 10), (0, 13)); ((0, 7), (0, 9)); ((3, 0), (3, 2));
    ((3, 5), (3, 6)); ((6, 0), (6, 1)); ((6, 4), (6, 5));
    ((3, 9), (3, 9)); ((6, 8), (6, 8)); ((9, 0), (9, 0)); ((9, 3), (9, 3)) ].

(** A random source whose successive pairs of draws sweep the board
    cell by cell: (0, 0), (1, 0), ..., (9, 0), (0, 1), ... *)
Definition sweep : random :=
  {| draws := λ n,
       let k := (N.of_nat n / 2)%N in
       if N.even (N.of_nat n) then (k mod 10)%N else ((k / 10) mod 10)%N;
     next := 0 |}.

(** The lines a player types to hit the twenty ship cells of
    [spaced_fleet] one after the other. *)
Definition winning_lines : list str :=
  map lit [ "A1"; "A2"; "A3"; "A4"; "A7"; "A8"; "A9"; "D1"; "D2"; "D3";
            "D6"; "D7"; "G1"; "G2"; "G5"; "G6"; "D10"; "G9"; "J1";
            "J4" ]%string.

(** ** Vocabulary of the further properties *)

(** The number of cells between the end points of a straight ship, both
    included. *)
Definition ship_span (s : ship) : Z :=
  Z.abs (s.2.1 - s.1.1) + Z.abs (s.2.2 - s.1.2) + 1.

(** The sum of a list of integers. *)
Definition total (l : list Z) : Z := foldr Z.add 0 l.

(** The destroyed zones of a board are the halos of its sunk ships. *)
Definition zones_of_sunk_ships (b : GameBoard) : Prop :=
  ∀ x, x ∈ destroyed_zones b ↔
    ∃ s cells, s ∈ ships b ∧ has_cells s cells ∧ cells ⊆ hits b
      ∧ x ∈ halo cells.


(** A computation whose final state, returned or raised with, is related
    to its initial state by [R]. *)
Definition follows {S A} (R : S → S → Prop) (m : stateful S A) : Prop :=
  ∀ s, R s (m s).1.

(** What every step of the game keeps: the boards change by shots only,
    the turn counter, the move log and the saved file stay, input is only
    consumed and random draws are only taken. *)
Record game_step (w w' : world) : Prop := {
  step_player_board :
    shots_from (player_board (game_state w)) (player_board (game_state w'));
  step_bot_board :
    shots_from (bot_board (game_state w)) (bot_board (game_state w'));
  step_turn : turn (game_state w') = turn (game_state w);
  step_log : move_history (game_state w') = move_history (game_state w);
  step_csv : game_state_csv w' = game_state_csv w;
  step_stdin : ∃ read, stdin w = read ++ stdin w';
  step_draws : draws (rnd w') = draws (rnd w)
               ∧ (next (rnd w) ≤ next (rnd w'))%nat
}.

(** The player's turn leaves the player's board and the random source
    alone; the bot's turn leaves the bot's board and the input alone. *)
Definition player_side_kept (w w' : world) : Prop :=
  player_board (game_state w') = player_board (game_state w)
  ∧ rnd w' = rnd w.

Definition bot_side_kept (w w' : world) : Prop :=
  bot_board (game_state w') = bot_board (game_state w)
  ∧ stdin w' = stdin w.

(** The updates [round] makes to the game state between the two turns:
    the turn counter goes up, a row is logged, the log is saved. *)
Definition next_turn (w : world) : world :=
  set_game_state (λ gs,
    {| player_board := player_board gs; bot_board := bot_board gs;
       turn := turn gs + 1; move_history := move_history gs |}) w.

Definition logged (player_coord : str) (player_hit : bool)
    (bot_coord : str) (bot_hit : bool) (w : world) : world :=
  set_game_state (λ gs,
    log_move (turn gs) player_coord player_hit bot_coord bot_hit gs) w.

Definition saved (w : world) : world := (save_to_csv w).1.

(** The rows of a log are numbered 1, 2, 3, ... *)
Definition numbered (log : list move) : Prop :=
  map turn_no log = map Z.of_nat (seq 1 (length log)).

(** The state of the game between two rounds: every round so far has
    logged its row and nothing has been saved. *)
Definition between_rounds (w : world) : Prop :=
  numbered (move_history (game_state w))
  ∧ turn (game_state w) = len (move_history (game_state w))
  ∧ game_state_csv w = None.

(** What changes in the course of a whole game: the boards by shots, the
    input by being read, the random source by being drawn from. *)
Record game_progress (w w' : world) : Prop := {
  progress_player_board :
    shots_from (player_board (game_state w)) (player_board (game_state w'));
  progress_bot_board :
    shots_from (bot_board (game_state w)) (bot_board (game_state w'));
  progress_stdin : ∃ read, stdin w = read ++ stdin w';
  progress_draws : draws (rnd w') = draws (rnd w)
                   ∧ (next (rnd w) ≤ next (rnd w'))%nat
}.

(** A specification of a computation: started in a state with [P], it
    returns [a] in a state with [Q s a] or raises [e] in a state with
    [E s e]. *)
Definition hoare {S A} (P : S → Prop) (m : stateful S A)
    (Q : S → A → Prop) (E : S → exn → Prop) : Prop :=
  ∀ s, P s →
    match (m s).2 with
    | inr a => Q (m s).1 a
    | inl e => E (m s).1 e
    end.

(** The cell a logged move names, on the side of the board the shot was
    recorded on: among the hits for [hit], among the misses for [miss]. *)
Definition shot_logged {ucd : UnicodeData} (b : GameBoard)
    (coord hit : str) : Prop :=
  valid_coordinate coord
  ∧ ∃ row col was_hit,
      parse_coordinates coord = inr (row, col)
      ∧ hit = hit_text was_hit
      ∧ (row, col) ∈ (if was_hit then hits b else misses b).

(** A row of the log that agrees with the two boards.  The bot's fields
    may instead be the empty move with the [miss] text, as logged for the
    shot that wins the game for the player. *)
Definition row_faithful {ucd : UnicodeData} (w : world) (m : move) : Prop :=
  shot_logged (bot_board (game_state w)) (player_move m) (player_hit m)
  ∧ (shot_logged (player_board (game_state w)) (bot_move m) (bot_hit m)
     ∨ (bot_move m = empty_text ∧ bot_hit m = lit "miss")).

(** The invariant of the game: both boards are well formed and the log
    agrees with them. *)
Definition game_inv {ucd : UnicodeData} (w : world) : Prop :=
  board_inv (player_board (game_state w))
  ∧ board_inv (bot_board (game_state w))
  ∧ Forall (row_faithful w) (move_history (game_state w)).

(** The two ways a game stops without a winner: the input has run out, or
    the run of the model was cut off. *)
Definition stopped (w : world) (e : exn) : Prop :=
  (e = EOFError ∧ stdin w = []) ∨ e = OutOfFuel.

(** The winner [play_game] declares, against the boards it ends with. *)
Definition winner_ok (w : world) (winner : str) : Prop :=
  (winner = lit "player"
   ∧ has_ships_remaining (bot_board (game_state w)) = inr false)
  ∨ (winner = lit "bot"
     ∧ has_ships_remaining (player_board (game_state w)) = inr false
     ∧ has_ships_remaining (bot_board (game_state w)) = inr true).

(** One more ship on a fleet attempt: what [place_ship] has added when it
    leaves its loop with [placed = True]. *)
Definition placed_one (ship_size : Z) (p p' : placement) : Prop :=
  ∃ s l,
    placed_ships p' = placed_ships p ++ [s]
    ∧ on_board s ∧ get_ship_cells s.1 s.2 = inr l
    ∧ ship_span s = ship_size
    ∧ all_cells p ∩ list_to_set l = ∅
    ∧ all_adjacent p ∩ get_adjacent_cells l = ∅
    ∧ all_cells p' = all_cells p ∪ list_to_set l
    ∧ all_adjacent p' = all_adjacent p ∪ get_adjacent_cells l.

(** What a fleet attempt keeps while it places ships of the sizes
    [sizes]: the ships lie on the board in straight lines of these sizes,
    [all_cells] and [all_adjacent] hold their cells and their halos, and
    any two of them have no cell and no halo cell in common. *)
Record attempt_inv (sizes : list Z) (p : placement) : Prop := {
  ai_lengths : map ship_span (placed_ships p) = sizes;
  ai_board : ∀ s, s ∈ placed_ships p → on_board s;
  ai_straight : ∀ s, s ∈ placed_ships p → ∃ cells, has_cells s cells;
  ai_cells : ∀ x, x ∈ all_cells p ↔
    ∃ s cells, s ∈ placed_ships p ∧ has_cells s cells ∧ x ∈ cells;
  ai_adjacent : ∀ x, x ∈ all_adjacent p ↔
    ∃ s cells, s ∈ placed_ships p ∧ has_cells s cells ∧ x ∈ halo cells;
  ai_apart : ∀ j k s s' cells cells',
    (j < k)%nat → placed_ships p !! j = Some s →
    placed_ships p !! k = Some s' →
    has_cells s cells → has_cells s' cells' →
    cells ## cells' ∧ halo cells ## halo cells'
}.

(** The ship that [generate_bot_ships] draws from an orientation, a first
    cell and a size. *)
Definition drawn_ship (horizontal : bool) (row col size : Z) : ship :=
  if horizontal then ((row, col), (row, col + size - 1))
  else ((row, col), (row + size - 1, col)).

(** The cells and the halo of a ship, as lists to run through and as sets
    to look up in. *)
Record shape : Type := {
  shape_cells : list cell;
  shape_halo : list cell;
  shape_cell_set : gset cell;
  shape_halo_set : gset cell
}.

Definition shape_of (s : ship) : shape :=
  match get_ship_cells s.1 s.2 with
  | inr l =>
      {| shape_cells := l;
         shape_halo := elements (get_adjacent_cells l);
         shape_cell_set := list_to_set l;
         shape_halo_set := get_adjacent_cells l |}
  | inl _ =>
      {| shape_cells := []; shape_halo := [];
         shape_cell_set := ∅; shape_halo_set := ∅ |}
  end.

(** Every ship of one to four cells that fits the board. *)
Definition all_shapes : list shape :=
  h ← [true; false];
  size ← [1; 2; 3; 4];
  row ← seqZ 0 (if h : bool then BOARD_SIZE else BOARD_SIZE + 1 - size);
  col ← seqZ 0 (if h : bool then BOARD_SIZE + 1 - size else BOARD_SIZE);
  [shape_of (drawn_ship h row col size)].

(** No cell of [a] lies in the halo of [b], unless the two share a cell or
    a halo cell. *)
Definition clear (a b : shape) : bool :=
  forallb (λ x, bool_decide (x ∉ shape_halo_set b)) (shape_cells a)
  || existsb (λ x, bool_decide (x ∈ shape_cell_set b)) (shape_cells a)
  || existsb (λ x, bool_decide (x ∈ shape_halo_set b)) (shape_halo a).

(** The line a player types for a ship: its two coordinates with a space
    between them. *)
Definition typed (s : ship) : str :=
  match format_coordinates s.1.1 s.1.2, format_coordinates s.2.1 s.2.2 with
  | inr a, inr b => a ++ lit " " ++ b
  | _, _ => empty_text
  end.

(** The variables of [get_player_ships] are in step: every ship entered
    has been counted, the ships lie on the board, the validator has
    accepted them, and no size has more ships than [SHIP_SIZES] asks
    for. *)
Record tidy (s : ShipInput.frame) : Prop := {
  tidy_count : ShipInput.ship_count s = len (ShipInput.ships s);
  tidy_valid : validate_ship_placement (ShipInput.ships s) false = inr true;
  tidy_final : ShipInput.total_ships ≤ ShipInput.ship_count s →
    validate_ship_placement (ShipInput.ships s) true = inr true;
  tidy_board : ∀ x, x ∈ ShipInput.ships s → on_board x;
  tidy_quota : ∀ n,
    ShipInput.count (map ship_span (ShipInput.ships s)) n
    ≤ ShipInput.count SHIP_SIZES n
}.

(** A ship that the validator has refused is still in [ships]. *)
Definition spoiled (s : ShipInput.frame) : Prop :=
  validate_ship_placement (ShipInput.ships s) false ≠ inr true
  ∧ ShipInput.ship_count s < ShipInput.total_ships.

(** What one run of the [try] block can come to, from the frame [s]. *)
Inductive attempted {ucd : UnicodeData} {ucc : ShipInput.UnicodeCase}
    (s : ShipInput.frame) : ShipInput.frame * result ShipInput.flow → Prop :=
| at_end_of_input :
    ShipInput.stdin s = [] →
    attempted s (s, inl EOFError)
| at_quit line rest :
    ShipInput.stdin s = line :: rest →
    ShipInput.lower (strip line) = lit "quit" →
    attempted s
      ({| ShipInput.stdin := rest; ShipInput.ships := ShipInput.ships s;
          ShipInput.ship_count := ShipInput.ship_count s |},
       inr (ShipInput.Exit 0))
| at_skipped line rest :
    ShipInput.stdin s = line :: rest →
    attempted s
      ({| ShipInput.stdin := rest; ShipInput.ships := ShipInput.ships s;
          ShipInput.ship_count := ShipInput.ship_count s |},
       inr ShipInput.Next)
| at_unreadable line rest why :
    ShipInput.stdin s = line :: rest →
    attempted s
      ({| ShipInput.stdin := rest; ShipInput.ships := ShipInput.ships s;
          ShipInput.ship_count := ShipInput.ship_count s |},
       inl (ValueError why))
| at_placed line rest x :
    ShipInput.stdin s = line :: rest →
    on_board x →
    ShipInput.count (map ship_span (ShipInput.ships s)) (ship_span x)
      < ShipInput.count SHIP_SIZES (ship_span x) →
    validate_ship_placement (ShipInput.ships s ++ [x])
      (bool_decide (len (ShipInput.ships s ++ [x]) = len SHIP_SIZES))
      = inr true →
    attempted s
      ({| ShipInput.stdin := rest;
          ShipInput.ships := ShipInput.ships s ++ [x];
          ShipInput.ship_count := ShipInput.ship_count s + 1 |},
       inr ShipInput.Next)
| at_refused line rest x why :
    ShipInput.stdin s = line :: rest →
    on_board x →
    ShipInput.count (map ship_span (ShipInput.ships s)) (ship_span x)
      < ShipInput.count SHIP_SIZES (ship_span x) →
    validate_ship_placement (ShipInput.ships s ++ [x])
      (bool_decide (len (ShipInput.ships s ++ [x]) = len SHIP_SIZES))
      = inl (ValueError why) →
    attempted s
      ({| ShipInput.stdin := rest;
          ShipInput.ships := ShipInput.ships s ++ [x];
          ShipInput.ship_count := ShipInput.ship_count s |},
       inl (ValueError why)).

(** Printable ASCII other than the space. *)
Definition inked (c : N) : Prop := (32 < c < 127)%N.

(** A line that [get_player_move] reads and passes over. *)
Definition passed_over {ucd : UnicodeData} (line : str) : Prop :=
  ∃ why, parse_coordinates (upper (strip line)) = inl (ValueError why).

(** The world after [get_player_move] has read up to [rest]. *)
Definition read_up_to (rest : list str) (w : world) : world :=
  {| stdin := rest; rnd := rnd w; game_state := game_state w;
     game_state_csv := game_state_csv w |}.

(** The world [play_game] starts in. *)
Definition opening (player_board bot_board : GameBoard) (lines : list str)
    (g : random) : world :=
  {| stdin := lines; rnd := g;
     game_state := GameState__init__ player_board bot_board;
     game_state_csv := None |}.

(** Why the validator refuses the ship [s], the ship number [i] counted
    from zero, that comes after the ships [earlier], and the error it
    raises then: the ship is slanted; or it has a number of cells that
    is not in [SHIP_SIZES]; or it shares a cell with an earlier ship; or
    it shares none and a cell of its border is a cell of an earlier
    ship. *)
Inductive misfit (earlier : list ship) (i : Z) (s : ship) : exn → Prop :=
| misfit_slanted :
    s.1.1 ≠ s.2.1 → s.1.2 ≠ s.2.2 →
    misfit earlier i s (ValueError NotStraightLine)
| misfit_size cells :
    has_cells s cells → Z.of_nat (size cells) ∉ SHIP_SIZES →
    misfit earlier i s
      (ValueError (InvalidShipSize (i + 1) (Z.of_nat (size cells))))
| misfit_overlap cells s' cells' x :
    has_cells s cells → Z.of_nat (size cells) ∈ SHIP_SIZES →
    s' ∈ earlier → has_cells s' cells' → x ∈ cells → x ∈ cells' →
    misfit earlier i s (ValueError (ShipOverlaps (i + 1)))
| misfit_close cells s' cells' x :
    has_cells s cells → Z.of_nat (size cells) ∈ SHIP_SIZES →
    (∀ s'' cells'', s'' ∈ earlier → has_cells s'' cells'' → cells ## cells'') →
    s' ∈ earlier → has_cells s' cells' → x ∈ halo cells → x ∈ cells' →
    misfit earlier i s (ValueError (ShipTooClose (i + 1))).

(** A line that a turn of the player reads and that leads to no shot on
    the board [b]: [get_player_move] passes over it, or it names a cell
    of [b] that was shot already. *)
Definition wasted {ucd : UnicodeData} (b : GameBoard) (line : str) : Prop :=
  passed_over line
  ∨ ∃ c, parse_coordinates (upper (strip line)) = inr c ∧ already_shot b c.

(** The cell that a turn of the bot draws in its round [i], counted from
    zero, from the random source [g]: two calls of
    [random.randint(0, BOARD_SIZE - 1)] a round. *)
Definition drawn_cell (g : random) (i : nat) : cell :=
  (Z.of_N (draws g (next g + 2 * i)%nat) mod BOARD_SIZE,
   Z.of_N (draws g (next g + 2 * i + 1)%nat) mod BOARD_SIZE).

(** ** Facts about src/utils.py *)

Section utils_facts.

Lemma elem_of_range lo hi x : x ∈ range lo hi ↔ lo ≤ x < hi.
Proof. unfold range. rewrite elem_of_seqZ. lia. Qed.

Lemma get_ship_cells_elem start end_ l x :
  get_ship_cells start end_ = inr l →
  x ∈ l ↔
    ((start.1 = end_.1 ∧ x.1 = start.1
      ∧ Z.min start.2 end_.2 ≤ x.2 ≤ Z.max start.2 end_.2)
     ∨ (start.1 ≠ end_.1 ∧ start.2 = end_.2 ∧ x.2 = start.2
        ∧ Z.min start.1 end_.1 ≤ x.1 ≤ Z.max start.1 end_.1)).
Proof.
  destruct start as [r1 c1], end_ as [r2 c2], x as [xr xc].
  unfold get_ship_cells. simpl.
  repeat case_decide; intros [= <-]; rewrite list_elem_of_fmap;
    setoid_rewrite elem_of_range.
  - split.
    + intros (y & [= -> ->] & Hy). left. lia.
    + intros [(_ & -> & Hy) | (? & _)]; [| done]. exists xc. split; [done | lia].
  - split.
    + intros (y & [= -> ->] & Hy). right. lia.
    + intros [(? & _) | (_ & _ & -> & Hy)]; [done |]. exists xr. split; [done | lia].
Qed.

Lemma get_ship_cells_in_bounds start end_ l x :
  get_ship_cells start end_ = inr l →
  in_bounds start = true → in_bounds end_ = true →
  x ∈ l → in_bounds x = true.
Proof.
  intros Hl Hs He Hx. apply (get_ship_cells_elem _ _ _ x Hl) in Hx.
  unfold in_bounds, BOARD_SIZE in *.
  destruct start, end_, x; simpl in *. lia.
Qed.

Lemma foldl_union_elem {A} (f : gset cell → A → gset cell)
    (g : A → gset cell) (l : list A) (acc : gset cell) (x : cell) :
  (∀ acc a, f acc a = acc ∪ g a) →
  x ∈ foldl f acc l ↔ x ∈ acc ∨ ∃ a, a ∈ l ∧ x ∈ g a.
Proof.
  intros Hf. revert acc. induction l as [| a l IH]; intros acc; simpl.
  - set_solver.
  - rewrite IH, Hf. set_solver.
Qed.

Lemma foldl_union_eq {A} (f : gset cell → A → gset cell)
    (g : A → gset cell) (l : list A) (acc : gset cell) :
  (∀ acc a, f acc a = acc ∪ g a) →
  foldl f acc l = acc ∪ foldl f ∅ l.
Proof.
  intros Hf. apply set_eq. intros x.
  rewrite elem_of_union, !(foldl_union_elem f g) by done. set_solver.
Qed.

Lemma foldl_union_three {A} (f : gset cell → A → gset cell)
    (g : A → gset cell) (x y z : A) (acc : gset cell) :
  (∀ acc a, f acc a = acc ∪ g a) →
  foldl f acc [x; y; z] = acc ∪ (g x ∪ g y ∪ g z).
Proof. intros Hf. simpl. rewrite !Hf. set_solver. Qed.

Lemma elem_of_visited ship_cells r c dr dc x :
  x ∈ visited ship_cells r c dr dc ↔
    (x = (r + dr, c + dc) ∧ ¬ (dr = 0 ∧ dc = 0)
     ∧ in_bounds x = true ∧ x ∉ ship_cells).
Proof.
  unfold visited.
  destruct (dr =? 0) eqn:Hr, (dc =? 0) eqn:Hc; simpl;
    try (destruct (in_bounds (r + dr, c + dc)) eqn:Hb;
         [destruct (decide ((r + dr, c + dc) ∉ ship_cells)) |]);
    rewrite ?elem_of_singleton, ?elem_of_empty;
    split; try done; try (intros ->; repeat split; try done; lia);
    intros (-> & H1 & H2 & H3); try done; try congruence; lia.
Qed.

Ltac pick_disjunct :=
  first [ solve [repeat split; first [done | lia]]
        | left; pick_disjunct
        | right; pick_disjunct ].

Lemma elem_of_visited_around ship_cells a x :
  x ∈ visited_around ship_cells a ↔
    (in_bounds x = true ∧ (x ∉ ship_cells) ∧ neighbour a x).
Proof.
  destruct a as [r c], x as [xr xc].
  unfold visited_around, visited_row, neighbour.
  rewrite !elem_of_union, !elem_of_visited. simpl. split.
  - intros H.
    repeat match type of H with
           | _ ∨ _ => destruct H as [H | H]
           end;
      destruct H as ([= -> ->] & Hnz & Hb & Hs);
      (split; [done |]; split; [done |]; split; [intros [=]; lia | lia]).
  - intros (Hb & Hs & Hne & H1 & H2).
    assert (Hcase : (xr = r + -1 ∨ xr = r + 0 ∨ xr = r + 1)
                    ∧ (xc = c + -1 ∨ xc = c + 0 ∨ xc = c + 1)) by lia.
    assert (Hnz : ¬ (xr = r + 0 ∧ xc = c + 0)).
    { intros [-> ->]. apply Hne. f_equal; lia. }
    destruct Hcase as [[-> | [-> | ->]] [-> | [-> | ->]]];
      try (exfalso; apply Hnz; done); pick_disjunct.
Qed.

Lemma elem_of_get_adjacent_cells (cells : list cell) (x : cell) :
  x ∈ get_adjacent_cells cells ↔
    (in_bounds x = true ∧ (x ∉ cells) ∧ ∃ a, a ∈ cells ∧ neighbour a x).
Proof.
  unfold get_adjacent_cells.
  set (ship_cells := list_to_set cells : gset cell).
  rewrite (foldl_union_elem _ (visited_around ship_cells)).
  - setoid_rewrite elem_of_visited_around.
    unfold ship_cells. setoid_rewrite elem_of_list_to_set.
    rewrite elem_of_empty. naive_solver.
  - intros acc [r c]. cbv beta iota.
    apply (foldl_union_three _ (visited_row ship_cells r c)).
    intros acc' dr.
    apply (foldl_union_three _ (visited ship_cells r c dr)).
    intros acc'' dc. unfold visited.
    destruct ((dr =? 0) && (dc =? 0)); [set_solver |].
    destruct (in_bounds (r + dr, c + dc)); [| set_solver].
    destruct (decide ((r + dr, c + dc) ∉ ship_cells)); set_solver.
Qed.

Lemma elem_of_halo (cells : gset cell) (x : cell) :
  x ∈ halo cells ↔
    (in_bounds x = true ∧ (x ∉ cells) ∧ ∃ a, a ∈ cells ∧ neighbour a x).
Proof.
  unfold halo. rewrite elem_of_get_adjacent_cells.
  setoid_rewrite elem_of_elements. done.
Qed.

Lemma neighbour_sym a b : neighbour a b → neighbour b a.
Proof. unfold neighbour. intros (? & ? & ?). split; [done | lia]. Qed.

Lemma has_cells_fun s c1 c2 : has_cells s c1 → has_cells s c2 → c1 = c2.
Proof. intros (l1 & H1 & ->) (l2 & H2 & ->). congruence. Qed.

Lemma has_cells_in_bounds s cells x :
  has_cells s cells → on_board s → x ∈ cells → in_bounds x = true.
Proof.
  intros (l & Hl & ->) [Hs He] Hx. apply elem_of_list_to_set in Hx.
  by eapply get_ship_cells_in_bounds.
Qed.

(** *** The validator *)

Lemma check_ship_inr all i s all' :
  check_ship all i s = inr all' →
  ∃ cells, has_cells s cells
    ∧ Z.of_nat (size cells) ∈ SHIP_SIZES
    ∧ all ∩ cells = ∅ ∧ all ∩ halo cells = ∅
    ∧ all' = all ∪ cells.
Proof.
  unfold check_ship, has_cells, halo. destruct s as [start end_]. simpl.
  destruct (get_ship_cells start end_) as [e | l]; simpl; [done |].
  repeat case_decide; try done. intros [= <-].
  exists (list_to_set l). split; [by exists l |].
  repeat split; try done; by apply dec_stable.
Qed.

(** Every ship the loop has accepted is clear of everything accepted
    before it: of the cells the loop started with and of the ships
    earlier in the list. *)
Lemma check_ships_inr ships i all all' :
  check_ships i ships all = inr all' →
  all ⊆ all'
  ∧ ∀ k s, ships !! k = Some s →
      ∃ cells, has_cells s cells
        ∧ Z.of_nat (size cells) ∈ SHIP_SIZES
        ∧ cells ⊆ all' ∧ cells ## all ∧ halo cells ## all
        ∧ ∀ j s' cells', (j < k)%nat → ships !! j = Some s' →
            has_cells s' cells' →
            cells' ## cells ∧ cells' ## halo cells.
Proof.
  revert i all. induction ships as [| s0 rest IH]; intros i all; simpl.
  - intros [= <-]. split; [done |]. intros k s Hk. by destruct k.
  - destruct (check_ship all i s0) as [e | all1] eqn:Hs0; simpl; [done |].
    intros Hrest.
    apply check_ship_inr in Hs0
      as (cells0 & Hc0 & Hsz0 & Hov0 & Hadj0 & ->).
    destruct (IH _ _ Hrest) as [Hsub Hall].
    split; [set_solver |].
    intros [| k] s Hk; simpl in Hk.
    + injection Hk as <-. exists cells0.
      split; [done |]. split; [done |]. split; [set_solver |].
      split; [set_solver |]. split; [set_solver |].
      intros; lia.
    + destruct (Hall k s Hk)
        as (cells & Hc & Hsz & Hin & Hdis & Hhalo & Hearlier).
      exists cells.
      split; [done |]. split; [done |]. split; [done |].
      split; [set_solver |]. split; [set_solver |].
      intros [| j] s' cells' Hj Hs' Hc'; simpl in Hs'.
      * injection Hs' as <-.
        rewrite (has_cells_fun _ _ _ Hc' Hc0). set_solver.
      * apply (Hearlier j s' cells'); [lia | done | done].
Qed.

Lemma comprehension_inr {A B} (f : A → result B) xs ys :
  comprehension f xs = inr ys → Forall2 (λ x y, f x = inr y) xs ys.
Proof.
  revert ys. induction xs as [| x xs IH]; intros ys; simpl.
  - intros [= <-]. constructor.
  - destruct (f x) as [e | y] eqn:Hx; simpl; [done |].
    destruct (comprehension f xs) as [e | ys'] eqn:Hxs; simpl; [done |].
    intros [= <-]. constructor; [done | by apply IH].
Qed.

Lemma validate_ship_placement_inr ships final_check v :
  validate_ship_placement ships final_check = inr v →
  v = true ∧ ∃ all', check_ships 0 ships ∅ = inr all'.
Proof.
  unfold validate_ship_placement.
  destruct (check_ships 0 ships ∅) as [e | all'] eqn:Hloop; simpl; [done |].
  intros Hv. split; [| by exists all'].
  destruct final_check; [| by injection Hv].
  case_decide; [done |].
  match type of Hv with
  | context [comprehension ?f ships] => destruct (comprehension f ships)
  end; simpl in Hv; [done |].
  case_decide; [done |]. by injection Hv.
Qed.

(** Two ships of a fleet the loop has accepted share no cell, and no
    cell of the later one is in the halo of the earlier one or the
    other way round, as far as the halo reaches: it holds cells of the
    board only. *)
Lemma check_ships_pairwise ships all' i j s1 s2 c1 c2 :
  check_ships 0 ships ∅ = inr all' →
  i ≠ j → ships !! i = Some s1 → ships !! j = Some s2 →
  has_cells s1 c1 → has_cells s2 c2 →
  c1 ## c2
  ∧ ∀ a b, a ∈ c1 → b ∈ c2 → in_bounds a = true → in_bounds b = true →
      ¬ neighbour a b.
Proof.
  intros Hloop Hij Hi Hj Hc1 Hc2.
  apply check_ships_inr in Hloop as [_ Hall].
  assert (Hlt : ∀ i j s1 s2 c1 c2, (i < j)%nat →
    ships !! i = Some s1 → ships !! j = Some s2 →
    has_cells s1 c1 → has_cells s2 c2 →
    c1 ## c2 ∧ ∀ a b, a ∈ c1 → b ∈ c2 → in_bounds a = true →
      ¬ neighbour a b).
  { clear -Hall. intros i j s1 s2 c1 c2 Hlt Hi Hj Hc1 Hc2.
    destruct (Hall j s2 Hj) as (c2' & Hc2' & _ & _ & _ & _ & Hearlier).
    rewrite (has_cells_fun _ _ _ Hc2 Hc2').
    destruct (Hearlier i s1 c1 Hlt Hi Hc1) as [Hdis Hhalo].
    split; [done |]. intros a b Ha Hb Hba Hn.
    apply (Hhalo a Ha). apply elem_of_halo.
    split; [done |]. split; [set_solver |].
    exists b. split; [done | by apply neighbour_sym]. }
  destruct (Nat.lt_total i j) as [Hlt' | [-> | Hgt]]; [| done |].
  - destruct (Hlt i j s1 s2 c1 c2 Hlt' Hi Hj Hc1 Hc2) as [Hd Hn].
    split; [done |]. intros a b Ha Hb Hba _. by apply Hn.
  - destruct (Hlt j i s2 s1 c2 c1 Hgt Hj Hi Hc2 Hc1) as [Hd Hn].
    split; [done |]. intros a b Ha Hb _ Hbb Hnb.
    apply (Hn b a Hb Ha Hbb). by apply neighbour_sym.
Qed.

Lemma validate_final_inr ships v :
  validate_ship_placement ships true = inr v →
  len ships = len SHIP_SIZES
  ∧ ∃ sizes,
      Forall2 (λ (s : ship) n, ∃ l, get_ship_cells s.1 s.2 = inr l ∧ n = len l)
        ships sizes
      ∧ sorted sizes = sorted SHIP_SIZES.
Proof.
  unfold validate_ship_placement.
  destruct (check_ships 0 ships ∅) as [e | all']; simpl; [done |].
  case_decide as Hlen; [done |].
  intros Hv. split; [done |].
  match type of Hv with
  | context [comprehension ?f ships] =>
      destruct (comprehension f ships) as [e | sizes] eqn:Hsizes
  end; simpl in Hv; [done |].
  case_decide as Hsorted; [done |].
  exists sizes. split; [| done].
  apply comprehension_inr in Hsizes.
  eapply Forall2_impl; [exact Hsizes |].
  intros [start end_] n Hn. simpl in *.
  destruct (get_ship_cells start end_) as [e | l]; simpl in Hn; [done |].
  injection Hn as <-. by exists l.
Qed.

End utils_facts.

(** ** Facts about the coordinate codec *)

Section codec_facts.
Context {ucd : UnicodeData}.

Ltac cases_of_range x lo hi :=
  let rec go k n :=
    lazymatch n with
    | O => exfalso; lia
    | S ?n' =>
        let H := fresh in
        destruct (decide (x = k)) as [-> | H];
        [| let k' := eval cbv in (k + 1) in go k' n']
    end in
  let n := eval cbv in (Z.to_nat (hi - lo + 1)) in
  go lo n.

Ltac cases_of_letter x :=
  let rec go k n :=
    lazymatch n with
    | O => exfalso; lia
    | S ?n' =>
        let H := fresh in
        destruct (decide (x = k)) as [-> | H];
        [| let k' := eval cbv in (k + 1)%N in go k' n']
    end in
  go 65%N 42%nat.

Lemma format_then_parse row col :
  0 ≤ row ≤ 9 → 0 ≤ col ≤ 9 →
  format_coordinates row col
    = inr (Z.to_N (65 + row) :: decimal_text (col + 1))
  ∧ parse_coordinates (Z.to_N (65 + row) :: decimal_text (col + 1))
    = inr (row, col)
  ∧ upper (Z.to_N (65 + row) :: decimal_text (col + 1))
    = Z.to_N (65 + row) :: decimal_text (col + 1).
Proof.
  intros Hrow Hcol.
  cases_of_range row 0 9; cases_of_range col 0 9; by vm_compute.
Qed.

Lemma parse_valid_coordinate letter n :
  ((65 ≤ letter ≤ 74)%N ∨ (97 ≤ letter ≤ 106)%N) → 1 ≤ n ≤ 10 →
  parse_coordinates (letter :: decimal_text n)
    = inr (row_of_letter letter, n - 1)
  ∧ format_coordinates (row_of_letter letter) (n - 1)
    = inr (upper (letter :: decimal_text n)).
Proof.
  intros Hletter Hn.
  cases_of_range n 1 10; cases_of_letter letter;
    first [exfalso; lia | by vm_compute].
Qed.

Lemma parse_spelling_variants letter n :
  ((65 ≤ letter ≤ 74)%N ∨ (97 ≤ letter ≤ 106)%N) → 1 ≤ n ≤ 10 →
  parse_coordinates (upper (letter :: decimal_text n))
    = inr (row_of_letter letter, n - 1)
  ∧ parse_coordinates
      (lit " " ++ letter :: lit "0" ++ decimal_text n ++ lit " ")
    = inr (row_of_letter letter, n - 1)
  ∧ parse_coordinates (letter :: lit "+" ++ decimal_text n)
    = inr (row_of_letter letter, n - 1).
Proof.
  intros Hletter Hn.
  cases_of_range n 1 10; cases_of_letter letter;
    first [exfalso; lia | by vm_compute].
Qed.

Lemma int_empty : ∃ e, int [] = inl e.
Proof. by eexists. Qed.

Lemma parse_coordinates_inr s c :
  parse_coordinates s = inr c ↔
    ∃ letter suffix n,
      upper (strip s) = letter :: suffix
      ∧ (65 ≤ letter ≤ 74)%N
      ∧ int suffix = inr n ∧ 1 ≤ n ≤ 10
      ∧ c = (Z.of_N letter - 65, n - 1).
Proof.
  unfold parse_coordinates. split.
  - destruct (upper (strip s)) as [| letter [| c2 rest]]; [done | done |].
    destruct ((letter <? 65)%N || (74 <? letter)%N) eqn:Hletter; [done |].
    destruct (int (c2 :: rest)) as [[] | n] eqn:Hint; try done.
    destruct ((n - 1 <? 0) || (BOARD_SIZE <=? n - 1)) eqn:Hn; [done |].
    intros [= <-]. exists letter, (c2 :: rest), n.
    apply orb_false_iff in Hletter as [H1%N.ltb_ge H2%N.ltb_ge].
    apply orb_false_iff in Hn as [H3%Z.ltb_ge H4%Z.leb_gt].
    unfold BOARD_SIZE, ord in *. repeat split; try done; lia.
  - intros (letter & suffix & n & -> & Hletter & Hint & Hn & ->).
    destruct suffix as [| c2 rest].
    { destruct int_empty as [e He]. congruence. }
    rewrite Hint.
    rewrite (proj2 (N.ltb_ge letter 65)), (proj2 (N.ltb_ge 74 letter)) by lia.
    unfold BOARD_SIZE.
    rewrite (proj2 (Z.ltb_ge (n - 1) 0)), (proj2 (Z.leb_gt 10 (n - 1))) by lia.
    done.
Qed.

End codec_facts.

(** ** Facts about [GameBoard] *)

Section board_facts.

Lemma check_destroyed_ship_raises s b e :
  get_ship_cells s.1 s.2 = inl e →
  check_destroyed_ship s b = (b, inl e).
Proof.
  destruct s as [start end_]. simpl. intros He.
  unfold check_destroyed_ship, mbind, stateful_bind, lift. by rewrite He.
Qed.

Lemma check_destroyed_ship_returns s b cells :
  has_cells s cells →
  check_destroyed_ship s b =
    (if decide (cells ⊆ hits b)
     then update_destroyed_zones (halo cells ∖ cells) b else b, inr tt).
Proof.
  destruct s as [start end_]. intros (l & Hl & ->). simpl in Hl.
  unfold check_destroyed_ship, mbind, stateful_bind, lift, get. rewrite Hl.
  by case_decide.
Qed.

(** The loop of [_check_destroyed_ships] over straight ships returns, and
    changes the destroyed zones only: it adds the halo of every ship that
    is wholly hit. *)
Lemma check_destroyed_loop l b :
  (∀ s, s ∈ l → ∃ cells, has_cells s cells) →
  ∃ b', for_ l check_destroyed_ship b = (b', inr tt)
    ∧ ships b' = ships b ∧ ship_cells b' = ship_cells b
    ∧ hits b' = hits b ∧ misses b' = misses b
    ∧ ∀ x, x ∈ destroyed_zones b' ↔
        (x ∈ destroyed_zones b
         ∨ ∃ s cells, s ∈ l ∧ has_cells s cells ∧ cells ⊆ hits b
             ∧ x ∈ halo cells ∧ x ∉ cells).
Proof.
  revert b. induction l as [| s l IH]; intros b Hstraight.
  - exists b. simpl. do 5 (split; [done |]).
    intros x. split; [by left |].
    intros [Hx | (s & cells & Hs & _)]; [done |]. by apply elem_of_nil in Hs.
  - destruct (Hstraight s) as [cells Hcells]; [set_solver |].
    simpl. unfold mbind, stateful_bind.
    rewrite (check_destroyed_ship_returns s b cells Hcells).
    set (b1 := if decide (cells ⊆ hits b)
               then update_destroyed_zones (halo cells ∖ cells) b else b).
    destruct (IH b1) as (b' & Hrun & Hs & Hsc & Hh & Hm & Hz);
      [set_solver |].
    assert (Hb1 : ships b1 = ships b ∧ ship_cells b1 = ship_cells b
                  ∧ hits b1 = hits b ∧ misses b1 = misses b)
      by (unfold b1; by case_decide).
    destruct Hb1 as (Hs1 & Hsc1 & Hh1 & Hm1).
    exists b'. fold (@for_ ship GameBoard). rewrite Hrun.
    split; [done |]. split; [congruence |]. split; [congruence |].
    split; [congruence |]. split; [congruence |].
    intros x. rewrite Hz, Hh1. split.
    + intros [Hx | (s' & cells' & Hs' & Hc' & Hsub & Hx)].
      * unfold b1 in Hx. case_decide as Hd; simpl in Hx.
        -- apply elem_of_union in Hx as [Hx | Hx]; [by left |].
           right. exists s, cells. set_solver.
        -- by left.
      * right. exists s', cells'. set_solver.
    + intros [Hx | (s' & cells' & Hs' & Hc' & Hsub & Hx)].
      * left. unfold b1. case_decide; simpl; set_solver.
      * apply elem_of_cons in Hs' as [-> | Hs'].
        -- left. rewrite (has_cells_fun _ _ _ Hc' Hcells) in *.
           unfold b1. rewrite decide_True by done. simpl. set_solver.
        -- right. exists s', cells'. set_solver.
Qed.

(** Whatever the ships, the loop never touches the ships or the shots
    recorded, and never removes a destroyed zone. *)
Lemma check_destroyed_loop_frame l b :
  let b' := (for_ l check_destroyed_ship b).1 in
  ships b' = ships b ∧ ship_cells b' = ship_cells b
  ∧ hits b' = hits b ∧ misses b' = misses b
  ∧ destroyed_zones b ⊆ destroyed_zones b'.
Proof.
  revert b. induction l as [| s l IH]; intros b; simpl; [done |].
  unfold mbind, stateful_bind.
  destruct (get_ship_cells s.1 s.2) as [e | cells] eqn:Hs.
  - by rewrite (check_destroyed_ship_raises s b e Hs).
  - rewrite (check_destroyed_ship_returns s b (list_to_set cells))
      by (by exists cells).
    fold (@for_ ship GameBoard).
    match goal with
    | |- context [for_ l check_destroyed_ship ?b1] =>
        specialize (IH b1); destruct (for_ l check_destroyed_ship b1)
          as [b' [e | []]]
    end; simpl in *; case_decide; simpl in *;
      destruct IH as (-> & -> & -> & -> & Hz); set_solver.
Qed.

Lemma record_shot_already_shot row col b :
  already_shot b (row, col) →
  ∃ e, record_shot row col b = (b, inl e).
Proof.
  intros Hshot. unfold record_shot, mbind, stateful_bind, get, lift, throw.
  rewrite decide_True by exact Hshot.
  destruct (format_coordinates row col) as [e | coord]; eauto.
Qed.

Lemma record_shot_miss row col b :
  ¬ already_shot b (row, col) → (row, col) ∉ ship_cells b →
  record_shot row col b = (add_miss (row, col) b, inr false).
Proof.
  intros Hfree Hwater.
  unfold record_shot, mbind, stateful_bind, get, modify, mret, stateful_ret.
  rewrite decide_False by exact Hfree. by rewrite decide_False.
Qed.

Lemma record_shot_hit row col b :
  ¬ already_shot b (row, col) → (row, col) ∈ ship_cells b →
  record_shot row col b =
    match for_ (ships b) check_destroyed_ship (add_hit (row, col) b) with
    | (b', inl e) => (b', inl e)
    | (b', inr _) => (b', inr true)
    end.
Proof.
  intros Hfree Hship.
  unfold record_shot, _check_destroyed_ships, mbind, stateful_bind, get,
    modify, mret, stateful_ret.
  rewrite decide_False by exact Hfree. rewrite decide_True by done.
  simpl. by destruct (for_ _ _ _) as [b' [e | []]].
Qed.

Lemma GameBoard__init__loop (l : list ship) (acc acc' : gset cell) :
  for_each l
    (λ '(start, end_) (ship_cells : gset cell),
       cells ← get_ship_cells start end_;
       Ok (ship_cells ∪ list_to_set cells)) acc = inr acc' →
  (∀ s, s ∈ l → ∃ cells, has_cells s cells)
  ∧ ∀ x, x ∈ acc' ↔
      (x ∈ acc ∨ ∃ s cells, s ∈ l ∧ has_cells s cells ∧ x ∈ cells).
Proof.
  revert acc. induction l as [| [start end_] l IH]; intros acc; simpl.
  - intros [= <-]. split; [intros s Hs; by apply elem_of_nil in Hs |].
    intros x. split; [by left |].
    intros [Hx | (s & cells & Hs & _)]; [done |]. by apply elem_of_nil in Hs.
  - destruct (get_ship_cells start end_) as [e | cells0] eqn:Hc0; simpl;
      [done |].
    intros Hrest. destruct (IH _ Hrest) as [Hstraight Hacc].
    assert (H0 : has_cells (start, end_) (list_to_set cells0))
      by (by exists cells0).
    split.
    + intros s [-> | Hs]%elem_of_cons; [by eexists | by apply Hstraight].
    + intros x. rewrite Hacc, elem_of_union. split.
      * intros [[Hx | Hx] | (s & cells & Hs & Hc & Hx)]; [by left | |].
        -- right. exists (start, end_), (list_to_set cells0). set_solver.
        -- right. exists s, cells. set_solver.
      * intros [Hx | (s & cells & [-> | Hs]%elem_of_cons & Hc & Hx)].
        -- by left; left.
        -- left; right. by rewrite (has_cells_fun _ _ _ H0 Hc).
        -- right. by exists s, cells.
Qed.

Lemma GameBoard__init__inr fleet b :
  GameBoard__init__ fleet = inr b →
  ships b = fleet ∧ hits b = ∅ ∧ misses b = ∅ ∧ destroyed_zones b = ∅
  ∧ board_inv b.
Proof.
  unfold GameBoard__init__.
  match goal with
  | |- context [for_each fleet ?f ?acc] =>
      destruct (for_each fleet f acc) as [e | cells] eqn:Hloop
  end; simpl; [done |].
  intros [= <-]. simpl. do 4 (split; [done |]).
  apply GameBoard__init__loop in Hloop as [Hstraight Hcells].
  split; simpl; try done.
  intros x. rewrite Hcells. set_solver.
Qed.

Lemma record_shot_frame row col b :
  let b' := (record_shot row col b).1 in
  ships b' = ships b ∧ ship_cells b' = ship_cells b
  ∧ hits b ⊆ hits b' ∧ misses b ⊆ misses b'
  ∧ destroyed_zones b ⊆ destroyed_zones b'.
Proof.
  destruct (decide (already_shot b (row, col))) as [Hshot | Hfree].
  - destruct (record_shot_already_shot row col b Hshot) as [e ->]. done.
  - destruct (decide ((row, col) ∈ ship_cells b)) as [Hship | Hwater].
    + rewrite (record_shot_hit row col b Hfree Hship).
      pose proof (check_destroyed_loop_frame (ships b) (add_hit (row, col) b))
        as Hframe.
      destruct (for_ _ _ _) as [b' [e | []]]; simpl in *;
        destruct Hframe as (-> & -> & -> & -> & Hz); set_solver.
    + rewrite (record_shot_miss row col b Hfree Hwater). simpl. set_solver.
Qed.

(** On a board with the invariant a shot at a fresh ship cell returns
    [True]; the cell becomes a hit and the halo of every ship now wholly
    hit is added to the destroyed zones. *)
Lemma record_shot_hit_inv row col b :
  board_inv b → ¬ already_shot b (row, col) → (row, col) ∈ ship_cells b →
  ∃ b', record_shot row col b = (b', inr true)
    ∧ ships b' = ships b ∧ ship_cells b' = ship_cells b
    ∧ hits b' = hits b ∪ {[ (row, col) ]} ∧ misses b' = misses b
    ∧ ∀ x, x ∈ destroyed_zones b' ↔
        (x ∈ destroyed_zones b
         ∨ ∃ s cells, s ∈ ships b ∧ has_cells s cells
             ∧ cells ⊆ hits b ∪ {[ (row, col) ]}
             ∧ x ∈ halo cells ∧ x ∉ cells).
Proof.
  intros Hinv Hfree Hship.
  rewrite (record_shot_hit row col b Hfree Hship).
  destruct (check_destroyed_loop (ships b) (add_hit (row, col) b))
    as (b' & Hrun & H1 & H2 & H3 & H4 & H5).
  { apply (inv_straight b Hinv). }
  exists b'. rewrite Hrun. done.
Qed.

Lemma record_shot_inv row col b :
  board_inv b → board_inv (record_shot row col b).1.
Proof.
  intros Hinv.
  destruct (decide (already_shot b (row, col))) as [Hshot | Hfree].
  - destruct (record_shot_already_shot row col b Hshot) as [e ->]. done.
  - destruct (decide ((row, col) ∈ ship_cells b)) as [Hship | Hwater].
    + destruct (record_shot_hit_inv row col b Hinv Hfree Hship)
        as (b' & -> & Hs & Hsc & Hh & Hm & Hz).
      destruct Hinv as [I1 I2 I3 I4 I5]. simpl.
      split; rewrite ?Hs, ?Hsc, ?Hh, ?Hm; try done.
      * set_solver.
      * intros x [Hx | (s & cells & ? & ? & ? & ? & ?)]%Hz;
          [by apply I5 | by exists s, cells].
    + rewrite (record_shot_miss row col b Hfree Hwater).
      destruct Hinv as [I1 I2 I3 I4 I5]. split; simpl; try done. set_solver.
Qed.

Lemma shoot_snoc shots row col b :
  shoot (shots ++ [(row, col)]) b = (record_shot row col (shoot shots b)).1.
Proof. unfold shoot. by rewrite foldl_snoc. Qed.

(** Induction over the shots fired at a board. *)
Lemma shots_from_ind (P : GameBoard → Prop) b :
  P b → (∀ b' row col, shots_from b b' → P b' →
         P (record_shot row col b').1) →
  ∀ b', shots_from b b' → P b'.
Proof.
  intros Hbase Hstep b' [shots ->].
  induction shots as [| [row col] shots IH] using rev_ind; [done |].
  rewrite shoot_snoc. apply Hstep; [by exists shots | done].
Qed.

Lemma shots_from_frame b b' :
  shots_from b b' →
  ships b' = ships b ∧ ship_cells b' = ship_cells b
  ∧ hits b ⊆ hits b' ∧ misses b ⊆ misses b'
  ∧ destroyed_zones b ⊆ destroyed_zones b'.
Proof.
  revert b'. apply shots_from_ind; [done |].
  intros b' row col _ (H1 & H2 & H3 & H4 & H5).
  destruct (record_shot_frame row col b') as (-> & -> & ? & ? & ?).
  set_solver.
Qed.

Lemma reachable_inv b : reachable b → board_inv b.
Proof.
  intros (fleet & b0 & Hinit & Hshots).
  apply GameBoard__init__inr in Hinit as (_ & _ & _ & _ & Hinv0).
  revert b Hshots. apply shots_from_ind; [done |].
  intros b' row col _. apply record_shot_inv.
Qed.

Lemma reachable_shot row col b :
  reachable b → reachable (record_shot row col b).1.
Proof.
  intros (fleet & b0 & Hinit & shots & ->).
  exists fleet, b0. split; [done |]. exists (shots ++ [(row, col)]).
  by rewrite shoot_snoc.
Qed.

Lemma check_destroyed_loop_straight l b b' :
  for_ l check_destroyed_ship b = (b', inr tt) →
  ∀ s, s ∈ l → ∃ cells, has_cells s cells.
Proof.
  revert b. induction l as [| s0 l IH]; intros b; simpl.
  - intros _ s Hs. by apply elem_of_nil in Hs.
  - unfold mbind, stateful_bind.
    destruct (get_ship_cells s0.1 s0.2) as [e | cells0] eqn:Hs0.
    + by rewrite (check_destroyed_ship_raises s0 b e Hs0).
    + assert (H0 : has_cells s0 (list_to_set cells0)) by (by exists cells0).
      rewrite (check_destroyed_ship_returns s0 b _ H0).
      fold (@for_ ship GameBoard). intros Hrest s [-> | Hs]%elem_of_cons.
      * by eexists.
      * by apply (IH _ Hrest).
Qed.

Lemma has_ships_remaining_loop_inr b l :
  (∀ s, s ∈ l → ∃ cells, has_cells s cells) →
  ∃ v, has_ships_remaining_loop b l = inr v
    ∧ (v = false ↔
       ∀ s, s ∈ l → ∃ cells, has_cells s cells ∧ cells ⊆ hits b).
Proof.
  induction l as [| [start end_] l IH]; intros Hstraight; simpl.
  - exists false. split; [done |]. split; [| done].
    intros _ s Hs. by apply elem_of_nil in Hs.
  - destruct (Hstraight (start, end_)) as (cells & Hcells); [set_solver |].
    pose proof Hcells as (l0 & Hl0 & ->). simpl in Hl0. rewrite Hl0. simpl.
    case_decide as Hsub.
    + exists true. split; [done |]. split; [done |]. intros Hall.
      destruct (Hall (start, end_)) as (cells' & Hc' & Hsub');
        [set_solver |].
      by rewrite (has_cells_fun _ _ _ Hc' Hcells) in Hsub'.
    + destruct IH as (v & -> & Hv); [set_solver |].
      exists v. split; [done |]. rewrite Hv. split.
      * intros Hall s [-> | Hs]%elem_of_cons; [by eexists | by apply Hall].
      * intros Hall s Hs. apply Hall. set_solver.
Qed.

End board_facts.

(** ** Facts about the generator *)

Section generator_facts.

Lemma attempt_loop_inr max_attempts attempts g g' fleet :
  attempt_loop max_attempts attempts g = (g', inr fleet) →
  validate_ship_placement fleet true = inr true.
Proof.
  revert g. induction attempts as [| attempts IH]; intros g;
    cbn [attempt_loop]; [by unfold throw |].
  unfold mbind, stateful_bind.
  destruct (place_fleet SHIP_SIZES _ g) as [g1 [e | [p |]]];
    [by intros [=] | | apply IH].
  destruct (validate_ship_placement (placed_ships p) true)
    as [[] | v] eqn:Hv; unfold throw, mret, stateful_ret;
    try (by intros [=]).
  - apply IH.
  - intros [= _ <-].
    by destruct (validate_ship_placement_inr _ _ _ Hv) as [-> _].
Qed.

End generator_facts.

(** ** Facts about the game loop *)

Section game_facts.
Context {ucd : UnicodeData}.

Lemma keeps_log_ret {A} (a : A) : keeps_log (mret a).
Proof. done. Qed.

Lemma keeps_log_lift {A} (r : result A) : keeps_log (lift r).
Proof. done. Qed.

Lemma keeps_log_bind {A B} (m : stateful world A) (f : A → stateful world B) :
  keeps_log m → (∀ a, keeps_log (f a)) → keeps_log (m ≫= f).
Proof.
  intros Hm Hf w. unfold mbind, stateful_bind.
  specialize (Hm w). destruct (m w) as [w1 [e | a]]; [done |].
  specialize (Hf a w1). simpl in *. destruct Hf as [-> ->]. done.
Qed.

Lemma keeps_log_try {A} (m : stateful world A) handler :
  keeps_log m → (∀ why, keeps_log (handler why)) →
  keeps_log (try_except_ValueError m handler).
Proof.
  intros Hm Hh w. unfold try_except_ValueError.
  specialize (Hm w). destruct (m w) as [w1 [[why | | | |] | a]]; try done.
  specialize (Hh why w1). simpl in *. destruct Hh as [-> ->]. done.
Qed.

Lemma keeps_log_while {A} fuel (body : stateful world (option A)) :
  keeps_log body → keeps_log (while_True fuel body).
Proof.
  intros Hbody. induction fuel as [| fuel IH]; simpl; [done |].
  apply keeps_log_bind; [done |]. intros [a |]; [done | exact IH].
Qed.

Lemma keeps_log_input : keeps_log input.
Proof. intros w. unfold input. by destruct (stdin w). Qed.

Lemma keeps_log_on_random {A} (m : stateful random A) :
  keeps_log (on_random m).
Proof. intros w. unfold on_random. by destruct (m (rnd w)). Qed.

Lemma keeps_log_on_bot_board {A} (m : stateful GameBoard A) :
  keeps_log (on_bot_board m).
Proof. intros w. unfold on_bot_board. by destruct (m _). Qed.

Lemma keeps_log_on_player_board {A} (m : stateful GameBoard A) :
  keeps_log (on_player_board m).
Proof. intros w. unfold on_player_board. by destruct (m _). Qed.

Lemma keeps_log_get_player_move fuel : keeps_log (get_player_move fuel).
Proof.
  apply keeps_log_while, keeps_log_try; [| done].
  apply keeps_log_bind; [apply keeps_log_input |]. intros line.
  apply keeps_log_bind; [apply keeps_log_lift |]. by intros [row col].
Qed.

Lemma keeps_log_player_turn fuel : keeps_log (player_turn fuel).
Proof.
  apply keeps_log_while, keeps_log_try; [| done].
  apply keeps_log_bind; [apply keeps_log_get_player_move |].
  intros [row col].
  apply keeps_log_bind; [apply keeps_log_on_bot_board |]. intros player_hit.
  apply keeps_log_bind; [apply keeps_log_lift | done].
Qed.

Lemma keeps_log_bot_turn fuel : keeps_log (bot_turn fuel).
Proof.
  apply keeps_log_while.
  apply keeps_log_bind; [apply keeps_log_on_random |]. intros row.
  apply keeps_log_bind; [apply keeps_log_on_random |]. intros col.
  apply keeps_log_try; [| done].
  apply keeps_log_bind; [apply keeps_log_on_player_board |]. intros bot_hit.
  apply keeps_log_bind; [apply keeps_log_lift | done].
Qed.

Lemma hit_text_ok player_hit bot_hit turn player_coord bot_coord :
  hit_fields_ok
    {| turn_no := turn; player_move := player_coord;
       player_hit := hit_text player_hit; bot_move := bot_coord;
       bot_hit := hit_text bot_hit |}.
Proof. split; simpl; [destruct player_hit | destruct bot_hit]; auto. Qed.

(** One round keeps the log well formed; and when it ends the game for
    the player, the row it has just appended and saved has an empty
    [bot_move] and the [bot_hit] text [miss]. *)
Lemma round_spec fuel w :
  (log_ok w → log_ok (round fuel w).1)
  ∧ ∀ winner, (round fuel w).2 = inr (Some winner) →
      (winner = lit "player" ∨ winner = lit "bot")
      ∧ (winner = lit "player" →
         ∃ earlier m,
           move_history (game_state (round fuel w).1) = earlier ++ [m]
           ∧ game_state_csv (round fuel w).1 = Some (earlier ++ [m])
           ∧ bot_move m = [] ∧ bot_hit m = lit "miss").
Proof.
  unfold round, mbind, stateful_bind, modify, get, lift, save_to_csv,
    mret, stateful_ret.
  match goal with
  | |- context [player_turn fuel ?w1] =>
      pose proof (keeps_log_player_turn fuel w1) as [Hh1 Hc1];
      destruct (player_turn fuel w1) as [w2 [e | [player_move_str hit1]]]
  end; simpl in *.
  { split; [| done]. intros [Hlog Hsaved]. split; [by rewrite Hh1 |].
    by rewrite Hc1. }
  destruct (has_ships_remaining (bot_board (game_state w2)))
    as [e | bot_alive]; simpl.
  { split; [| done]. intros [Hlog Hsaved]. split; [by rewrite Hh1 |].
    by rewrite Hc1. }
  destruct bot_alive; simpl.
  - match goal with
    | |- context [bot_turn fuel ?w3] =>
        pose proof (keeps_log_bot_turn fuel w3) as [Hh2 Hc2];
        destruct (bot_turn fuel w3) as [w4 [e | [bot_move_str hit2]]]
    end; simpl in *.
    { split; [| done]. intros [Hlog Hsaved].
      split; [by rewrite Hh2, Hh1 | by rewrite Hc2, Hc1]. }
    destruct (has_ships_remaining (player_board (game_state w4)))
      as [e | player_alive]; simpl.
    { split; [| done]. intros [Hlog Hsaved].
      split; [by rewrite Hh2, Hh1 | by rewrite Hc2, Hc1]. }
    assert (Hrow : log_ok w →
      Forall hit_fields_ok
        (move_history (game_state w4) ++
         [ {| turn_no := turn (game_state w4);
              player_move := player_move_str;
              player_hit := hit_text hit1;
              bot_move := bot_move_str;
              bot_hit := hit_text hit2 |} ])).
    { intros [Hlog _]. apply Forall_app. split; [by rewrite Hh2, Hh1 |].
      apply Forall_singleton, hit_text_ok. }
    destruct player_alive; simpl.
    + split; [| done]. intros Hlog. split; [by apply Hrow |]. simpl.
      rewrite Hc2, Hc1. apply Hlog.
    + split.
      * intros Hlog. split; [by apply Hrow |]. simpl.
        intros saved [= <-]. by apply Hrow.
      * intros winner [= <-]. split; [by right |]. by intros [=].
  - assert (Hrow : log_ok w →
      Forall hit_fields_ok
        (move_history (game_state w2) ++
         [ {| turn_no := turn (game_state w2);
              player_move := player_move_str;
              player_hit := hit_text hit1;
              bot_move := empty_text;
              bot_hit := hit_text false |} ])).
    { intros [Hlog _]. apply Forall_app. split; [by rewrite Hh1 |].
      apply Forall_singleton, hit_text_ok. }
    split.
    + intros Hlog. split; [by apply Hrow |]. simpl.
      intros saved [= <-]. by apply Hrow.
    + intros winner [= <-]. split; [by left |]. intros _.
      eexists _, _. split; [reflexivity |]. split; [reflexivity |]. done.
Qed.

Lemma play_rounds_spec fuel fuel' w :
  (log_ok w → log_ok (while_True fuel' (round fuel) w).1)
  ∧ ∀ winner, (while_True fuel' (round fuel) w).2 = inr winner →
      (winner = lit "player" ∨ winner = lit "bot")
      ∧ (winner = lit "player" →
         ∃ earlier m,
           move_history (game_state (while_True fuel' (round fuel) w).1)
             = earlier ++ [m]
           ∧ game_state_csv (while_True fuel' (round fuel) w).1
             = Some (earlier ++ [m])
           ∧ bot_move m = [] ∧ bot_hit m = lit "miss").
Proof.
  revert w. induction fuel' as [| fuel' IH]; intros w; simpl; [done |].
  unfold mbind, stateful_bind.
  destruct (round_spec fuel w) as [Hlog Hwin].
  destruct (round fuel w) as [w1 [e | [winner |]]]; simpl in *; [done | |].
  - split; [done |]. intros winner' [= <-]. by apply Hwin.
  - destruct (IH w1) as [Hlog1 Hwin1]. split; [| done].
    intros Hw. by apply Hlog1, Hlog.
Qed.

End game_facts.

(** ** The claims about the placement validator *)

(** C3.  A list of ships on which
    [validate_ship_placement(ships, final_check=True)] returns has ten
    ships, its ship sizes sorted are [1,1,1,1,2,2,2,3,3,4], which is the
    sorted [SHIP_SIZES], no two of its ships share a cell, and no cell
    of one ship touches a cell of another ship, diagonals included.  A
    cell has its row and its column between 0 and 9, which is what
    [in_bounds] says of the two cells. *)
Theorem validated_fleet_is_well_formed (ships : list ship) (v : bool) :
  validate_ship_placement ships true = inr v →
  len ships = 10
  ∧ (∃ sizes,
       Forall2 (λ (s : ship) n, ∃ l, get_ship_cells s.1 s.2 = inr l ∧ n = len l)
         ships sizes
       ∧ sorted sizes = [1; 1; 1; 1; 2; 2; 2; 3; 3; 4]
       ∧ sorted sizes = sorted SHIP_SIZES)
  ∧ ∀ i j s1 s2 c1 c2,
      i ≠ j → ships !! i = Some s1 → ships !! j = Some s2 →
      has_cells s1 c1 → has_cells s2 c2 →
      c1 ## c2
      ∧ ∀ a b, a ∈ c1 → b ∈ c2 →
          in_bounds a = true → in_bounds b = true → ¬ neighbour a b.
Proof.
  intros Hv.
  destruct (validate_final_inr _ _ Hv) as (Hlen & sizes & Hsizes & Hsorted).
  destruct (validate_ship_placement_inr _ _ _ Hv) as (_ & all' & Hloop).
  split; [exact Hlen |]. split.
  - exists sizes. split; [done |]. split; [| done].
    rewrite Hsorted. by vm_compute.
  - intros i j s1 s2 c1 c2 Hij Hi Hj Hc1 Hc2.
    exact (check_ships_pairwise _ _ _ _ _ _ _ _ Hloop Hij Hi Hj Hc1 Hc2).
Qed.

(** Beside the board the validator sees no touching:
    [get_adjacent_cells] keeps the cells of the board only, so it accepts
    [overhanging_fleet], whose first ship has the cell (0, 10) right next
    to the cell (0, 9) of its second ship. *)
Lemma overhanging_fleet_validated_but_touching :
  validate_ship_placement overhanging_fleet true = inr true
  ∧ ∃ s1 s2 c1 c2,
      overhanging_fleet !! 0%nat = Some s1
      ∧ overhanging_fleet !! 1%nat = Some s2
      ∧ has_cells s1 c1 ∧ has_cells s2 c2
      ∧ (0, 10) ∈ c1 ∧ (0, 9) ∈ c2 ∧ neighbour (0, 10) (0, 9).
Proof.
  split; [by vm_compute |].
  exists ((0, 10), (0, 13)), ((0, 7), (0, 9)).
  eexists _, _. split; [done |]. split; [done |].
  split; [eexists; split; [by vm_compute | done] |].
  split; [eexists; split; [by vm_compute | done] |].
  split; [set_solver |]. split; [set_solver |].
  unfold neighbour. simpl. split; [done | lia].
Qed.

Lemma validated_fleet_is_well_formed_witness :
  len spaced_fleet = 10 ∧ ¬ neighbour (0, 3) (0, 6).
Proof.
  assert (Hv : validate_ship_placement spaced_fleet true = inr true)
    by (vm_compute; reflexivity).
  destruct (validated_fleet_is_well_formed spaced_fleet true Hv)
    as (Hlen & _ & Hpair).
  split; [exact Hlen |].
  destruct (Hpair 0%nat 1%nat ((0, 0), (0, 3)) ((0, 6), (0, 8))
              (list_to_set [(0, 0); (0, 1); (0, 2); (0, 3)])
              (list_to_set [(0, 6); (0, 7); (0, 8)])) as [_ Htouch].
  - lia.
  - reflexivity.
  - reflexivity.
  - eexists. split; [vm_compute; reflexivity | reflexivity].
  - eexists. split; [vm_compute; reflexivity | reflexivity].
  - apply Htouch; try reflexivity;
      apply (bool_decide_unpack _); vm_compute; exact I.
Defined.

(** ** The claims about [GameBoard] *)

(** C9.  On every board reachable from construction by [record_shot]
    calls, [hits] is a subset of the board's ship cells and [misses] is
    disjoint from them. *)
Theorem hits_on_ships_misses_off_ships (b : GameBoard) :
  reachable b → hits b ⊆ ship_cells b ∧ misses b ## ship_cells b.
Proof.
  intros Hb. apply reachable_inv in Hb as [_ _ Hh Hm _]. done.
Qed.

(** C8.  On every reachable board [has_ships_remaining()] returns, and it
    returns [False] exactly when the cell set of every ship is a subset
    of [hits]. *)
Theorem has_ships_remaining_false_iff_all_hit (b : GameBoard) :
  reachable b →
  (∃ v, has_ships_remaining b = inr v)
  ∧ (has_ships_remaining b = inr false ↔
     ∀ s, s ∈ ships b → ∃ cells, has_cells s cells ∧ cells ⊆ hits b).
Proof.
  intros Hb. apply reachable_inv in Hb as [Hstraight _ _ _ _].
  destruct (has_ships_remaining_loop_inr b (ships b) Hstraight)
    as (v & Hv & Hiff).
  unfold has_ships_remaining. rewrite Hv. split; [by exists v |].
  rewrite <- Hiff. split; [by intros [= ->] | by intros ->].
Qed.

(** C4.  On every reachable board [record_shot] raises exactly when the
    cell is already in [hits], [misses] or [destroyed_zones]; when it
    raises, the board is left as it was; and after a call that returned,
    a second call on the same cell raises. *)
Theorem record_shot_fails_iff_already_shot (b : GameBoard) (row col : Z) :
  reachable b →
  (already_shot b (row, col) ↔ ∃ e, (record_shot row col b).2 = inl e)
  ∧ (∀ e, (record_shot row col b).2 = inl e → (record_shot row col b).1 = b)
  ∧ (∀ v, (record_shot row col b).2 = inr v →
       ∃ e, record_shot row col (record_shot row col b).1
            = ((record_shot row col b).1, inl e)).
Proof.
  intros Hb. apply reachable_inv in Hb as Hinv.
  destruct (decide (already_shot b (row, col))) as [Hshot | Hfree].
  - destruct (record_shot_already_shot row col b Hshot) as [e ->]. simpl.
    split; [split; [by exists e | done] |]. split; done.
  - assert (Hret : ∃ b' v, record_shot row col b = (b', inr v)
                           ∧ already_shot b' (row, col)).
    { destruct (decide ((row, col) ∈ ship_cells b)) as [Hship | Hwater].
      - destruct (record_shot_hit_inv row col b Hinv Hfree Hship)
          as (b' & -> & _ & _ & Hh & _).
        exists b', true. split; [done |]. left. set_solver.
      - rewrite (record_shot_miss row col b Hfree Hwater).
        eexists _, false. split; [done |]. right; left. simpl. set_solver. }
    destruct Hret as (b' & v & -> & Hshot'). simpl.
    split; [split; [done | by intros [e ?]] |]. split; [done |].
    intros _ _. by apply record_shot_already_shot.
Qed.

(** C2.  When a [record_shot] call makes the last cell of a ship of the
    fleet a hit, so that the ship's cell set is a subset of [hits] after
    the call and was not before, every cell of the board that is an
    8-directional neighbour of a cell of that ship and belongs to no
    ship's cell set is in [destroyed_zones] after the call. *)
Theorem sunk_ship_neighbours_are_destroyed_zones
    (b b' : GameBoard) (row col : Z) (v : bool) (s : ship) (cells : gset cell) :
  s ∈ ships b → has_cells s cells →
  record_shot row col b = (b', inr v) →
  ¬ cells ⊆ hits b → cells ⊆ hits b' →
  ∀ n, in_bounds n = true →
    (∃ a, a ∈ cells ∧ neighbour a n) →
    (∀ s' cells', s' ∈ ships b → has_cells s' cells' → n ∉ cells') →
    n ∈ destroyed_zones b'.
Proof.
  intros Hs Hcells Hshot Hbefore Hafter n Hn Hnb Hfree.
  destruct (decide (already_shot b (row, col))) as [Hdone | Hfresh].
  { destruct (record_shot_already_shot row col b Hdone) as [e He].
    congruence. }
  destruct (decide ((row, col) ∈ ship_cells b)) as [Hship | Hwater].
  - rewrite (record_shot_hit row col b Hfresh Hship) in Hshot.
    destruct (for_ (ships b) check_destroyed_ship (add_hit (row, col) b))
      as [b1 [e | []]] eqn:Hloop; [done |].
    injection Hshot as -> <-.
    pose proof (check_destroyed_loop_straight _ _ _ Hloop) as Hstraight.
    destruct (check_destroyed_loop (ships b) (add_hit (row, col) b) Hstraight)
      as (b2 & Hrun & _ & _ & Hh & _ & Hz).
    rewrite Hloop in Hrun. injection Hrun as <-.
    apply Hz. right. exists s, cells.
    split; [done |]. split; [done |]. split; [by rewrite <- Hh |].
    split; [| by apply (Hfree s)].
    apply elem_of_halo. split; [done |]. split; [by apply (Hfree s) | done].
  - rewrite (record_shot_miss row col b Hfresh Hwater) in Hshot.
    injection Hshot as <- <-. done.
Qed.

(** C1, amended.  On every board reachable from a freshly constructed one
    by [record_shot] calls, returning or raising: no cell is in both
    [hits] and [misses]; if the fleet passes the validator and lies on
    the board, no cell is in both [hits] and [destroyed_zones]; and a cell
    that is in any of the three sets can never be shot again: on every
    later board a [record_shot] on it raises and changes nothing. *)
Theorem shot_cells_stay_shot (b : GameBoard) :
  reachable b →
  hits b ## misses b
  ∧ ((∃ final_check v,
        validate_ship_placement (ships b) final_check = inr v) →
     (∀ s, s ∈ ships b → on_board s) →
     hits b ## destroyed_zones b)
  ∧ ∀ c, already_shot b c →
      ∀ b', shots_from b b' → ∃ e, record_shot c.1 c.2 b' = (b', inl e).
Proof.
  intros Hb. apply reachable_inv in Hb as [I1 I2 I3 I4 I5].
  split; [set_solver |]. split.
  - intros (final_check & v & Hv) Hboard x Hx Hz.
    apply validate_ship_placement_inr in Hv as (_ & all' & Hloop).
    apply I3, I2 in Hx as (s1 & c1 & Hs1 & Hc1 & Hx).
    apply I5 in Hz as (s2 & c2 & Hs2 & Hc2 & Hhalo & Hout).
    apply elem_of_halo in Hhalo as (_ & _ & a & Ha & Hnb).
    apply list_elem_of_lookup in Hs1 as [i Hi].
    apply list_elem_of_lookup in Hs2 as [j Hj].
    destruct (decide (i = j)) as [-> | Hij].
    + rewrite Hi in Hj. injection Hj as <-.
      by rewrite (has_cells_fun _ _ _ Hc1 Hc2) in Hx.
    + destruct (check_ships_pairwise _ _ _ _ _ _ _ _ Hloop Hij Hi Hj Hc1 Hc2)
        as [_ Htouch].
      apply (Htouch x a Hx Ha).
      * eapply (has_cells_in_bounds s1); [done | | done].
        apply Hboard. by eapply list_elem_of_lookup_2.
      * eapply (has_cells_in_bounds s2); [done | | done].
        apply Hboard. by eapply list_elem_of_lookup_2.
      * by apply neighbour_sym.
  - intros [row col] Hshot b' Hlater. simpl.
    apply record_shot_already_shot.
    apply shots_from_frame in Hlater as (_ & _ & ? & ? & ?).
    unfold already_shot in *. set_solver.
Qed.

(** C1 as stated fails: on the board of [spaced_fleet], after a miss at
    (9, 1) and a hit at (9, 0), which sinks the one-cell ship there, the
    cell (9, 1) is in [misses] and in [destroyed_zones]. *)
Lemma miss_next_to_sunk_ship_in_two_sets :
  reachable (shoot [(9, 1); (9, 0)] (board_of spaced_fleet))
  ∧ (9, 1) ∈ misses (shoot [(9, 1); (9, 0)] (board_of spaced_fleet))
  ∧ (9, 1) ∈ destroyed_zones (shoot [(9, 1); (9, 0)] (board_of spaced_fleet)).
Proof.
  split.
  - exists spaced_fleet, (board_of spaced_fleet).
    split; [vm_compute; reflexivity | eexists; reflexivity].
  - split; apply (bool_decide_unpack _); by vm_compute.
Qed.

Lemma shot_cells_stay_shot_witness :
  hits (shoot [(9, 1); (9, 0)] (board_of spaced_fleet))
  ## misses (shoot [(9, 1); (9, 0)] (board_of spaced_fleet))
  ∧ hits (shoot [(9, 1); (9, 0)] (board_of spaced_fleet))
    ## destroyed_zones (shoot [(9, 1); (9, 0)] (board_of spaced_fleet)).
Proof.
  destruct (shot_cells_stay_shot
              (shoot [(9, 1); (9, 0)] (board_of spaced_fleet)))
    as (Hmiss & Hzone & _).
  - exists spaced_fleet, (board_of spaced_fleet).
    split; [vm_compute; reflexivity | eexists; reflexivity].
  - split; [exact Hmiss |]. apply Hzone.
    + exists true, true. vm_compute. reflexivity.
    + intros s Hs. vm_compute in Hs.
      repeat (apply elem_of_cons in Hs as [-> | Hs]);
        [.. | by apply elem_of_nil in Hs]; split; reflexivity.
Defined.

Lemma hits_on_ships_misses_off_ships_witness :
  hits (shoot [(9, 1); (9, 0)] (board_of spaced_fleet))
    ⊆ ship_cells (shoot [(9, 1); (9, 0)] (board_of spaced_fleet))
  ∧ misses (shoot [(9, 1); (9, 0)] (board_of spaced_fleet))
    ## ship_cells (shoot [(9, 1); (9, 0)] (board_of spaced_fleet)).
Proof.
  apply hits_on_ships_misses_off_ships.
  exists spaced_fleet, (board_of spaced_fleet).
  split; [vm_compute; reflexivity | eexists; reflexivity].
Defined.

Lemma has_ships_remaining_false_iff_all_hit_witness :
  ∃ v, has_ships_remaining (shoot [(9, 1); (9, 0)] (board_of spaced_fleet))
       = inr v.
Proof.
  apply has_ships_remaining_false_iff_all_hit.
  exists spaced_fleet, (board_of spaced_fleet).
  split; [vm_compute; reflexivity | eexists; reflexivity].
Defined.

Lemma record_shot_fails_iff_already_shot_witness :
  already_shot (shoot [(9, 1); (9, 0)] (board_of spaced_fleet)) (9, 1) ↔
  ∃ e, (record_shot 9 1 (shoot [(9, 1); (9, 0)] (board_of spaced_fleet))).2
       = inl e.
Proof.
  apply record_shot_fails_iff_already_shot.
  exists spaced_fleet, (board_of spaced_fleet).
  split; [vm_compute; reflexivity | eexists; reflexivity].
Defined.

Lemma sunk_ship_neighbours_are_destroyed_zones_witness :
  (9, 1) ∈ destroyed_zones (shoot [(9, 1); (9, 0)] (board_of spaced_fleet)).
Proof.
  apply (sunk_ship_neighbours_are_destroyed_zones
           (shoot [(9, 1)] (board_of spaced_fleet))
           (shoot [(9, 1); (9, 0)] (board_of spaced_fleet))
           9 0 true ((9, 0), (9, 0)) {[ (9, 0) ]}).
  - apply (list_elem_of_lookup_2 _ 8%nat). reflexivity.
  - exists [(9, 0)]. split; [reflexivity |]. vm_compute. reflexivity.
  - vm_compute. reflexivity.
  - apply (bool_decide_unpack _). vm_compute. exact I.
  - apply (bool_decide_unpack _). vm_compute. exact I.
  - reflexivity.
  - exists (9, 0). split; [apply elem_of_singleton; reflexivity |].
    unfold neighbour. simpl. split; [discriminate | lia].
  - intros s' cells' Hs' (l & Hl & ->). simpl in Hs'.
    unfold spaced_fleet in Hs'.
    repeat (apply elem_of_cons in Hs' as [-> | Hs']);
      [.. | by apply elem_of_nil in Hs'];
      vm_compute in Hl; injection Hl as <-;
      rewrite elem_of_list_to_set; intros Hin;
      repeat (apply elem_of_cons in Hin as [[=] | Hin]);
      by apply elem_of_nil in Hin.
Defined.

(** ** The claims about the coordinate codec *)

(** C6.  For every cell [(row, col)] with both coordinates in 0..9,
    [parse_coordinates(format_coordinates(row, col))] is [(row, col)];
    and for every coordinate text [s] made of a letter A..J in either case
    followed by the numeral of an integer 1..10,
    [format_coordinates] of the cell [parse_coordinates(s)] is
    [s.upper()], the upper-case letter followed by the same numeral.
    More generally, whatever text [parse_coordinates] accepts,
    [format_coordinates] of its cell is a coordinate text in upper case
    that parses to the same cell. *)
Theorem coordinates_round_trip {ucd : UnicodeData} :
  (∀ row col, 0 ≤ row ≤ 9 → 0 ≤ col ≤ 9 →
     ∃ text, format_coordinates row col = inr text
       ∧ parse_coordinates text = inr (row, col))
  ∧ (∀ s, valid_coordinate s →
     ∃ c, parse_coordinates s = inr c
       ∧ format_coordinates c.1 c.2 = inr (upper s)
       ∧ parse_coordinates (upper s) = inr c)
  ∧ (∀ s c, parse_coordinates s = inr c →
     ∃ text, format_coordinates c.1 c.2 = inr text
       ∧ valid_coordinate text ∧ upper text = text
       ∧ parse_coordinates text = inr c).
Proof.
  split; [| split].
  - intros row col Hrow Hcol.
    destruct (format_then_parse row col Hrow Hcol) as (Hf & Hp & _). eauto.
  - intros s (letter & n & -> & Hletter & Hn).
    destruct (parse_valid_coordinate letter n Hletter Hn) as [Hp Hf].
    destruct (parse_spelling_variants letter n Hletter Hn) as (Hu & _ & _).
    eauto.
  - intros s c Hs.
    apply parse_coordinates_inr
      in Hs as (letter & suffix & n & _ & Hletter & _ & Hn & ->).
    simpl.
    destruct (format_then_parse (Z.of_N letter - 65) (n - 1))
      as (Hf & Hp & Hu); [lia | lia |].
    eexists. split; [exact Hf |]. split; [| done].
    eexists _, _. split; [reflexivity |]. lia.
Qed.

Lemma coordinates_round_trip_witness :
  ∃ text, format_coordinates 9 9 = inr text
    ∧ parse_coordinates (ucd := ascii_only) text = inr (9, 9).
Proof.
  apply (proj1 (coordinates_round_trip (ucd := ascii_only)) 9 9); lia.
Defined.

(** C10.  [parse_coordinates] returns exactly when, after [strip()] and
    [upper()], the first character is a letter A..J and the rest is
    accepted by [int] with a value in 1..10; the cell is then (letter
    index, value - 1).  So spellings other than a letter followed by a
    numeral are accepted: for every letter A..J in either case and every
    number 1..10, the text with white space around it and a leading zero,
    and the text with a plus sign before the number, parse to the cell of
    the canonical text; ' a01 ' and 'A+1' parse to the cell of 'A1'. *)
Theorem parse_coordinates_accepts_variants {ucd : UnicodeData} :
  (∀ s c, parse_coordinates s = inr c ↔
     ∃ letter suffix n,
       upper (strip s) = letter :: suffix
       ∧ (65 ≤ letter ≤ 74)%N
       ∧ int suffix = inr n ∧ 1 ≤ n ≤ 10
       ∧ c = (Z.of_N letter - 65, n - 1))
  ∧ (∀ letter n,
       ((65 ≤ letter ≤ 74)%N ∨ (97 ≤ letter ≤ 106)%N) → 1 ≤ n ≤ 10 →
       ∃ c, parse_coordinates (upper (letter :: decimal_text n)) = inr c
         ∧ parse_coordinates
             (lit " " ++ letter :: lit "0" ++ decimal_text n ++ lit " ")
           = inr c
         ∧ parse_coordinates (letter :: lit "+" ++ decimal_text n) = inr c)
  ∧ parse_coordinates (lit "A1") = inr (0, 0)
  ∧ parse_coordinates (lit " a01 ") = inr (0, 0)
  ∧ parse_coordinates (lit "A+1") = inr (0, 0).
Proof.
  split; [exact parse_coordinates_inr |]. split.
  - intros letter n Hletter Hn.
    destruct (parse_spelling_variants letter n Hletter Hn) as (? & ? & ?).
    eauto.
  - by vm_compute.
Qed.

Lemma parse_coordinates_accepts_variants_witness :
  ∃ c, parse_coordinates (ucd := ascii_only)
         (upper (ucd := ascii_only) (lit "j10")) = inr c
    ∧ parse_coordinates (ucd := ascii_only) (lit " j010 ") = inr c
    ∧ parse_coordinates (ucd := ascii_only) (lit "j+10") = inr c.
Proof.
  apply (proj1 (proj2 (parse_coordinates_accepts_variants (ucd := ascii_only)))
           106%N 10); lia.
Defined.

(** ** The claim about the generator *)

(** C7.  Whenever [generate_bot_ships] returns a fleet, whatever the
    random draws and the attempt cap, that fleet passes
    [validate_ship_placement] with [final_check=True]. *)
Theorem generated_fleet_passes_validation
    (max_attempts : Z) (g g' : random) (fleet : list ship) :
  generate_bot_ships max_attempts g = (g', inr fleet) →
  validate_ship_placement fleet true = inr true.
Proof. unfold generate_bot_ships. apply attempt_loop_inr. Qed.

Lemma generated_fleet_passes_validation_witness :
  validate_ship_placement spaced_fleet true = inr true.
Proof.
  apply (generated_fleet_passes_validation 1000 (scripted spaced_draws)
           {| draws := draws (scripted spaced_draws); next := 30 |}).
  vm_compute. reflexivity.
Defined.

(** ** The claim about the move log *)

(** C5, amended.  Whatever the boards, the input and the random draws,
    every row of the move log of [play_game], in memory and in the saved
    file, has the literal strings [hit] or [miss] in its [player_hit] and
    [bot_hit] fields; and when the game returns ['player'], the last row,
    appended for the winning shot and saved, has an empty [bot_move] and
    the string [miss] as [bot_hit]. *)
Theorem move_log_hit_fields {ucd : UnicodeData} (fuel : nat)
    (player_board bot_board : GameBoard) (lines : list str) (g : random) :
  Forall hit_fields_ok
    (move_history
       (game_state (play_game fuel player_board bot_board lines g).1))
  ∧ (∀ saved,
       game_state_csv (play_game fuel player_board bot_board lines g).1
         = Some saved →
       Forall hit_fields_ok saved)
  ∧ ((play_game fuel player_board bot_board lines g).2
       = inr (lit "player") →
     ∃ earlier m,
       move_history
         (game_state (play_game fuel player_board bot_board lines g).1)
         = earlier ++ [m]
       ∧ game_state_csv (play_game fuel player_board bot_board lines g).1
         = Some (earlier ++ [m])
       ∧ bot_move m = empty_text ∧ bot_hit m = lit "miss").
Proof.
  unfold play_game.
  match goal with
  | |- context [while_True fuel (round fuel) ?w0] =>
      destruct (play_rounds_spec fuel fuel w0) as [Hlog Hwin];
      assert (H0 : log_ok w0) by (split; [constructor | done])
  end.
  destruct (Hlog H0) as [Hrows Hsaved].
  split; [done |]. split; [done |].
  intros Hplayer. by apply (Hwin _ Hplayer).
Qed.

(** C5 as stated fails: in the game of [winning_lines] against the board
    of [spaced_fleet] the player wins on the twentieth shot, and the row
    logged for it has the [bot_hit] text [miss], which is not blank. *)
Lemma player_win_logs_bot_hit_miss :
  (play_game (ucd := ascii_only) 30 (board_of spaced_fleet)
     (board_of spaced_fleet) winning_lines sweep).2 = inr (lit "player")
  ∧ ∃ m,
      last (move_history (game_state
              (play_game (ucd := ascii_only) 30 (board_of spaced_fleet)
                 (board_of spaced_fleet) winning_lines sweep).1)) = Some m
      ∧ turn_no m = 20 ∧ player_move m = lit "J4"
      ∧ bot_move m = empty_text ∧ bot_hit m = lit "miss"
      ∧ bot_hit m ≠ empty_text.
Proof.
  split; [by vm_compute |].
  eexists. split; [by vm_compute |]. by vm_compute.
Qed.

Lemma move_log_hit_fields_witness :
  ∃ earlier m,
    move_history (game_state
      (play_game (ucd := ascii_only) 30 (board_of spaced_fleet)
         (board_of spaced_fleet) winning_lines sweep).1) = earlier ++ [m]
    ∧ game_state_csv
        (play_game (ucd := ascii_only) 30 (board_of spaced_fleet)
           (board_of spaced_fleet) winning_lines sweep).1
      = Some (earlier ++ [m])
    ∧ bot_move m = empty_text ∧ bot_hit m = lit "miss".
Proof.
  apply (move_log_hit_fields (ucd := ascii_only) 30 (board_of spaced_fleet)
           (board_of spaced_fleet) winning_lines sweep).
  vm_compute. reflexivity.
Defined.

(** ** The scenarios of the specification *)

Section scenarios.
Context {ucd : UnicodeData}.

(** A board with the single ship A1-A1: the shot at A1 is a hit and no
    ship remains. *)
Example single_ship_sunk_by_one_shot :
  parse_coordinates (lit "A1") = inr (0, 0)
  ∧ (record_shot 0 0 (board_of [((0, 0), (0, 0))])).2 = inr true
  ∧ has_ships_remaining (record_shot 0 0 (board_of [((0, 0), (0, 0))])).1
    = inr false.
Proof. by vm_compute. Qed.

(** Ships at A1-A4 and C1-C4 pass the adjacency check; ships at A1-A4 and
    B1-B4 are too close. *)
Example two_rows_apart_is_accepted :
  validate_ship_placement [((0, 0), (0, 3)); ((2, 0), (2, 3))] false
  = inr true.
Proof. by vm_compute. Qed.

Example adjacent_rows_are_rejected :
  validate_ship_placement [((0, 0), (0, 3)); ((1, 0), (1, 3))] false
  = inl (ValueError (ShipTooClose 2)).
Proof. by vm_compute. Qed.

(** A ship is as long as its end points are apart, and a slanted ship is
    refused. *)
Example ship_length start end_ l :
  get_ship_cells start end_ = inr l →
  len l = Z.abs (end_.1 - start.1) + Z.abs (end_.2 - start.2) + 1.
Proof.
  destruct start as [r1 c1], end_ as [r2 c2]. unfold get_ship_cells, len, range.
  simpl. repeat case_decide; intros [= <-];
    rewrite length_map, length_seqZ; lia.
Qed.

Example slanted_ship_is_refused :
  get_ship_cells (0, 0) (1, 1) = inl (ValueError NotStraightLine).
Proof. done. Qed.

Example format_of_corner_cells :
  format_coordinates 0 0 = inr (lit "A1")
  ∧ format_coordinates 9 9 = inr (lit "J10")
  ∧ format_coordinates 0 (-1) = inr (lit "A0").
Proof. by vm_compute. Qed.

End scenarios.

(** ** Further properties of src/utils.py *)

(** *** The coordinate codec *)

Section codec_errors.
Context {ucd : UnicodeData}.

Lemma int_raises_ValueError text e :
  int text = inl e → ∃ why, e = ValueError why.
Proof.
  unfold int. destruct (mapM to_ascii text) as [s |]; [| intros [= <-]; eauto].
  set (s1 := drop_while int_space s).
  destruct (match s1 with
            | 43%N :: s' => (1, s')
            | 45%N :: s' => (-1, s')
            | _ => (1, s1)
            end) as [sign s2].
  assert (Hscan : match scan_digits false 0 0 s2 with
            | None => raise (ValueError (InvalidLiteralForInt text))
            | Some (v, digits, rest) =>
                if (digits =? 0)%nat
                then raise (ValueError (InvalidLiteralForInt text))
                else if (int_max_str_digits <? digits)%nat
                then raise (ValueError IntStrDigitsLimit)
                else match drop_while int_space rest with
                     | [] => Ok (sign * v)
                     | _ => raise (ValueError (InvalidLiteralForInt text))
                     end
            end = inl e → ∃ why, e = ValueError why).
  { destruct (scan_digits false 0 0 s2) as [[[v digits] rest] |];
      [| intros [= <-]; eauto].
    destruct (digits =? 0)%nat; [intros [= <-]; eauto |].
    destruct (int_max_str_digits <? digits)%nat; [intros [= <-]; eauto |].
    destruct (drop_while int_space rest); [done | intros [= <-]; eauto]. }
  destruct s2 as [| c s2']; [exact Hscan |].
  destruct c as [| p]; [exact Hscan |].
  destruct (decide (p = 95%positive)) as [-> | Hp].
  - intros [= <-]. eauto.
  - revert Hscan.
    repeat (destruct p as [p | p |]; try done; try (intros Hscan; exact Hscan)).
Qed.

Lemma parse_coordinates_raises_ValueError s e :
  parse_coordinates s = inl e → ∃ why, e = ValueError why.
Proof.
  unfold parse_coordinates.
  destruct (upper (strip s)) as [| letter [| c2 rest]];
    [intros [= <-]; eauto | intros [= <-]; eauto |].
  destruct ((letter <? 65)%N || (74 <? letter)%N); [intros [= <-]; eauto |].
  destruct (int (c2 :: rest)) as [e' | n] eqn:Hint.
  - destruct (int_raises_ValueError _ _ Hint) as [why ->]. intros [= <-]. eauto.
  - destruct ((n - 1 <? 0) || (BOARD_SIZE <=? n - 1)); [| done].
    simpl. intros [= <-]. eauto.
Qed.

Lemma parse_coordinates_in_bounds s c :
  parse_coordinates s = inr c → in_bounds c = true.
Proof.
  intros (letter & suffix & n & _ & Hletter & _ & Hn & ->)%parse_coordinates_inr.
  unfold in_bounds, BOARD_SIZE. simpl.
  repeat (apply andb_true_intro; split); lia.
Qed.

End codec_errors.

(** *** Geometry *)

Lemma get_ship_cells_straight start end_ :
  start.1 = end_.1 ∨ start.2 = end_.2 → ∃ l, get_ship_cells start end_ = inr l.
Proof.
  destruct start as [r1 c1], end_ as [r2 c2]. simpl. unfold get_ship_cells.
  intros [-> | ->]; repeat case_decide; try done; by eexists.
Qed.

Lemma get_ship_cells_slanted start end_ :
  start.1 ≠ end_.1 → start.2 ≠ end_.2 →
  get_ship_cells start end_ = inl (ValueError NotStraightLine).
Proof.
  destruct start as [r1 c1], end_ as [r2 c2]. simpl. unfold get_ship_cells.
  intros H1 H2. by rewrite !decide_False.
Qed.

Lemma NoDup_range lo hi : NoDup (range lo hi).
Proof. apply NoDup_seqZ. Qed.

Lemma get_ship_cells_NoDup start end_ l :
  get_ship_cells start end_ = inr l → NoDup l.
Proof.
  destruct start as [r1 c1], end_ as [r2 c2]. unfold get_ship_cells.
  repeat case_decide; intros [= <-];
    (apply NoDup_fmap_2; [intros x y [=]; done | apply NoDup_range]).
Qed.

Lemma get_ship_cells_len start end_ l :
  get_ship_cells start end_ = inr l →
  len l = Z.abs (end_.1 - start.1) + Z.abs (end_.2 - start.2) + 1.
Proof.
  destruct start as [r1 c1], end_ as [r2 c2]. unfold get_ship_cells, len, range.
  simpl. repeat case_decide; intros [= <-];
    rewrite length_map, length_seqZ; lia.
Qed.

Lemma get_ship_cells_swap start end_ :
  get_ship_cells start end_ = get_ship_cells end_ start.
Proof.
  destruct start as [r1 c1], end_ as [r2 c2]. unfold get_ship_cells.
  repeat case_decide; subst; try done;
    by rewrite ?(Z.min_comm c1 c2), ?(Z.max_comm c1 c2),
               ?(Z.min_comm r1 r2), ?(Z.max_comm r1 r2).
Qed.

Lemma has_cells_size s cells :
  has_cells s cells →
  Z.of_nat (size cells) = Z.abs (s.2.1 - s.1.1) + Z.abs (s.2.2 - s.1.2) + 1.
Proof.
  intros (l & Hl & ->). rewrite size_list_to_set by by eapply get_ship_cells_NoDup.
  by apply get_ship_cells_len.
Qed.

Lemma get_adjacent_cells_ext (l1 l2 : list cell) :
  (∀ x, x ∈ l1 ↔ x ∈ l2) → get_adjacent_cells l1 = get_adjacent_cells l2.
Proof.
  intros Hl. apply set_eq. intros x. rewrite !elem_of_get_adjacent_cells.
  setoid_rewrite Hl. done.
Qed.

Lemma get_ship_cells_raises_ValueError start end_ e :
  get_ship_cells start end_ = inl e → e = ValueError NotStraightLine.
Proof.
  destruct start as [r1 c1], end_ as [r2 c2]. unfold get_ship_cells.
  repeat case_decide; by intros [= <-].
Qed.

(** *** The validator, both ways *)

Lemma ship_size_allowed (n : nat) : Z.of_nat n ∈ SHIP_SIZES ↔ (1 ≤ n ≤ 4)%nat.
Proof.
  unfold SHIP_SIZES. split.
  - intros H. repeat (apply elem_of_cons in H as [H | H]; [lia |]).
    by apply elem_of_nil in H.
  - intros H. assert (n = 1 ∨ n = 2 ∨ n = 3 ∨ n = 4)%nat as [-> | [-> | [-> | ->]]]
      by lia; set_solver.
Qed.

Lemma check_ship_accepts all i s cells :
  has_cells s cells → Z.of_nat (size cells) ∈ SHIP_SIZES →
  all ∩ cells = ∅ → all ∩ halo cells = ∅ →
  check_ship all i s = inr (all ∪ cells).
Proof.
  destruct s as [start end_]. intros (l & Hl & ->) Hsize Hov Hadj.
  simpl in Hl. unfold check_ship. rewrite Hl. simpl.
  rewrite decide_False by (intros H; by apply H).
  rewrite decide_False by (intros H; by apply H).
  fold (halo (list_to_set l)).
  rewrite decide_False by (intros H; by apply H). done.
Qed.

(** The loop accepts a list exactly when every ship is straight, of an
    allowed size, and clear of the cells it started with and of the ships
    before it. *)
Lemma check_ships_accepts ships i all :
  (∀ k s, ships !! k = Some s →
     ∃ cells, has_cells s cells
       ∧ Z.of_nat (size cells) ∈ SHIP_SIZES
       ∧ cells ## all ∧ halo cells ## all
       ∧ ∀ j s' cells', (j < k)%nat → ships !! j = Some s' →
           has_cells s' cells' → cells' ## cells ∧ cells' ## halo cells) →
  ∃ all', check_ships i ships all = inr all'.
Proof.
  revert i all. induction ships as [| s0 rest IH]; intros i all Hall; simpl.
  - by eexists.
  - destruct (Hall 0%nat s0 eq_refl) as (cells0 & Hc0 & Hsz0 & Hd0 & Hh0 & _).
    rewrite (check_ship_accepts all i s0 cells0) by (try done; set_solver).
    simpl. apply IH. intros k s Hk.
    destruct (Hall (S k) s Hk) as (cells & Hc & Hsz & Hd & Hh & Hearlier).
    exists cells. split; [done |]. split; [done |].
    destruct (Hearlier 0%nat s0 cells0) as [H1 H2]; [lia | done | done |].
    split; [set_solver |]. split; [set_solver |].
    intros j s' cells' Hj Hs' Hc'. apply (Hearlier (S j) s' cells'); [lia | done | done].
Qed.

Lemma validate_incremental_iff ships :
  validate_ship_placement ships false = inr true ↔
  ∀ k s, ships !! k = Some s →
    ∃ cells, has_cells s cells
      ∧ (1 ≤ size cells ≤ 4)%nat
      ∧ ∀ j s' cells', (j < k)%nat → ships !! j = Some s' →
          has_cells s' cells' → cells' ## cells ∧ cells' ## halo cells.
Proof.
  split.
  - intros Hv. apply validate_ship_placement_inr in Hv as (_ & all' & Hloop).
    apply check_ships_inr in Hloop as [_ Hall]. intros k s Hk.
    destruct (Hall k s Hk) as (cells & Hc & Hsz & _ & _ & _ & Hearlier).
    exists cells. split; [done |]. split; [by apply ship_size_allowed | done].
  - intros Hall. unfold validate_ship_placement.
    destruct (check_ships_accepts ships 0 ∅) as [all' ->]; [| done].
    intros k s Hk. destruct (Hall k s Hk) as (cells & Hc & Hsz & Hearlier).
    exists cells. split; [done |]. split; [by apply ship_size_allowed |].
    split; [set_solver |]. split; [set_solver | done].
Qed.

Lemma validate_only_ValueError ships final_check :
  validate_ship_placement ships final_check = inr true
  ∨ ∃ why, validate_ship_placement ships final_check = inl (ValueError why).
Proof.
  assert (Hcells : ∀ start end_, (∃ l, get_ship_cells start end_ = inr l)
            ∨ get_ship_cells start end_ = inl (ValueError NotStraightLine)).
  { intros [r1 c1] [r2 c2]. unfold get_ship_cells.
    repeat case_decide; eauto. }
  assert (Hship : ∀ all i s, (∃ all', check_ship all i s = inr all')
            ∨ ∃ why, check_ship all i s = inl (ValueError why)).
  { intros all i [start end_]. unfold check_ship.
    destruct (Hcells start end_) as [[l ->] | ->]; simpl; [| eauto].
    repeat case_decide; eauto. }
  assert (Hloop : ∀ l i all, (∃ all', check_ships i l all = inr all')
            ∨ ∃ why, check_ships i l all = inl (ValueError why)).
  { induction l as [| s l IH]; intros i all; simpl; [eauto |].
    destruct (Hship all i s) as [[all1 ->] | [why ->]]; simpl; eauto. }
  unfold validate_ship_placement.
  destruct (Hloop ships 0 ∅) as [[all' ->] | [why ->]]; simpl; [| eauto].
  destruct final_check; [| eauto].
  case_decide; [eauto |].
  assert (Hsizes : ∀ l : list ship,
    (∃ sizes, comprehension
       (λ '(s, e), cells ← get_ship_cells s e; Ok (len cells)) l = inr sizes)
    ∨ ∃ why, comprehension
       (λ '(s, e), cells ← get_ship_cells s e; Ok (len cells)) l
       = inl (ValueError why)).
  { induction l as [| [start end_] l IH]; simpl; [eauto |].
    destruct (Hcells start end_) as [[l0 ->] | ->]; simpl; [| eauto].
    destruct IH as [[sizes ->] | [why ->]]; simpl; eauto. }
  destruct (Hsizes ships) as [[sizes ->] | [why ->]]; simpl; [| eauto].
  case_decide; eauto.
Qed.

Lemma sorted_eq_iff_Permutation (l1 l2 : list Z) :
  sorted l1 = sorted l2 ↔ l1 ≡ₚ l2.
Proof.
  unfold sorted. split.
  - intros H. rewrite <- (merge_sort_Permutation Z.le l1), H.
    apply merge_sort_Permutation.
  - intros H. apply (Sorted_unique Z.le).
    + apply Sorted_merge_sort. intros x y. lia.
    + apply Sorted_merge_sort. intros x y. lia.
    + by rewrite !merge_sort_Permutation.
Qed.

Lemma validate_on_board_iff_aux ships :
  (∀ s, s ∈ ships → on_board s) →
  validate_ship_placement ships false = inr true ↔
  (∀ s, s ∈ ships → ∃ cells, has_cells s cells ∧ (1 ≤ size cells ≤ 4)%nat)
  ∧ ∀ i j s1 s2 c1 c2,
      i ≠ j → ships !! i = Some s1 → ships !! j = Some s2 →
      has_cells s1 c1 → has_cells s2 c2 →
      c1 ## c2 ∧ ∀ a b, a ∈ c1 → b ∈ c2 → ¬ neighbour a b.
Proof.
  intros Hboard. split.
  - intros Hv. split.
    + intros s [k Hk]%list_elem_of_lookup.
      destruct (proj1 (validate_incremental_iff ships) Hv k s Hk)
        as (cells & ? & ? & _). eauto.
    + apply validate_ship_placement_inr in Hv as (_ & all' & Hloop).
      intros i j s1 s2 c1 c2 Hij Hi Hj Hc1 Hc2.
      destruct (check_ships_pairwise _ _ _ _ _ _ _ _ Hloop Hij Hi Hj Hc1 Hc2)
        as [Hdis Htouch].
      split; [done |]. intros a b Ha Hb. apply Htouch; [done | done | |].
      * eapply (has_cells_in_bounds s1); [done | | done].
        apply Hboard. by eapply list_elem_of_lookup_2.
      * eapply (has_cells_in_bounds s2); [done | | done].
        apply Hboard. by eapply list_elem_of_lookup_2.
  - intros [Hships Hpair]. apply validate_incremental_iff. intros k s Hk.
    destruct (Hships s) as (cells & Hc & Hsz); [by eapply list_elem_of_lookup_2 |].
    exists cells. split; [done |]. split; [done |].
    intros j s' cells' Hj Hs' Hc'.
    destruct (Hpair j k s' s cells' cells) as [Hdis Htouch]; try done; [lia |].
    split; [done |]. intros x Hx (_ & _ & a & Ha & Hnb)%elem_of_halo.
    apply (Htouch x a Hx Ha). by apply neighbour_sym.
Qed.

Lemma validate_prefix l1 l2 :
  validate_ship_placement (l1 ++ l2) false = inr true →
  validate_ship_placement l1 false = inr true.
Proof.
  rewrite !validate_incremental_iff. intros Hall k s Hk.
  destruct (Hall k s) as (cells & Hc & Hsz & Hearlier).
  { by apply lookup_app_l_Some. }
  exists cells. split; [done |]. split; [done |].
  intros j s' cells' Hj Hs'. apply (Hearlier j s' cells' Hj).
  by apply lookup_app_l_Some.
Qed.

Lemma validate_final_then_incremental ships :
  validate_ship_placement ships true = inr true →
  validate_ship_placement ships false = inr true.
Proof.
  intros Hv. apply validate_ship_placement_inr in Hv as (_ & all' & Hloop).
  unfold validate_ship_placement. by rewrite Hloop.
Qed.

Lemma sizes_comprehension (ships : list ship) :
  (∀ s, s ∈ ships → ∃ cells, has_cells s cells) →
  ∃ sizes,
    comprehension (λ '(s, e), cells ← get_ship_cells s e; Ok (len cells)) ships
      = inr sizes
    ∧ Forall2 (λ (s : ship) n, ∃ cells, has_cells s cells
                 ∧ n = Z.of_nat (size cells)) ships sizes.
Proof.
  induction ships as [| [start end_] ships IH]; intros Hstraight; simpl.
  - exists []. split; [done | constructor].
  - destruct (Hstraight (start, end_)) as (cells & l & Hl & ->); [set_solver |].
    simpl in Hl. rewrite Hl. simpl.
    destruct IH as (sizes & -> & Hsizes); [set_solver |]. simpl.
    eexists. split; [done |]. constructor; [| done].
    exists (list_to_set l). split; [by exists l |].
    unfold len. by rewrite size_list_to_set by by eapply get_ship_cells_NoDup.
Qed.

Lemma Forall2_sizes_fun (ships : list ship) sizes1 sizes2 :
  Forall2 (λ (s : ship) n, ∃ cells, has_cells s cells
             ∧ n = Z.of_nat (size cells)) ships sizes1 →
  Forall2 (λ (s : ship) n, ∃ cells, has_cells s cells
             ∧ n = Z.of_nat (size cells)) ships sizes2 →
  sizes1 = sizes2.
Proof.
  intros H1. revert sizes2. induction H1 as [| s n ships sizes1 Hn _ IH];
    intros sizes2 H2; inversion H2 as [| ? m ? sizes2' Hm H2']; subst; [done |].
  f_equal; [| by apply IH].
  destruct Hn as (c1 & Hc1 & ->), Hm as (c2 & Hc2 & ->).
  by rewrite (has_cells_fun _ _ _ Hc1 Hc2).
Qed.

Lemma Forall2_sizes_map (ships : list ship) sizes :
  Forall2 (λ (s : ship) n, ∃ cells, has_cells s cells
             ∧ n = Z.of_nat (size cells)) ships sizes →
  sizes = map ship_span ships.
Proof.
  induction 1 as [| s n ships sizes (cells & Hc & ->) _ IH]; [done |].
  simpl. f_equal; [| done]. by apply has_cells_size.
Qed.

(** The final check adds the fleet composition to the incremental one. *)
Lemma validate_final_iff ships :
  validate_ship_placement ships true = inr true ↔
  validate_ship_placement ships false = inr true
  ∧ map ship_span ships ≡ₚ SHIP_SIZES.
Proof.
  assert (Hcomp : validate_ship_placement ships false = inr true →
    comprehension (λ '(s, e), cells ← get_ship_cells s e; Ok (len cells)) ships
      = inr (map ship_span ships)).
  { intros Hinc.
    destruct (sizes_comprehension ships) as (sizes & Hcomp & Hsizes).
    { intros s [k Hk]%list_elem_of_lookup.
      destruct (proj1 (validate_incremental_iff ships) Hinc k s Hk)
        as (cells & ? & _). eauto. }
    by rewrite <- (Forall2_sizes_map _ _ Hsizes). }
  split.
  - intros Hv. pose proof (validate_final_then_incremental _ Hv) as Hinc.
    split; [done |]. specialize (Hcomp Hinc).
    unfold validate_ship_placement in Hv.
    destruct (check_ships 0 ships ∅); simpl in Hv; [done |].
    case_decide as Hlen; [done |]. rewrite Hcomp in Hv. simpl in Hv.
    case_decide as Hsorted; [done |]. by apply sorted_eq_iff_Permutation.
  - intros (Hinc & Hperm). specialize (Hcomp Hinc).
    apply validate_ship_placement_inr in Hinc as (_ & all' & Hloop).
    unfold validate_ship_placement. rewrite Hloop. simpl.
    rewrite decide_False.
    + rewrite Hcomp. simpl. rewrite decide_False; [done |].
      intros H. apply H. by apply sorted_eq_iff_Permutation.
    + intros H. apply H. unfold len.
      apply Permutation_length in Hperm. rewrite length_map in Hperm.
      by rewrite Hperm.
Qed.

Lemma validate_permutation ships ships' final_check :
  ships ≡ₚ ships' → (∀ s, s ∈ ships → on_board s) →
  validate_ship_placement ships final_check = inr true →
  validate_ship_placement ships' final_check = inr true.
Proof.
  intros Hperm Hboard.
  assert (Hinc : validate_ship_placement ships false = inr true →
                 validate_ship_placement ships' false = inr true).
  { rewrite !validate_on_board_iff_aux;
      [| by intros s Hs; apply Hboard; rewrite Hperm | done].
    intros [Hships Hpair]. split.
    - intros s Hs. apply Hships. by rewrite Hperm.
    - symmetry in Hperm.
      apply Permutation_inj in Hperm as (_ & f & Hf & Hlook).
      intros i j s1 s2 c1 c2 Hij Hi Hj. rewrite Hlook in Hi, Hj.
      apply (Hpair (f i) (f j)); [| done | done].
      intros Heq. by apply Hij, Hf. }
  destruct final_check; [| done].
  rewrite !validate_final_iff. intros [Hv Hsizes]. split; [by apply Hinc |].
  by rewrite <- Hperm.
Qed.

Lemma total_Permutation l1 l2 : l1 ≡ₚ l2 → total l1 = total l2.
Proof.
  unfold total. induction 1; simpl; lia.
Qed.

Lemma check_ships_union ships i all all' :
  check_ships i ships all = inr all' →
  (∀ x, x ∈ all' ↔
     (x ∈ all ∨ ∃ s cells, s ∈ ships ∧ has_cells s cells ∧ x ∈ cells))
  ∧ Z.of_nat (size all')
    = Z.of_nat (size all) + total (map ship_span ships).
Proof.
  revert i all. induction ships as [| s0 rest IH]; intros i all; simpl.
  - intros [= <-]. split; [| unfold total; simpl; lia].
    intros x. split; [by left |].
    intros [Hx | (s & cells & Hs & _)]; [done |]. by apply elem_of_nil in Hs.
  - destruct (check_ship all i s0) as [e | all1] eqn:Hs0; simpl; [done |].
    intros Hrest.
    apply check_ship_inr in Hs0 as (cells0 & Hc0 & _ & Hov0 & _ & ->).
    destruct (IH _ _ Hrest) as [Hmem Hsize]. split.
    + intros x. rewrite Hmem, elem_of_union. split.
      * intros [[Hx | Hx] | (s & cells & Hs & Hc & Hx)]; [by left | |].
        -- right. exists s0, cells0. set_solver.
        -- right. exists s, cells. set_solver.
      * intros [Hx | (s & cells & [-> | Hs]%elem_of_cons & Hc & Hx)].
        -- by left; left.
        -- left; right. by rewrite (has_cells_fun _ _ _ Hc0 Hc).
        -- right. by exists s, cells.
    + rewrite Hsize, size_union by set_solver.
      rewrite Nat2Z.inj_add, (has_cells_size s0 cells0 Hc0).
      unfold total, ship_span. simpl. lia.
Qed.

Lemma GameBoard__init__returns fleet :
  (∀ s, s ∈ fleet → ∃ cells, has_cells s cells) →
  ∃ b, GameBoard__init__ fleet = inr b.
Proof.
  intros Hstraight. unfold GameBoard__init__.
  match goal with
  | |- context [for_each fleet ?f ?acc] =>
      assert (Hloop : ∀ acc0, ∃ acc', for_each fleet f acc0 = inr acc')
  end.
  { induction fleet as [| [start end_] fleet IH]; intros acc0.
    - by eexists.
    - simpl. destruct (Hstraight (start, end_)) as (? & l & Hl & _);
        [set_solver |].
      simpl in Hl. rewrite Hl. simpl. apply IH. set_solver. }
  destruct (Hloop ∅) as [acc' ->]. by eexists.
Qed.

Lemma GameBoard__init__raises fleet :
  (∃ s, s ∈ fleet ∧ s.1.1 ≠ s.2.1 ∧ s.1.2 ≠ s.2.2) →
  GameBoard__init__ fleet = inl (ValueError NotStraightLine).
Proof.
  intros (s & Hs & H1 & H2). unfold GameBoard__init__.
  match goal with
  | |- context [for_each fleet ?f ?acc] =>
      assert (Hloop : ∀ acc0,
        for_each fleet f acc0 = inl (ValueError NotStraightLine))
  end.
  { induction fleet as [| [start end_] fleet IH]; intros acc0.
    - by apply elem_of_nil in Hs.
    - simpl. apply elem_of_cons in Hs as [-> | Hs].
      + by rewrite get_ship_cells_slanted.
      + destruct (get_ship_cells start end_) as [e | l] eqn:Hl; simpl.
        * destruct (decide (start.1 = end_.1)) as [Hr | Hr].
          { destruct (get_ship_cells_straight start end_) as [l Hl'];
              [by left | congruence]. }
          destruct (decide (start.2 = end_.2)) as [Hc | Hc].
          { destruct (get_ship_cells_straight start end_) as [l Hl'];
              [by right | congruence]. }
          rewrite get_ship_cells_slanted in Hl by done. by injection Hl as <-.
        * by apply IH. }
  by rewrite Hloop.
Qed.

Lemma validated_board fleet final_check :
  validate_ship_placement fleet final_check = inr true →
  ∃ b, GameBoard__init__ fleet = inr b
    ∧ Z.of_nat (size (ship_cells b)) = total (map ship_span fleet)
    ∧ (final_check = true → size (ship_cells b) = 20%nat).
Proof.
  intros Hv.
  assert (Hinc : validate_ship_placement fleet false = inr true).
  { destruct final_check; [by apply validate_final_then_incremental | done]. }
  apply validate_ship_placement_inr in Hinc as Hloop.
  destruct Hloop as (_ & all' & Hloop).
  destruct (check_ships_union _ _ _ _ Hloop) as [Hmem Hsize].
  destruct (GameBoard__init__returns fleet) as [b Hb].
  { intros s [k Hk]%list_elem_of_lookup.
    destruct (proj1 (validate_incremental_iff fleet) Hinc k s Hk)
      as (cells & ? & _). eauto. }
  exists b. split; [done |].
  apply GameBoard__init__inr in Hb as (Hships & _ & _ & _ & Hinv).
  assert (Heq : ship_cells b = all').
  { apply set_eq. intros x. rewrite (inv_ship_cells b Hinv), Hmem, Hships.
    set_solver. }
  rewrite Heq, Hsize, size_empty. split; [simpl; lia |].
  intros ->. apply validate_final_iff in Hv as [_ Hperm].
  apply total_Permutation in Hperm.
  assert (Z.of_nat (size all') = 20); [| lia].
  rewrite Hsize, size_empty, Hperm. done.
Qed.

Lemma check_ships_app ships rest i all :
  check_ships i (ships ++ rest) all =
  match check_ships i ships all with
  | inl e => inl e
  | inr all' => check_ships (i + len ships) rest all'
  end.
Proof.
  revert i all. induction ships as [| s0 ships IH]; intros i all.
  - simpl. unfold len. simpl. by rewrite Z.add_0_r.
  - cbn [app check_ships]. destruct (check_ship all i s0) as [e | all1];
      simpl; [done |].
    rewrite IH. destruct (check_ships (i + 1) ships all1); [done |].
    f_equal. unfold len. simpl length. lia.
Qed.

(** What [check_ship] raises, and when, on the cells of the ships
    [earlier]. *)
Lemma check_ship_misfit earlier all i s e :
  (∀ x, x ∈ all ↔ ∃ s' cells', s' ∈ earlier ∧ has_cells s' cells' ∧ x ∈ cells') →
  check_ship all i s = inl e ↔ misfit earlier i s e.
Proof.
  intros Hall. destruct s as [start end_]. unfold check_ship.
  destruct (get_ship_cells start end_) as [e' | l] eqn:Hl.
  - pose proof (get_ship_cells_raises_ValueError _ _ _ Hl) as ->.
    assert (Hslant : start.1 ≠ end_.1 ∧ start.2 ≠ end_.2).
    { destruct (decide (start.1 = end_.1)) as [Heq | Hne].
      - destruct (get_ship_cells_straight start end_ (or_introl Heq)) as [l' Hl'].
        congruence.
      - split; [done |]. intros Heq.
        destruct (get_ship_cells_straight start end_ (or_intror Heq)) as [l' Hl'].
        congruence. }
    simpl. split.
    + intros [= <-]. destruct Hslant. by apply misfit_slanted.
    + intros Hm. inversion Hm as [| cells (l' & Hl' & _) | ? ? ? ? (l' & Hl' & _)
                                  | ? ? ? ? (l' & Hl' & _)]; simpl in *;
        [done | congruence | congruence | congruence].
  - assert (Hc : has_cells (start, end_) (list_to_set l)) by by exists l.
    cbn [mbind result_bind].
    assert (Hinter : ∀ other : gset cell, all ∩ other ≠ ∅ ↔
              ∃ s' cells' x, s' ∈ earlier ∧ has_cells s' cells'
                ∧ x ∈ other ∧ x ∈ cells').
    { intros other. split.
      - intros Hne. apply set_choose_L in Hne as [x Hx].
        apply elem_of_intersection in Hx as [Hx1 Hx2].
        apply Hall in Hx1 as (s' & cells' & ? & ? & ?). by exists s', cells', x.
      - intros (s' & cells' & x & Hs' & Hc' & Hx & Hx') Hemp.
        apply (not_elem_of_empty (C := gset cell) x). rewrite <- Hemp.
        apply elem_of_intersection. split; [| done]. apply Hall. eauto. }
    fold (halo (list_to_set l)).
    destruct (decide (Z.of_nat (size (list_to_set l : gset cell)) ∉ SHIP_SIZES))
      as [Hsize | Hsize].
    { split.
      - intros [= <-]. by apply misfit_size.
      - intros Hm. inversion Hm as [H1 H2 | cells Hc' | cells ? ? ? Hc' Hsz
                                    | cells ? ? ? Hc' Hsz]; simpl in *.
        + by rewrite (get_ship_cells_slanted _ _ H1 H2) in Hl.
        + by rewrite (has_cells_fun _ _ _ Hc' Hc).
        + rewrite (has_cells_fun _ _ _ Hc' Hc) in Hsz. done.
        + rewrite (has_cells_fun _ _ _ Hc' Hc) in Hsz. done. }
    apply dec_stable in Hsize.
    destruct (decide (all ∩ list_to_set l ≠ ∅)) as [Hover | Hover].
    { apply Hinter in Hover as (s' & cells' & x & Hs' & Hc' & Hx & Hx'). split.
      - intros [= <-]. by eapply misfit_overlap.
      - intros Hm. inversion Hm as [H1 H2 | cells Hc'' Hsz | | cells ? ? ? Hc'' Hsz Hfree];
          simpl in *.
        + by rewrite (get_ship_cells_slanted _ _ H1 H2) in Hl.
        + rewrite (has_cells_fun _ _ _ Hc'' Hc) in Hsz. done.
        + done.
        + rewrite (has_cells_fun _ _ _ Hc'' Hc) in Hfree.
          destruct (Hfree s' cells' Hs' Hc' x Hx Hx'). }
    assert (Hfree : ∀ s'' cells'', s'' ∈ earlier → has_cells s'' cells'' →
              list_to_set l ## cells'').
    { intros s'' cells'' Hs'' Hc'' x Hx Hx'. apply Hover. apply Hinter.
      by exists s'', cells'', x. }
    destruct (decide (all ∩ halo (list_to_set l) ≠ ∅)) as [Hclose | Hclose].
    { apply Hinter in Hclose as (s' & cells' & x & Hs' & Hc' & Hx & Hx'). split.
      - intros [= <-]. by eapply misfit_close.
      - intros Hm. inversion Hm as [H1 H2 | cells Hc'' Hsz
                                    | cells s'' cells'' y Hc'' _ Hs'' Hcs'' Hy Hy' | ];
          simpl in *.
        + by rewrite (get_ship_cells_slanted _ _ H1 H2) in Hl.
        + rewrite (has_cells_fun _ _ _ Hc'' Hc) in Hsz. done.
        + rewrite (has_cells_fun _ _ _ Hc'' Hc) in Hy.
          destruct (Hfree s'' cells'' Hs'' Hcs'' y Hy Hy').
        + done. }
    split; [done |].
    intros Hm. inversion Hm as [H1 H2 | cells Hc'' Hsz
                                | cells s'' cells'' y Hc'' _ Hs'' Hcs'' Hy Hy'
                                | cells s'' cells'' y Hc'' _ _ Hs'' Hcs'' Hy Hy'];
      simpl in *.
    + by rewrite (get_ship_cells_slanted _ _ H1 H2) in Hl.
    + rewrite (has_cells_fun _ _ _ Hc'' Hc) in Hsz. done.
    + rewrite (has_cells_fun _ _ _ Hc'' Hc) in Hy.
      destruct (Hfree s'' cells'' Hs'' Hcs'' y Hy Hy').
    + rewrite (has_cells_fun _ _ _ Hc'' Hc) in Hy.
      destruct Hclose. apply Hinter. by exists s'', cells'', y.
Qed.

(** Where [check_ships] raises: at the first ship that does not fit with
    the ships before it. *)
Lemma check_ships_raises ships i all e :
  check_ships i ships all = inl e →
  ∃ k s all_k,
    ships !! k = Some s
    ∧ check_ships i (take k ships) all = inr all_k
    ∧ check_ship all_k (i + Z.of_nat k) s = inl e.
Proof.
  revert i all. induction ships as [| s0 rest IH]; intros i all; simpl; [done |].
  destruct (check_ship all i s0) as [e' | all1] eqn:H0; simpl.
  - intros [= <-]. exists 0%nat, s0, all. rewrite Z.add_0_r. done.
  - intros (k & s & all_k & Hk & Htake & Hs)%IH.
    exists (S k), s, all_k. split; [done |]. simpl. rewrite H0. simpl.
    split; [done |]. by replace (i + Z.of_nat (S k)) with (i + 1 + Z.of_nat k) by lia.
Qed.

(** The validator raises at the first ship that does not fit with the
    ships before it, and raises what [misfit] says. *)
Lemma validate_raises_iff ships e :
  validate_ship_placement ships false = inl e ↔
  ∃ k s,
    ships !! k = Some s
    ∧ validate_ship_placement (take k ships) false = inr true
    ∧ misfit (take k ships) (Z.of_nat k) s e.
Proof.
  assert (Hcells : ∀ l all_k, check_ships 0 l ∅ = inr all_k →
    ∀ x, x ∈ all_k ↔ ∃ s' cells', s' ∈ l ∧ has_cells s' cells' ∧ x ∈ cells').
  { intros l all_k Hl x. apply check_ships_union in Hl as [Hl _].
    rewrite Hl. set_solver. }
  unfold validate_ship_placement. split.
  - destruct (check_ships 0 ships ∅) as [e' | all'] eqn:Hloop; simpl; [| done].
    intros [= <-].
    apply check_ships_raises in Hloop as (k & s & all_k & Hk & Htake & Hs).
    exists k, s. split; [done |]. rewrite Htake. simpl. split; [done |].
    rewrite Z.add_0_l in Hs.
    apply (check_ship_misfit (take k ships) all_k); [by apply Hcells | done].
  - intros (k & s & Hk & Htake & Hm).
    destruct (check_ships 0 (take k ships) ∅) as [e' | all_k] eqn:Hloop;
      simpl in Htake; [done |].
    apply (check_ship_misfit (take k ships) all_k _ _ _ (Hcells _ _ Hloop)) in Hm.
    rewrite <- (take_drop_middle ships k s Hk), check_ships_app, Hloop.
    cbn [check_ships]. unfold len. rewrite length_take_le
      by (apply lookup_lt_Some in Hk; lia).
    rewrite Z.add_0_l, Hm. done.
Qed.

(** X1.  [get_ship_cells] returns for two cells of one row or of one
    column, and raises the [ValueError] of a ship that is not in a
    straight line for any other two cells.  The list it returns has no
    cell twice, holds exactly the cells between the two end cells, and
    is the same whichever end is given first. *)
Theorem get_ship_cells_straight_or_refused (start end_ : cell) :
  (start.1 = end_.1 ∨ start.2 = end_.2 →
   ∃ l, get_ship_cells start end_ = inr l
     ∧ get_ship_cells end_ start = inr l
     ∧ NoDup l
     ∧ ∀ x, x ∈ l ↔
         Z.min start.1 end_.1 ≤ x.1 ≤ Z.max start.1 end_.1
         ∧ Z.min start.2 end_.2 ≤ x.2 ≤ Z.max start.2 end_.2)
  ∧ (start.1 ≠ end_.1 → start.2 ≠ end_.2 →
     get_ship_cells start end_ = inl (ValueError NotStraightLine)).
Proof.
  split; [| apply get_ship_cells_slanted].
  intros Hstraight.
  destruct (get_ship_cells_straight start end_ Hstraight) as [l Hl].
  exists l. split; [done |]. split; [by rewrite <- get_ship_cells_swap |].
  split; [by eapply get_ship_cells_NoDup |].
  intros x. rewrite (get_ship_cells_elem _ _ _ x Hl).
  destruct start as [r1 c1], end_ as [r2 c2], x as [xr xc]. simpl in *. lia.
Qed.

Lemma get_ship_cells_straight_or_refused_witness :
  ∃ l, get_ship_cells (0, 3) (0, 0) = inr l
    ∧ get_ship_cells (0, 0) (0, 3) = inr l
    ∧ NoDup l
    ∧ ∀ x, x ∈ l ↔ 0 ≤ x.1 ≤ 0 ∧ 0 ≤ x.2 ≤ 3.
Proof.
  apply (proj1 (get_ship_cells_straight_or_refused (0, 3) (0, 0))).
  left. reflexivity.
Defined.

(** X2.  [get_adjacent_cells] returns exactly the cells of the board that
    are not in the list and touch a cell of the list, diagonals
    included; the order of the list and cells given twice make no
    difference. *)
Theorem get_adjacent_cells_is_the_border (cells : list cell) :
  (∀ x, x ∈ get_adjacent_cells cells ↔
     in_bounds x = true ∧ (x ∉ cells) ∧ ∃ a, a ∈ cells ∧ neighbour a x)
  ∧ ∀ cells' : list cell,
      (list_to_set cells' : gset cell) = list_to_set cells →
      get_adjacent_cells cells' = get_adjacent_cells cells.
Proof.
  split; [apply elem_of_get_adjacent_cells |].
  intros cells' Hsame. apply get_adjacent_cells_ext. intros x.
  rewrite <- (elem_of_list_to_set (C := gset cell) x cells').
  rewrite <- (elem_of_list_to_set (C := gset cell) x cells).
  by rewrite Hsame.
Qed.

Lemma get_adjacent_cells_is_the_border_witness :
  get_adjacent_cells [(0, 1); (0, 0); (0, 1)]
  = get_adjacent_cells [(0, 0); (0, 1)].
Proof.
  apply (proj2 (get_adjacent_cells_is_the_border [(0, 0); (0, 1)])).
  apply (bool_decide_unpack _). vm_compute. exact I.
Defined.

(** X3.  For ships that lie on the board, [validate_ship_placement] with
    [final_check=False] returns exactly when every ship is a straight
    line of one to four cells and no two ships share a cell or have
    cells that touch, diagonals included: it accepts every such fleet,
    not only the other way round. *)
Theorem validate_accepts_exactly_the_spaced_fleets (ships : list ship) :
  (∀ s, s ∈ ships → on_board s) →
  validate_ship_placement ships false = inr true ↔
  (∀ s, s ∈ ships → ∃ cells, has_cells s cells ∧ (1 ≤ size cells ≤ 4)%nat)
  ∧ ∀ i j s1 s2 c1 c2,
      i ≠ j → ships !! i = Some s1 → ships !! j = Some s2 →
      has_cells s1 c1 → has_cells s2 c2 →
      c1 ## c2 ∧ ∀ a b, a ∈ c1 → b ∈ c2 → ¬ neighbour a b.
Proof. apply validate_on_board_iff_aux. Qed.

Lemma validate_accepts_exactly_the_spaced_fleets_witness :
  validate_ship_placement [((0, 0), (0, 3)); ((2, 0), (2, 3))] false
    = inr true ↔
  (∀ s, s ∈ [((0, 0), (0, 3)); ((2, 0), (2, 3))] →
     ∃ cells, has_cells s cells ∧ (1 ≤ size cells ≤ 4)%nat)
  ∧ ∀ i j s1 s2 c1 c2,
      i ≠ j →
      [((0, 0), (0, 3)); ((2, 0), (2, 3))] !! i = Some s1 →
      [((0, 0), (0, 3)); ((2, 0), (2, 3))] !! j = Some s2 →
      has_cells s1 c1 → has_cells s2 c2 →
      c1 ## c2 ∧ ∀ a b, a ∈ c1 → b ∈ c2 → ¬ neighbour a b.
Proof.
  apply (validate_accepts_exactly_the_spaced_fleets
           [((0, 0), (0, 3)); ((2, 0), (2, 3))]).
  intros s Hs. repeat (apply elem_of_cons in Hs as [-> | Hs]);
    [.. | by apply elem_of_nil in Hs]; split; reflexivity.
Defined.

(** X4.  The final check adds one condition to the other checks of
    [validate_ship_placement]: the lengths of the ships, end to end, are
    those of [SHIP_SIZES] in some order. *)
Theorem validate_final_check_counts_sizes (ships : list ship) :
  validate_ship_placement ships true = inr true ↔
  validate_ship_placement ships false = inr true
  ∧ map ship_span ships ≡ₚ SHIP_SIZES.
Proof. apply validate_final_iff. Qed.

(** X5.  [validate_ship_placement] with [final_check=False] raises the
    error [e] exactly when some ship of the list, after ships that pass
    the validation on their own, does not fit with them, [e] being the
    error of that misfit: not a straight line when the ship is slanted;
    a size that is not allowed, with the number of cells of the ship;
    an overlap when it shares a cell with an earlier ship; a ship too
    close when it shares none and its border meets an earlier ship.  The
    ship number in the message is the position of that ship counted
    from one.  That ship is the first the validator refuses: the list up
    to it and with it raises the same error, and every shorter one
    passes.  Whatever the flag, the validator returns nothing but [True]
    and raises nothing but [ValueError]. *)
Theorem validate_blames_the_first_misfit (ships : list ship) :
  (∀ e, validate_ship_placement ships false = inl e ↔
     ∃ k s,
       ships !! k = Some s
       ∧ validate_ship_placement (take k ships) false = inr true
       ∧ misfit (take k ships) (Z.of_nat k) s e)
  ∧ (∀ e k s,
       ships !! k = Some s →
       validate_ship_placement (take k ships) false = inr true →
       misfit (take k ships) (Z.of_nat k) s e →
       validate_ship_placement (take (S k) ships) false = inl e
       ∧ ∀ j, (j ≤ k)%nat →
           validate_ship_placement (take j ships) false = inr true)
  ∧ ∀ final_check,
      validate_ship_placement ships final_check = inr true
      ∨ ∃ why, validate_ship_placement ships final_check
               = inl (ValueError why).
Proof.
  split; [intros e; apply validate_raises_iff |].
  split; [| intros final_check; apply validate_only_ValueError].
  intros e k s Hk Htake Hm. split.
  - apply validate_raises_iff. exists k, s.
    assert (Hlt : (k < length ships)%nat) by by eapply lookup_lt_Some.
    rewrite lookup_take_lt by lia.
    rewrite take_take, Nat.min_l by lia. done.
  - intros j Hj. apply (validate_prefix _ (drop j (take k ships))).
    replace (take j ships) with (take j (take k ships))
      by (by rewrite take_take, Nat.min_l by lia).
    by rewrite take_drop.
Qed.

Lemma validate_blames_the_first_misfit_witness :
  ∃ k s,
    [((0, 0), (0, 3)); ((2, 0), (2, 3)); ((3, 0), (3, 0))] !! k = Some s
    ∧ validate_ship_placement
        (take k [((0, 0), (0, 3)); ((2, 0), (2, 3)); ((3, 0), (3, 0))]) false
      = inr true
    ∧ misfit (take k [((0, 0), (0, 3)); ((2, 0), (2, 3)); ((3, 0), (3, 0))])
        (Z.of_nat k) s (ValueError (ShipTooClose 3)).
Proof.
  apply (proj1 (proj1 (validate_blames_the_first_misfit
                         [((0, 0), (0, 3)); ((2, 0), (2, 3)); ((3, 0), (3, 0))])
                  (ValueError (ShipTooClose 3)))).
  vm_compute. reflexivity.
Defined.

(** X6.  The validator accepts the ships one by one: a fleet that passes
    with [final_check=False] still passes when ships are dropped from
    its end. *)
Theorem validate_accepts_every_prefix (ships rest : list ship) :
  validate_ship_placement (ships ++ rest) false = inr true →
  validate_ship_placement ships false = inr true.
Proof. apply validate_prefix. Qed.

Lemma validate_accepts_every_prefix_witness :
  validate_ship_placement [((0, 0), (0, 3))] false = inr true.
Proof.
  apply (validate_accepts_every_prefix [((0, 0), (0, 3))] [((2, 0), (2, 3))]).
  vm_compute. reflexivity.
Defined.

(** X7.  For ships on the board the order of the list makes no difference
    to [validate_ship_placement].  Off the board it does: with its first
    two ships the other way round, [overhanging_fleet], which passes, is
    refused. *)
Theorem validate_ignores_the_order_on_the_board
    (ships ships' : list ship) (final_check : bool) :
  (ships ≡ₚ ships' → (∀ s, s ∈ ships → on_board s) →
   validate_ship_placement ships final_check = inr true →
   validate_ship_placement ships' final_check = inr true)
  ∧ validate_ship_placement overhanging_fleet true = inr true
  ∧ validate_ship_placement
      (((0, 7), (0, 9)) :: ((0, 10), (0, 13)) :: drop 2 overhanging_fleet) true
    = inl (ValueError (ShipTooClose 2)).
Proof.
  split; [apply validate_permutation |]. split; by vm_compute.
Qed.

Lemma validate_ignores_the_order_on_the_board_witness :
  validate_ship_placement [((2, 0), (2, 3)); ((0, 0), (0, 3))] false
  = inr true.
Proof.
  apply (proj1 (validate_ignores_the_order_on_the_board
                  [((0, 0), (0, 3)); ((2, 0), (2, 3))]
                  [((2, 0), (2, 3)); ((0, 0), (0, 3))] false)).
  - apply perm_swap.
  - intros s Hs. repeat (apply elem_of_cons in Hs as [-> | Hs]);
      [.. | by apply elem_of_nil in Hs]; split; reflexivity.
  - vm_compute. reflexivity.
Defined.

(** X8.  [parse_coordinates] either returns a cell of the board or raises
    a [ValueError]: no other exception leaves it, whatever the text. *)
Theorem parse_coordinates_cell_or_ValueError {ucd : UnicodeData} (s : str) :
  match parse_coordinates s with
  | inr c => in_bounds c = true
  | inl e => ∃ why, e = ValueError why
  end.
Proof.
  destruct (parse_coordinates s) as [e | c] eqn:Hs.
  - by eapply parse_coordinates_raises_ValueError.
  - by eapply parse_coordinates_in_bounds.
Qed.

(** ** Further properties of [GameBoard] *)

Lemma has_cells_start s cells : has_cells s cells → s.1 ∈ cells.
Proof.
  intros (l & Hl & ->). apply elem_of_list_to_set.
  apply (get_ship_cells_elem _ _ _ _ Hl).
  destruct s as [[r1 c1] [r2 c2]]. simpl in *.
  unfold get_ship_cells in Hl. repeat case_decide; try done; lia.
Qed.

Lemma record_shot_bounds row col b :
  ships (record_shot row col b).1 = ships b
  ∧ ship_cells (record_shot row col b).1 = ship_cells b
  ∧ hits b ⊆ hits (record_shot row col b).1
  ∧ hits (record_shot row col b).1 ⊆ hits b ∪ {[ (row, col) ]}
  ∧ misses b ⊆ misses (record_shot row col b).1
  ∧ misses (record_shot row col b).1 ⊆ misses b ∪ {[ (row, col) ]}
  ∧ destroyed_zones b ⊆ destroyed_zones (record_shot row col b).1.
Proof.
  destruct (decide (already_shot b (row, col))) as [Hshot | Hfree].
  - destruct (record_shot_already_shot row col b Hshot) as [e ->]. simpl.
    set_solver.
  - destruct (decide ((row, col) ∈ ship_cells b)) as [Hship | Hwater].
    + rewrite (record_shot_hit row col b Hfree Hship).
      pose proof (check_destroyed_loop_frame (ships b) (add_hit (row, col) b))
        as Hframe.
      destruct (for_ _ _ _) as [b' [e | []]]; simpl in *;
        destruct Hframe as (-> & -> & -> & -> & Hz); set_solver.
    + rewrite (record_shot_miss row col b Hfree Hwater). simpl. set_solver.
Qed.

Lemma record_shot_fresh row col b :
  board_inv b → ¬ already_shot b (row, col) →
  ∃ b', record_shot row col b
        = (b', inr (bool_decide ((row, col) ∈ ship_cells b)))
    ∧ (if bool_decide ((row, col) ∈ ship_cells b)
       then hits b' = hits b ∪ {[ (row, col) ]} ∧ misses b' = misses b
       else hits b' = hits b ∧ misses b' = misses b ∪ {[ (row, col) ]}
            ∧ destroyed_zones b' = destroyed_zones b).
Proof.
  intros Hinv Hfree. case_bool_decide as Hship.
  - destruct (record_shot_hit_inv row col b Hinv Hfree Hship)
      as (b' & -> & _ & _ & Hh & Hm & _). by exists b'.
  - rewrite (record_shot_miss row col b Hfree Hship). by eexists.
Qed.

Lemma reachable_zones b : reachable b → zones_of_sunk_ships b.
Proof.
  intros (fleet & b0 & Hinit & Hshots).
  apply GameBoard__init__inr in Hinit as (_ & Hh0 & _ & Hz0 & Hinv0).
  assert (Hboth : board_inv b ∧ zones_of_sunk_ships b); [| by destruct Hboth].
  revert b Hshots. apply shots_from_ind.
  - split; [done |]. intros x. rewrite Hz0, Hh0. split; [set_solver |].
    intros (s & cells & _ & Hc & Hsub & _).
    apply has_cells_start in Hc. set_solver.
  - intros b row col _ [Hinv Hz]. split; [by apply record_shot_inv |].
    destruct (decide (already_shot b (row, col))) as [Hshot | Hfree].
    { by destruct (record_shot_already_shot row col b Hshot) as [e ->]. }
    destruct (decide ((row, col) ∈ ship_cells b)) as [Hship | Hwater].
    + destruct (record_shot_hit_inv row col b Hinv Hfree Hship)
        as (b' & -> & Hs & _ & Hh & _ & Hz'). simpl.
      intros x. rewrite Hz', Hs, Hh, (Hz x). split.
      * intros [(s & cells & ? & ? & ? & ?)
               | (s & cells & ? & ? & ? & ? & ?)];
          exists s, cells; set_solver.
      * intros (s & cells & ? & ? & ? & Hx). right. exists s, cells.
        repeat split; try done. by apply elem_of_halo in Hx as (_ & ? & _).
    + rewrite (record_shot_miss row col b Hfree Hwater). exact Hz.
Qed.

Lemma all_hit_iff_hits_eq b :
  board_inv b →
  (∀ s, s ∈ ships b → ∃ cells, has_cells s cells ∧ cells ⊆ hits b)
  ↔ hits b = ship_cells b.
Proof.
  intros [I1 I2 I3 I4 I5]. split.
  - intros Hall. apply set_eq. intros x. split; [by apply I3 |].
    intros (s & cells & Hs & Hc & Hx)%I2.
    destruct (Hall s Hs) as (cells' & Hc' & Hsub).
    rewrite (has_cells_fun _ _ _ Hc Hc') in Hx. by apply Hsub.
  - intros Heq s Hs. destruct (I1 s Hs) as [cells Hc]. exists cells.
    split; [done |]. intros x Hx. rewrite Heq. apply I2. by exists s, cells.
Qed.

Lemma has_ships_remaining_reachable b :
  reachable b →
  has_ships_remaining b = inr (bool_decide (hits b ≠ ship_cells b)).
Proof.
  intros Hb. apply reachable_inv in Hb as Hinv.
  destruct (has_ships_remaining_loop_inr b (ships b) (inv_straight b Hinv))
    as (v & Hv & Hiff).
  unfold has_ships_remaining. rewrite Hv. f_equal.
  rewrite (all_hit_iff_hits_eq b Hinv) in Hiff.
  case_bool_decide as Hne; destruct v; try done.
  - exfalso. apply Hne. by apply Hiff.
  - by destruct Hiff as [_ ->].
Qed.

Lemma get_cell_state_cases b row col :
  (get_cell_state b row col = lit "X" ↔ (row, col) ∈ hits b)
  ∧ (get_cell_state b row col = lit "O" ↔
       ((row, col) ∉ hits b)
       ∧ ((row, col) ∈ misses b ∨ (row, col) ∈ destroyed_zones b))
  ∧ (get_cell_state b row col = lit "." ↔ ¬ already_shot b (row, col)).
Proof.
  unfold get_cell_state, already_shot.
  repeat case_decide; (split; [| split]); split; try done; try tauto;
    try (by intros [=]).
Qed.

(** X9.  [GameBoard(ships)] returns exactly for fleets of straight ships,
    and raises the [ValueError] of [get_ship_cells] as soon as one ship
    is slanted.  The board it returns keeps the list of ships, has empty
    [hits], [misses] and [destroyed_zones], and its [ship_cells] are
    exactly the cells of the ships. *)
Theorem GameBoard_init_returns_for_straight_ships (fleet : list ship) :
  ((∀ s, s ∈ fleet → s.1.1 = s.2.1 ∨ s.1.2 = s.2.2) →
   ∃ b, GameBoard__init__ fleet = inr b
     ∧ ships b = fleet
     ∧ hits b = ∅ ∧ misses b = ∅ ∧ destroyed_zones b = ∅
     ∧ ∀ x, x ∈ ship_cells b ↔
         ∃ s cells, s ∈ fleet ∧ has_cells s cells ∧ x ∈ cells)
  ∧ ((∃ s, s ∈ fleet ∧ s.1.1 ≠ s.2.1 ∧ s.1.2 ≠ s.2.2) →
     GameBoard__init__ fleet = inl (ValueError NotStraightLine)).
Proof.
  split; [| apply GameBoard__init__raises].
  intros Hstraight.
  destruct (GameBoard__init__returns fleet) as [b Hb].
  { intros s Hs. destruct (get_ship_cells_straight s.1 s.2 (Hstraight s Hs))
      as [l Hl]. exists (list_to_set l), l. done. }
  exists b. split; [done |].
  apply GameBoard__init__inr in Hb as (Hships & ? & ? & ? & Hinv).
  do 4 (split; [done |]). intros x. rewrite (inv_ship_cells b Hinv).
  by rewrite Hships.
Qed.

Lemma GameBoard_init_returns_for_straight_ships_witness :
  GameBoard__init__ [((0, 0), (0, 3)); ((2, 2), (3, 3))]
  = inl (ValueError NotStraightLine).
Proof.
  apply (proj2 (GameBoard_init_returns_for_straight_ships
                  [((0, 0), (0, 3)); ((2, 2), (3, 3))])).
  exists ((2, 2), (3, 3)). split.
  - apply (bool_decide_unpack _). vm_compute. exact I.
  - simpl. lia.
Defined.

(** X10.  A fleet that [validate_ship_placement] accepts makes a board:
    [GameBoard] returns on it, and the board has as many ship cells as
    the lengths of the ships add up to, twenty when the fleet has passed
    the final check. *)
Theorem validated_fleet_makes_a_board (fleet : list ship) (final_check : bool) :
  validate_ship_placement fleet final_check = inr true →
  ∃ b, GameBoard__init__ fleet = inr b
    ∧ Z.of_nat (size (ship_cells b)) = total (map ship_span fleet)
    ∧ (final_check = true → size (ship_cells b) = 20%nat).
Proof. apply validated_board. Qed.

Lemma validated_fleet_makes_a_board_witness :
  ∃ b, GameBoard__init__ spaced_fleet = inr b
    ∧ Z.of_nat (size (ship_cells b)) = total (map ship_span spaced_fleet)
    ∧ (true = true → size (ship_cells b) = 20%nat).
Proof.
  apply (validated_fleet_makes_a_board spaced_fleet true).
  vm_compute. reflexivity.
Defined.

(** X11.  Whatever the board, a [record_shot] call, returning or raising,
    leaves the ships and their cells alone, takes nothing out of [hits],
    [misses] and [destroyed_zones], and adds no cell to [hits] or to
    [misses] other than the cell shot at. *)
Theorem record_shot_only_adds_the_shot (b : GameBoard) (row col : Z) :
  ships (record_shot row col b).1 = ships b
  ∧ ship_cells (record_shot row col b).1 = ship_cells b
  ∧ hits b ⊆ hits (record_shot row col b).1
  ∧ hits (record_shot row col b).1 ⊆ hits b ∪ {[ (row, col) ]}
  ∧ misses b ⊆ misses (record_shot row col b).1
  ∧ misses (record_shot row col b).1 ⊆ misses b ∪ {[ (row, col) ]}
  ∧ destroyed_zones b ⊆ destroyed_zones (record_shot row col b).1.
Proof. apply record_shot_bounds. Qed.

(** X12.  On a reachable board a shot at a cell that is in none of the
    three sets returns, and returns [True] exactly when the cell is a
    ship cell: the cell then joins [hits] and [misses] stays; otherwise
    it joins [misses] and [hits] and [destroyed_zones] stay. *)
Theorem record_shot_returns_whether_it_hit (b : GameBoard) (row col : Z) :
  reachable b → ¬ already_shot b (row, col) →
  ∃ b', record_shot row col b
        = (b', inr (bool_decide ((row, col) ∈ ship_cells b)))
    ∧ (if bool_decide ((row, col) ∈ ship_cells b)
       then hits b' = hits b ∪ {[ (row, col) ]} ∧ misses b' = misses b
       else hits b' = hits b ∧ misses b' = misses b ∪ {[ (row, col) ]}
            ∧ destroyed_zones b' = destroyed_zones b).
Proof. intros Hb. apply record_shot_fresh. by apply reachable_inv. Qed.

Lemma record_shot_returns_whether_it_hit_witness :
  ∃ b', record_shot 0 0 (board_of spaced_fleet)
        = (b', inr (bool_decide ((0, 0) ∈ ship_cells (board_of spaced_fleet))))
    ∧ (if bool_decide ((0, 0) ∈ ship_cells (board_of spaced_fleet))
       then hits b' = hits (board_of spaced_fleet) ∪ {[ (0, 0) ]}
            ∧ misses b' = misses (board_of spaced_fleet)
       else hits b' = hits (board_of spaced_fleet)
            ∧ misses b' = misses (board_of spaced_fleet) ∪ {[ (0, 0) ]}
            ∧ destroyed_zones b' = destroyed_zones (board_of spaced_fleet)).
Proof.
  apply (record_shot_returns_whether_it_hit (board_of spaced_fleet) 0 0).
  - exists spaced_fleet, (board_of spaced_fleet).
    split; [vm_compute; reflexivity | exists []; reflexivity].
  - apply (bool_decide_unpack _). vm_compute. exact I.
Defined.

(** X13.  On every reachable board [destroyed_zones] is exactly the union
    of the borders of the sunk ships: a cell is in it if and only if it
    is in the border, as [get_adjacent_cells] gives it, of a ship all of
    whose cells are in [hits]. *)
Theorem destroyed_zones_are_the_borders_of_sunk_ships (b : GameBoard) :
  reachable b →
  ∀ x, x ∈ destroyed_zones b ↔
    ∃ s cells, s ∈ ships b ∧ has_cells s cells ∧ cells ⊆ hits b
      ∧ x ∈ halo cells.
Proof. apply reachable_zones. Qed.

Lemma destroyed_zones_are_the_borders_of_sunk_ships_witness :
  (9, 1) ∈ destroyed_zones (shoot [(9, 1); (9, 0)] (board_of spaced_fleet)) ↔
  ∃ s cells,
    s ∈ ships (shoot [(9, 1); (9, 0)] (board_of spaced_fleet))
    ∧ has_cells s cells
    ∧ cells ⊆ hits (shoot [(9, 1); (9, 0)] (board_of spaced_fleet))
    ∧ (9, 1) ∈ halo cells.
Proof.
  apply (destroyed_zones_are_the_borders_of_sunk_ships
           (shoot [(9, 1); (9, 0)] (board_of spaced_fleet))).
  exists spaced_fleet, (board_of spaced_fleet).
  split; [vm_compute; reflexivity | eexists; reflexivity].
Defined.

(** X14.  On every reachable board [has_ships_remaining()] is [True]
    exactly as long as [hits] is not yet the whole of [ship_cells]; on a
    board made from a fleet that passed the final check that is exactly
    as long as there are fewer than twenty hits. *)
Theorem has_ships_remaining_until_all_cells_hit
    (fleet : list ship) (b0 b : GameBoard) :
  GameBoard__init__ fleet = inr b0 → shots_from b0 b →
  has_ships_remaining b = inr (bool_decide (hits b ≠ ship_cells b))
  ∧ (validate_ship_placement fleet true = inr true →
     (size (hits b) ≤ 20)%nat
     ∧ (has_ships_remaining b = inr false ↔ size (hits b) = 20%nat)).
Proof.
  intros Hinit Hshots.
  assert (Hb : reachable b) by by exists fleet, b0.
  rewrite (has_ships_remaining_reachable b Hb). split; [done |].
  intros Hv. destruct (validated_board fleet true Hv) as (b0' & Hinit' & _ & H20).
  rewrite Hinit in Hinit'. injection Hinit' as <-.
  specialize (H20 eq_refl).
  apply shots_from_frame in Hshots as (_ & Hcells & _).
  rewrite <- Hcells in H20.
  pose proof (inv_hits b (reachable_inv b Hb)) as Hsub.
  pose proof (subseteq_size _ _ Hsub) as Hle.
  split; [lia |]. split.
  - intros [= Hall]. apply bool_decide_eq_false in Hall.
    apply dec_stable in Hall. by rewrite Hall.
  - intros Hsize. f_equal. apply bool_decide_eq_false. intros Hne. apply Hne.
    apply set_eq. intros x. split; [apply Hsub |]. intros Hx.
    destruct (decide (x ∈ hits b)) as [| Hout]; [done |].
    assert (size (hits b) < size (ship_cells b))%nat; [| lia].
    apply subset_size. set_solver.
Qed.

Lemma has_ships_remaining_until_all_cells_hit_witness :
  has_ships_remaining (shoot [(9, 1); (9, 0)] (board_of spaced_fleet))
  = inr (bool_decide
           (hits (shoot [(9, 1); (9, 0)] (board_of spaced_fleet))
            ≠ ship_cells (shoot [(9, 1); (9, 0)] (board_of spaced_fleet)))).
Proof.
  apply (has_ships_remaining_until_all_cells_hit spaced_fleet
           (board_of spaced_fleet)
           (shoot [(9, 1); (9, 0)] (board_of spaced_fleet))).
  - vm_compute. reflexivity.
  - eexists. reflexivity.
Defined.

(** X15.  [get_cell_state] shows a cell as ['X'] exactly when it is in
    [hits], as ['O'] exactly when it is not and is in [misses] or in
    [destroyed_zones], and as ['.'] exactly when it is in none of the
    three; and a cell that is not shown as ['.'] cannot be shot:
    [record_shot] raises on it and leaves the board as it is. *)
Theorem get_cell_state_shows_what_record_shot_refuses
    (b : GameBoard) (row col : Z) :
  (get_cell_state b row col = lit "X" ↔ (row, col) ∈ hits b)
  ∧ (get_cell_state b row col = lit "O" ↔
       ((row, col) ∉ hits b)
       ∧ ((row, col) ∈ misses b ∨ (row, col) ∈ destroyed_zones b))
  ∧ (get_cell_state b row col = lit "." ↔ ¬ already_shot b (row, col))
  ∧ (get_cell_state b row col ≠ lit "." →
     ∃ e, record_shot row col b = (b, inl e)).
Proof.
  destruct (get_cell_state_cases b row col) as (HX & HO & Hdot).
  do 3 (split; [done |]). intros Hshown.
  apply record_shot_already_shot.
  destruct (decide (already_shot b (row, col))) as [| Hfree]; [done |].
  by apply Hdot in Hfree.
Qed.

Lemma get_cell_state_shows_what_record_shot_refuses_witness :
  ∃ e, record_shot 9 1 (shoot [(9, 1); (9, 0)] (board_of spaced_fleet))
       = (shoot [(9, 1); (9, 0)] (board_of spaced_fleet), inl e).
Proof.
  apply (get_cell_state_shows_what_record_shot_refuses
           (shoot [(9, 1); (9, 0)] (board_of spaced_fleet)) 9 1).
  vm_compute. discriminate.
Defined.

(** ** Further properties of the game loop *)

Lemma stateful_bind_run {S A B} (m : stateful S A) (f : A → stateful S B) s :
  (m ≫= f) s
  = match m s with
    | (s', inl e) => (s', inl e)
    | (s', inr a) => f a s'
    end.
Proof. done. Qed.

Section follows_facts.
Context {S : Type} (R : S → S → Prop) `{!PreOrder R}.

Lemma follows_ret {A} (a : A) : follows R (mret a).
Proof. intros s. simpl. reflexivity. Qed.

Lemma follows_lift {A} (r : result A) : follows R (lift r).
Proof. intros s. simpl. reflexivity. Qed.

Lemma follows_throw {A} (e : exn) : follows R (throw (A := A) e).
Proof. intros s. simpl. reflexivity. Qed.

Lemma follows_get : follows R get.
Proof. intros s. simpl. reflexivity. Qed.

Lemma follows_bind {A B} (m : stateful S A) (f : A → stateful S B) :
  follows R m → (∀ a, follows R (f a)) → follows R (m ≫= f).
Proof.
  intros Hm Hf s. unfold mbind, stateful_bind.
  specialize (Hm s). destruct (m s) as [s1 [e | a]]; [done |].
  specialize (Hf a s1). simpl in *. by etrans.
Qed.

Lemma follows_try {A} (m : stateful S A) handler :
  follows R m → (∀ why, follows R (handler why)) →
  follows R (try_except_ValueError m handler).
Proof.
  intros Hm Hh s. unfold try_except_ValueError.
  specialize (Hm s). destruct (m s) as [s1 [[why | | | |] | a]]; try done.
  specialize (Hh why s1). simpl in *. by etrans.
Qed.

Lemma follows_while {A} fuel (body : stateful S (option A)) :
  follows R body → follows R (while_True fuel body).
Proof.
  intros Hbody. induction fuel as [| fuel IH]; simpl.
  - apply follows_throw.
  - apply follows_bind; [done |]. intros [a |]; [apply follows_ret | exact IH].
Qed.

End follows_facts.

Lemma shots_from_refl b : shots_from b b.
Proof. by exists []. Qed.

Lemma shots_from_trans b1 b2 b3 :
  shots_from b1 b2 → shots_from b2 b3 → shots_from b1 b3.
Proof.
  intros [l1 ->] [l2 ->]. exists (l1 ++ l2). unfold shoot.
  by rewrite foldl_app.
Qed.

Lemma shots_from_record_shot row col b :
  shots_from b (record_shot row col b).1.
Proof. by exists [(row, col)]. Qed.

#[local] Instance game_step_preorder : PreOrder game_step.
Proof.
  split.
  - intros w. split; try done; try apply shots_from_refl. by exists [].
  - intros w1 w2 w3 [] []. split; try congruence.
    + by eapply shots_from_trans.
    + by eapply shots_from_trans.
    + destruct step_stdin0 as [r1 ->], step_stdin1 as [r2 ->].
      exists (r1 ++ r2). by rewrite <- app_assoc.
    + destruct step_draws0, step_draws1. split; [congruence | lia].
Qed.

#[local] Instance player_side_kept_preorder : PreOrder player_side_kept.
Proof.
  split; [by intros w |].
  intros w1 w2 w3 [] []. split; congruence.
Qed.

#[local] Instance bot_side_kept_preorder : PreOrder bot_side_kept.
Proof.
  split; [by intros w |].
  intros w1 w2 w3 [] []. split; congruence.
Qed.

Section step_facts.
Context {ucd : UnicodeData}.

Lemma input_step : follows game_step input ∧ follows player_side_kept input.
Proof.
  split; intros w; unfold input; destruct (stdin w) as [| line rest] eqn:Hin;
    simpl; try reflexivity; [| by split].
  split; simpl; try done; try apply shots_from_refl. by exists [line].
Qed.

Lemma randint_draws a b g :
  draws (randint a b g).1 = draws g ∧ (next g ≤ next (randint a b g).1)%nat.
Proof.
  unfold randint. destruct (b <? a); simpl; [done |]. split; [done | lia].
Qed.

Lemma randint_range a b g x :
  (randint a b g).2 = inr x → a ≤ x ≤ b.
Proof.
  unfold randint. destruct (b <? a) eqn:Hab; simpl; [done |].
  intros [= <-]. apply Z.ltb_ge in Hab.
  pose proof (Z.mod_pos_bound (Z.of_N (draws g (next g))) (b - a + 1)). lia.
Qed.

Lemma randint_returns a b g :
  a ≤ b → ∃ x, (randint a b g).2 = inr x ∧ a ≤ x ≤ b.
Proof.
  intros Hab. destruct ((randint a b g).2) as [e | x] eqn:Hr.
  - unfold randint in Hr. rewrite (proj2 (Z.ltb_ge b a)) in Hr by lia. done.
  - exists x. split; [done |]. by apply (randint_range a b g).
Qed.

Lemma randint_step a b :
  follows game_step (on_random (randint a b))
  ∧ follows bot_side_kept (on_random (randint a b)).
Proof.
  split; intros w; unfold on_random;
    pose proof (randint_draws a b (rnd w)) as Hd;
    destruct (randint a b (rnd w)) as [g r]; simpl in *; [| done].
  split; simpl; try done; try apply shots_from_refl. by exists [].
Qed.

Lemma bot_board_shot_step row col :
  follows game_step (on_bot_board (record_shot row col))
  ∧ follows player_side_kept (on_bot_board (record_shot row col)).
Proof.
  split; intros w; unfold on_bot_board;
    pose proof (shots_from_record_shot row col (bot_board (game_state w)));
    destruct (record_shot row col _) as [b r]; simpl in *; [| done].
  split; simpl; try done; try apply shots_from_refl. by exists [].
Qed.

Lemma player_board_shot_step row col :
  follows game_step (on_player_board (record_shot row col))
  ∧ follows bot_side_kept (on_player_board (record_shot row col)).
Proof.
  split; intros w; unfold on_player_board;
    pose proof (shots_from_record_shot row col (player_board (game_state w)));
    destruct (record_shot row col _) as [b r]; simpl in *; [| done].
  split; simpl; try done; try apply shots_from_refl. by exists [].
Qed.

Lemma get_player_move_step fuel :
  follows game_step (get_player_move fuel)
  ∧ follows player_side_kept (get_player_move fuel).
Proof.
  split; apply follows_while; try apply _;
    (apply follows_try; [apply _ | | intros; apply follows_ret; apply _]);
    (apply follows_bind; [apply _ | apply input_step |]); intros line;
    (apply follows_bind; [apply _ | apply follows_lift; apply _ |]);
    intros [row col]; apply follows_ret; apply _.
Qed.

Lemma player_turn_step fuel :
  follows game_step (player_turn fuel)
  ∧ follows player_side_kept (player_turn fuel).
Proof.
  split; apply follows_while; try apply _;
    (apply follows_try; [apply _ | | intros; apply follows_ret; apply _]);
    (apply follows_bind; [apply _ | apply get_player_move_step |]);
    intros [row col];
    (apply follows_bind; [apply _ | apply bot_board_shot_step |]); intros hit;
    (apply follows_bind; [apply _ | apply follows_lift; apply _ |]);
    intros text; apply follows_ret; apply _.
Qed.

Lemma bot_turn_step fuel :
  follows game_step (bot_turn fuel) ∧ follows bot_side_kept (bot_turn fuel).
Proof.
  split; apply follows_while; try apply _;
    (apply follows_bind; [apply _ | apply randint_step |]); intros row;
    (apply follows_bind; [apply _ | apply randint_step |]); intros col;
    (apply follows_try; [apply _ | | intros; apply follows_ret; apply _]);
    (apply follows_bind; [apply _ | apply player_board_shot_step |]);
    intros hit;
    (apply follows_bind; [apply _ | apply follows_lift; apply _ |]);
    intros text; apply follows_ret; apply _.
Qed.

End step_facts.

Section round_facts.
Context {ucd : UnicodeData}.

(** [round], case by case. *)
Lemma round_unfold fuel w :
  round fuel w =
    match player_turn fuel (next_turn w) with
    | (w2, inl e) => (w2, inl e)
    | (w2, inr (player_move_str, player_hit)) =>
        match has_ships_remaining (bot_board (game_state w2)) with
        | inl e => (w2, inl e)
        | inr false =>
            (saved (logged player_move_str player_hit empty_text false w2),
             inr (Some (lit "player")))
        | inr true =>
            match bot_turn fuel w2 with
            | (w4, inl e) => (w4, inl e)
            | (w4, inr (bot_move_str, bot_hit)) =>
                match has_ships_remaining (player_board (game_state w4)) with
                | inl e => (w4, inl e)
                | inr false =>
                    (saved (logged player_move_str player_hit
                              bot_move_str bot_hit w4),
                     inr (Some (lit "bot")))
                | inr true =>
                    (logged player_move_str player_hit bot_move_str bot_hit w4,
                     inr None)
                end
            end
        end
    end.
Proof.
  unfold round, mbind, stateful_bind, modify, get, lift, save_to_csv,
    mret, stateful_ret. fold (next_turn w).
  destruct (player_turn fuel (next_turn w)) as [w2 [e | [pm ph]]]; [done |].
  simpl.
  destruct (has_ships_remaining (bot_board (game_state w2)))
    as [e | [|]]; simpl; try done.
  destruct (bot_turn fuel w2) as [w4 [e | [bm bh]]]; [done |]. simpl.
  by destruct (has_ships_remaining (player_board (game_state w4)))
    as [e | [|]].
Qed.

Lemma numbered_snoc log m :
  numbered log → turn_no m = len log + 1 → numbered (log ++ [m]).
Proof.
  unfold numbered, len. intros Hlog Hm.
  rewrite map_app, length_app, Hlog. simpl.
  rewrite Nat.add_1_r, seq_S, map_app. simpl. f_equal. f_equal. lia.
Qed.

Lemma round_bookkeeping fuel w :
  between_rounds w →
  numbered (move_history (game_state (round fuel w).1))
  ∧ match (round fuel w).2 with
    | inr None => between_rounds (round fuel w).1
    | inr (Some _) =>
        game_state_csv (round fuel w).1
          = Some (move_history (game_state (round fuel w).1))
        ∧ turn (game_state (round fuel w).1)
          = len (move_history (game_state (round fuel w).1))
        ∧ turn (game_state (round fuel w).1) = turn (game_state w) + 1
    | inl _ =>
        game_state_csv (round fuel w).1 = None
        ∧ move_history (game_state (round fuel w).1)
          = move_history (game_state w)
        ∧ turn (game_state (round fuel w).1) = turn (game_state w) + 1
    end.
Proof.
  intros (Hnum & Hturn & Hcsv). rewrite round_unfold.
  destruct (proj1 (player_turn_step fuel) (next_turn w)) as [_ _ Ht1 Hl1 Hc1 _ _].
  destruct (player_turn fuel (next_turn w)) as [w2 [e | [pm ph]]];
    simpl in *.
  { rewrite Hl1, Hc1, Ht1. done. }
  destruct (has_ships_remaining (bot_board (game_state w2))) as [e | [|]];
    simpl.
  - rewrite Hl1, Hc1, Ht1. done.
  - destruct (proj1 (bot_turn_step fuel) w2) as [_ _ Ht2 Hl2 Hc2 _ _].
    destruct (bot_turn fuel w2) as [w4 [e | [bm bh]]]; simpl in *.
    { rewrite Hl2, Hc2, Ht2, Hl1, Hc1, Ht1. done. }
    assert (Hrow : numbered (move_history (game_state w4) ++
              [ {| turn_no := turn (game_state w4); player_move := pm;
                   player_hit := hit_text ph; bot_move := bm;
                   bot_hit := hit_text bh |} ])).
    { rewrite Hl2, Hl1. apply numbered_snoc; [done |]. simpl. lia. }
    destruct (has_ships_remaining (player_board (game_state w4)))
      as [e | [|]]; simpl.
    + rewrite Hl2, Hc2, Ht2, Hl1, Hc1, Ht1. done.
    + split; [done |]. split; [done |]. simpl.
      split; [| by rewrite Hc2, Hc1].
      unfold len. rewrite length_app, Hl2, Hl1. simpl. unfold len in Hturn. lia.
    + split; [done |]. split; [done |]. split; [| lia].
      unfold len. rewrite length_app, Hl2, Hl1. simpl. unfold len in Hturn. lia.
  - assert (Hrow : numbered (move_history (game_state w2) ++
              [ {| turn_no := turn (game_state w2); player_move := pm;
                   player_hit := hit_text ph; bot_move := empty_text;
                   bot_hit := hit_text false |} ])).
    { rewrite Hl1. apply numbered_snoc; [done |]. simpl. lia. }
    split; [done |]. split; [done |]. split; [| lia].
    unfold len. rewrite length_app, Hl1. simpl. unfold len in Hturn. lia.
Qed.

Lemma play_rounds_bookkeeping fuel fuel' w :
  between_rounds w →
  numbered (move_history (game_state (while_True fuel' (round fuel) w).1))
  ∧ match (while_True fuel' (round fuel) w).2 with
    | inr _ =>
        game_state_csv (while_True fuel' (round fuel) w).1
          = Some (move_history
                    (game_state (while_True fuel' (round fuel) w).1))
        ∧ turn (game_state (while_True fuel' (round fuel) w).1)
          = len (move_history
                   (game_state (while_True fuel' (round fuel) w).1))
        ∧ move_history (game_state (while_True fuel' (round fuel) w).1) ≠ []
    | inl OutOfFuel =>
        game_state_csv (while_True fuel' (round fuel) w).1 = None
    | inl _ =>
        game_state_csv (while_True fuel' (round fuel) w).1 = None
        ∧ turn (game_state (while_True fuel' (round fuel) w).1)
          = len (move_history
                   (game_state (while_True fuel' (round fuel) w).1)) + 1
    end.
Proof.
  revert w. induction fuel' as [| fuel' IH]; intros w Hw; cbn [while_True].
  { unfold throw. simpl. by destruct Hw as (? & ? & ?). }
  unfold mbind, stateful_bind.
  pose proof (round_bookkeeping fuel w Hw) as [Hnum Hcase].
  destruct (round fuel w) as [w1 [e | [winner |]]]; simpl in *.
  - split; [done |]. destruct Hcase as (Hc & Hl & Ht).
    destruct Hw as (_ & Hturn & _).
    destruct e; try done; split; try done; rewrite Ht, Hl; lia.
  - split; [done |]. destruct Hcase as (Hc & Hl & Ht).
    split; [done |]. split; [done |].
    intros Hnil. rewrite Hnil in Hl. unfold len in Hl. simpl in Hl.
    destruct Hw as (_ & Hturn & _). unfold len in Hturn. lia.
  - by apply IH.
Qed.

End round_facts.

Section hoare_facts.
Context {S : Type}.
Implicit Types (P : S → Prop) (E : S → exn → Prop).

Lemma hoare_ret {A} P (a : A) (Q : S → A → Prop) E :
  (∀ s, P s → Q s a) → hoare P (mret a) Q E.
Proof. intros H s Hs. by apply H. Qed.

Lemma hoare_lift {A} P (r : result A) (Q : S → A → Prop) E :
  (∀ s, P s → match r with inr a => Q s a | inl e => E s e end) →
  hoare P (lift r) Q E.
Proof. intros H s Hs. by apply H. Qed.

Lemma hoare_bind {A B} P (m : stateful S A) (f : A → stateful S B)
    (Qm : S → A → Prop) (Q : S → B → Prop) E :
  hoare P m Qm E → (∀ a, hoare (λ s, Qm s a) (f a) Q E) →
  hoare P (m ≫= f) Q E.
Proof.
  intros Hm Hf s Hs. specialize (Hm s Hs). unfold mbind, stateful_bind.
  destruct (m s) as [s1 [e | a]]; simpl in *; [done |].
  by apply (Hf a s1).
Qed.

Lemma hoare_try {A} P (m : stateful S A) handler (Q : S → A → Prop) E
    (H : S → value_error → Prop) :
  hoare P m Q
    (λ s e, match e with ValueError why => H s why | _ => E s e end) →
  (∀ why, hoare (λ s, H s why) (handler why) Q E) →
  hoare P (try_except_ValueError m handler) Q E.
Proof.
  intros Hm Hh s Hs. specialize (Hm s Hs). unfold try_except_ValueError.
  destruct (m s) as [s1 [[why | | | |] | a]]; simpl in *; try done.
  by apply (Hh why s1).
Qed.

Lemma hoare_while {A} (I : S → Prop) fuel (body : stateful S (option A))
    (Q : S → A → Prop) E :
  hoare I body
    (λ s r, match r with Some a => Q s a | None => I s end) E →
  (∀ s, I s → E s OutOfFuel) →
  hoare I (while_True fuel body) Q E.
Proof.
  intros Hbody Hfuel. induction fuel as [| fuel IH]; cbn [while_True].
  - intros s Hs. by apply Hfuel.
  - eapply hoare_bind; [exact Hbody |]. intros [a |]; [| exact IH].
    by apply hoare_ret.
Qed.

Lemma hoare_weaken {A} P P' (m : stateful S A) (Q Q' : S → A → Prop) E E' :
  hoare P' m Q' E' → (∀ s, P s → P' s) → (∀ s a, Q' s a → Q s a) →
  (∀ s e, E' s e → E s e) → hoare P m Q E.
Proof.
  intros Hm HP HQ HE s Hs. specialize (Hm s (HP s Hs)).
  destruct (m s).2; [by apply HE | by apply HQ].
Qed.

End hoare_facts.

Section game_triples.
Context {ucd : UnicodeData}.

Lemma hoare_pure {S A} (P : S → Prop) (φ : Prop) (m : stateful S A)
    (Q : S → A → Prop) E :
  (φ → hoare P m Q E) → hoare (λ s, P s ∧ φ) m Q E.
Proof. intros H s [Hs Hφ]. by apply H. Qed.

Lemma board_inv_shots_from b b' : board_inv b → shots_from b b' → board_inv b'.
Proof.
  intros Hb. revert b'. apply shots_from_ind; [done |].
  intros b' row col _. apply record_shot_inv.
Qed.

Lemma shot_logged_shots_from b b' coord hit :
  shot_logged b coord hit → shots_from b b' → shot_logged b' coord hit.
Proof.
  intros (Hvalid & row & col & was_hit & Hparse & Hhit & Hin) Hshots.
  apply shots_from_frame in Hshots as (_ & _ & Hh & Hm & _).
  split; [done |]. exists row, col, was_hit.
  split; [done |]. split; [done |]. destruct was_hit; set_solver.
Qed.

Lemma game_inv_step w w' : game_inv w → game_step w w' → game_inv w'.
Proof.
  intros (Hp & Hb & Hlog) [Hsp Hsb _ Hl _ _ _].
  split; [exact (board_inv_shots_from _ _ Hp Hsp) |].
  split; [exact (board_inv_shots_from _ _ Hb Hsb) |].
  rewrite Hl. eapply Forall_impl; [exact Hlog |].
  intros m [Hpm Hbm]. split.
  - exact (shot_logged_shots_from _ _ _ _ Hpm Hsb).
  - destruct Hbm as [Hbm | Hbm]; [left | by right].
    exact (shot_logged_shots_from _ _ _ _ Hbm Hsp).
Qed.

Lemma input_spec :
  hoare game_inv input (λ s _, game_inv s)
    (λ s e, e = EOFError ∧ stdin s = []).
Proof.
  intros w Hw. unfold input. destruct (stdin w) as [| line rest] eqn:Hin; simpl.
  - done.
  - exact Hw.
Qed.

Lemma get_player_move_spec fuel :
  hoare game_inv (get_player_move fuel)
    (λ s c, game_inv s ∧ (0 ≤ c.1 ≤ 9 ∧ 0 ≤ c.2 ≤ 9)) stopped.
Proof.
  apply hoare_while; [| by right].
  apply (hoare_try _ _ _ _ _ (λ s _, game_inv s));
    [| intros why; by apply hoare_ret].
  eapply hoare_bind.
  { eapply hoare_weaken; [apply input_spec | done | done |].
    intros s e [-> Hs]. by left. }
  intros line. simpl.
  destruct (parse_coordinates (upper (strip line))) as [e | [row col]] eqn:Hp.
  - destruct (parse_coordinates_raises_ValueError _ _ Hp) as [why ->].
    intros s Hs. exact Hs.
  - intros s Hs. split; [done |]. simpl.
    apply parse_coordinates_inr
      in Hp as (letter & suffix & n & _ & Hletter & _ & Hn & [= -> ->]).
    lia.
Qed.

Lemma record_shot_in_range row col b :
  board_inv b → 0 ≤ row ≤ 9 → 0 ≤ col ≤ 9 →
  match (record_shot row col b).2 with
  | inr hit =>
      (row, col)
        ∈ (if hit then hits (record_shot row col b).1
           else misses (record_shot row col b).1)
  | inl e => ∃ why, e = ValueError why
  end.
Proof.
  intros Hinv Hrow Hcol.
  destruct (decide (already_shot b (row, col))) as [Hshot | Hfree].
  - unfold record_shot, mbind, stateful_bind, get, lift, throw.
    rewrite decide_True by exact Hshot.
    destruct (format_then_parse (ucd := ucd) row col Hrow Hcol) as (-> & _).
    simpl. eauto.
  - destruct (record_shot_fresh row col b Hinv Hfree) as (b' & -> & Hsets).
    simpl. case_bool_decide; set_solver.
Qed.

Lemma shot_logged_intro b row col (hit : bool) :
  0 ≤ row ≤ 9 → 0 ≤ col ≤ 9 →
  (row, col) ∈ (if hit then hits b else misses b) →
  ∃ text, format_coordinates row col = inr text
    ∧ shot_logged b text (hit_text hit).
Proof.
  intros Hrow Hcol Hin.
  destruct (format_then_parse row col Hrow Hcol) as (Hf & Hp & _).
  eexists. split; [exact Hf |]. split.
  - eexists _, _. split; [reflexivity |]. lia.
  - by exists row, col, hit.
Qed.

Lemma player_turn_spec fuel :
  hoare game_inv (player_turn fuel)
    (λ s r, game_inv s
            ∧ shot_logged (bot_board (game_state s)) r.1 (hit_text r.2))
    stopped.
Proof.
  apply hoare_while; [| by right].
  apply (hoare_try _ _ _ _ _ (λ s _, game_inv s));
    [| intros why; by apply hoare_ret].
  eapply hoare_bind.
  { eapply hoare_weaken; [apply get_player_move_spec | done | done |].
    intros s e He. by destruct e; try done; destruct He as [[? ?] | ?]. }
  intros [row col]. apply hoare_pure. simpl. intros [Hrow Hcol].
  intros w Hw. unfold mbind, stateful_bind.
  pose proof (proj1 (bot_board_shot_step row col) w) as Hstep.
  pose proof (game_inv_step _ _ Hw Hstep) as Hw1.
  unfold on_bot_board in *.
  pose proof (record_shot_in_range row col (bot_board (game_state w))
                (proj1 (proj2 Hw)) Hrow Hcol) as Hshot.
  destruct (record_shot row col (bot_board (game_state w)))
    as [b [e | hit]]; simpl in *.
  - by destruct Hshot as [why ->].
  - destruct (shot_logged_intro b row col hit Hrow Hcol Hshot)
      as (text & -> & Hlogged). simpl. done.
Qed.

Lemma randint_0_9_spec :
  hoare game_inv (on_random (randint 0 (BOARD_SIZE - 1)))
    (λ s x, game_inv s ∧ 0 ≤ x ≤ 9) (λ _ _, False).
Proof.
  intros w Hw. unfold on_random.
  pose proof (randint_range 0 (BOARD_SIZE - 1) (rnd w)) as Hrange.
  destruct (randint 0 (BOARD_SIZE - 1) (rnd w)) as [g [e | x]] eqn:Hr;
    simpl in *.
  - unfold randint in Hr. simpl in Hr. done.
  - split; [exact Hw |]. unfold BOARD_SIZE in Hrange. by apply Hrange.
Qed.

Lemma bot_turn_spec fuel :
  hoare game_inv (bot_turn fuel)
    (λ s r, game_inv s
            ∧ shot_logged (player_board (game_state s)) r.1 (hit_text r.2))
    (λ _ e, e = OutOfFuel).
Proof.
  apply hoare_while; [| done].
  eapply hoare_bind.
  { eapply hoare_weaken; [apply randint_0_9_spec | done | done | done]. }
  intros row. apply hoare_pure. intros Hrow.
  eapply hoare_bind.
  { eapply hoare_weaken; [apply randint_0_9_spec | done | done | done]. }
  intros col. apply hoare_pure. intros Hcol.
  apply (hoare_try _ _ _ _ _ (λ s _, game_inv s));
    [| intros why; by apply hoare_ret].
  intros w Hw. unfold mbind, stateful_bind.
  pose proof (proj1 (player_board_shot_step row col) w) as Hstep.
  pose proof (game_inv_step _ _ Hw Hstep) as Hw1.
  unfold on_player_board in *.
  pose proof (record_shot_in_range row col (player_board (game_state w))
                (proj1 Hw) Hrow Hcol) as Hshot.
  destruct (record_shot row col (player_board (game_state w)))
    as [b [e | hit]]; simpl in *.
  - by destruct Hshot as [why ->].
  - destruct (shot_logged_intro b row col hit Hrow Hcol Hshot)
      as (text & -> & Hlogged). simpl. done.
Qed.

End game_triples.

Section game_specs.
Context {ucd : UnicodeData}.

#[local] Instance game_progress_preorder : PreOrder game_progress.
Proof.
  split.
  - intros w. split; try done; try apply shots_from_refl. by exists [].
  - intros w1 w2 w3 [] []. split.
    + by eapply shots_from_trans.
    + by eapply shots_from_trans.
    + destruct progress_stdin0 as [r1 ->], progress_stdin1 as [r2 ->].
      exists (r1 ++ r2). by rewrite <- app_assoc.
    + destruct progress_draws0, progress_draws1. split; [congruence | lia].
Qed.

Lemma game_step_progress w w' : game_step w w' → game_progress w w'.
Proof. intros []. by split. Qed.

Lemma round_progress fuel : follows game_progress (round fuel).
Proof.
  intros w. rewrite round_unfold.
  pose proof (proj1 (player_turn_step fuel) (next_turn w)) as H1.
  apply game_step_progress in H1.
  assert (H0 : game_progress w (next_turn w)).
  { split; simpl; try apply shots_from_refl; try done. by exists []. }
  destruct (player_turn fuel (next_turn w)) as [w2 [e | [pm ph]]];
    simpl in *; [by etrans |].
  assert (H2 : game_progress w w2) by by etrans.
  destruct (has_ships_remaining (bot_board (game_state w2))) as [e | [|]];
    simpl; [done | | by destruct H2].
  pose proof (proj1 (bot_turn_step fuel) w2) as H3.
  apply game_step_progress in H3.
  destruct (bot_turn fuel w2) as [w4 [e | [bm bh]]]; simpl in *; [by etrans |].
  assert (H4 : game_progress w w4) by by etrans.
  destruct (has_ships_remaining (player_board (game_state w4)))
    as [e | [|]]; simpl; by destruct H4.
Qed.

Lemma game_inv_boards w w' :
  player_board (game_state w') = player_board (game_state w) →
  bot_board (game_state w') = bot_board (game_state w) →
  move_history (game_state w') = move_history (game_state w) →
  game_inv w → game_inv w'.
Proof.
  intros Hp Hb Hl (Ip & Ib & Ilog). unfold game_inv, row_faithful.
  rewrite Hp, Hb, Hl. done.
Qed.

Lemma game_inv_logged w pm ph bm bh (and_saved : bool) :
  game_inv w →
  shot_logged (bot_board (game_state w)) pm (hit_text ph) →
  (shot_logged (player_board (game_state w)) bm (hit_text bh)
   ∨ (bm = empty_text ∧ hit_text bh = lit "miss")) →
  game_inv (if and_saved then saved (logged pm ph bm bh w)
            else logged pm ph bm bh w).
Proof.
  intros (Ip & Ib & Ilog) Hpm Hbm.
  assert (game_inv (logged pm ph bm bh w)); [| by destruct and_saved].
  split; [done |]. split; [done |]. simpl.
  apply Forall_app. split; [done |]. apply Forall_singleton. by split.
Qed.

Lemma round_spec_inv fuel :
  hoare game_inv (round fuel)
    (λ s r, game_inv s
            ∧ match r with Some winner => winner_ok s winner | None => True end)
    stopped.
Proof.
  intros w Hw. rewrite round_unfold.
  assert (Hnext : game_inv (next_turn w)) by by apply (game_inv_boards w).
  pose proof (player_turn_spec fuel (next_turn w) Hnext) as H1.
  destruct (player_turn fuel (next_turn w)) as [w2 [e | [pm ph]]];
    simpl in *; [done |].
  destruct H1 as [Hw2 Hpm].
  assert (Hreturns : ∀ b, board_inv b → ∃ v, has_ships_remaining b = inr v).
  { intros b Hb.
    destruct (has_ships_remaining_loop_inr b (ships b) (inv_straight b Hb))
      as (v & Hv & _). by exists v. }
  destruct (Hreturns (bot_board (game_state w2))) as [bot_alive Hbot];
    [apply Hw2 |].
  rewrite Hbot. destruct bot_alive; simpl.
  - pose proof (bot_turn_spec fuel w2 Hw2) as H2.
    pose proof (proj2 (bot_turn_step fuel) w2) as [Hsame _].
    destruct (bot_turn fuel w2) as [w4 [e | [bm bh]]]; simpl in *;
      [by right |].
    destruct H2 as [Hw4 Hbm]. rewrite <- Hsame in Hpm, Hbot.
    destruct (Hreturns (player_board (game_state w4)))
      as [player_alive Hplayer]; [apply Hw4 |].
    rewrite Hplayer. destruct player_alive; simpl.
    + split; [| done].
      apply (game_inv_logged w4 pm ph bm bh false); [done | done | by left].
    + split.
      * apply (game_inv_logged w4 pm ph bm bh true); [done | done | by left].
      * right. done.
  - split.
    + apply (game_inv_logged w2 pm ph empty_text false true);
        [done | done | by right].
    + left. done.
Qed.

Lemma play_rounds_spec_inv fuel fuel' :
  hoare game_inv (while_True fuel' (round fuel))
    (λ s winner, game_inv s ∧ winner_ok s winner) stopped.
Proof.
  apply hoare_while; [| by right].
  eapply hoare_weaken; [apply round_spec_inv | done | | done].
  intros s [winner |] [? ?]; done.
Qed.

Lemma play_rounds_progress fuel fuel' :
  follows game_progress (while_True fuel' (round fuel)).
Proof. apply follows_while; [apply _ | apply round_progress]. Qed.

End game_specs.

Section turn_facts.
Context {ucd : UnicodeData}.

Lemma get_player_move_run fuel w :
  ∃ skipped,
    Forall passed_over skipped
    ∧ match get_player_move fuel w with
      | (w', inr c) =>
          ∃ line rest,
            stdin w = skipped ++ line :: rest
            ∧ parse_coordinates (upper (strip line)) = inr c
            ∧ w' = read_up_to rest w
      | (w', inl e) =>
          ∃ rest,
            stdin w = skipped ++ rest ∧ w' = read_up_to rest w
            ∧ ((e = EOFError ∧ rest = [])
               ∨ (e = OutOfFuel ∧ length skipped = fuel))
      end.
Proof.
  revert w. induction fuel as [| fuel IH]; intros w.
  { exists []. split; [constructor |]. simpl. exists (stdin w).
    split; [done |]. split; [by destruct w |]. by right. }
  unfold get_player_move in *. cbn [while_True].
  rewrite stateful_bind_run. unfold try_except_ValueError at 1.
  rewrite stateful_bind_run. unfold input at 1.
  destruct (stdin w) as [| line rest] eqn:Hin.
  { exists []. split; [constructor |]. simpl. exists [].
    split; [done |]. split; [destruct w; simpl in *; by subst |]. by left. }
  cbn [Ok]. rewrite stateful_bind_run. unfold lift at 1.
  destruct (parse_coordinates (upper (strip line))) as [e | [row col]] eqn:Hp.
  - destruct (parse_coordinates_raises_ValueError _ _ Hp) as [why ->].
    cbn [mret stateful_ret].
    match goal with
    | |- context [while_True fuel ?body ?w1] =>
        destruct (IH w1) as (skipped & Hskipped & Hrun);
        destruct (while_True fuel body w1) as [w' [e | c]]
    end.
    + exists (line :: skipped). split; [constructor; [by exists why | done] |].
      destruct Hrun as (rest' & Hrest & -> & Hwhy). simpl in Hrest.
      exists rest'. split; [by rewrite Hrest |]. split; [done |].
      destruct Hwhy as [? | [? <-]]; [by left | by right].
    + exists (line :: skipped). split; [constructor; [by exists why | done] |].
      destruct Hrun as (line' & rest' & Hrest & Hc & ->). simpl in Hrest.
      exists line', rest'. by rewrite Hrest.
  - exists []. split; [constructor |]. simpl. by exists line, rest.
Qed.

Lemma record_shot_outcome row col b :
  board_inv b → 0 ≤ row ≤ 9 → 0 ≤ col ≤ 9 →
  (already_shot b (row, col)
   ∧ ∃ why, record_shot row col b = (b, inl (ValueError why)))
  ∨ (¬ already_shot b (row, col)
     ∧ ∃ b' hit, record_shot row col b = (b', inr hit)).
Proof.
  intros Hinv Hrow Hcol.
  destruct (decide (already_shot b (row, col))) as [Hshot | Hfree].
  - left. split; [done |].
    pose proof (record_shot_in_range row col b Hinv Hrow Hcol) as Hrange.
    destruct (record_shot_already_shot row col b Hshot) as [e He].
    rewrite He in Hrange. simpl in Hrange. destruct Hrange as [why ->]. eauto.
  - right. split; [done |].
    destruct (record_shot_fresh row col b Hinv Hfree) as (b' & Hb' & _). eauto.
Qed.

Lemma same_game_state (gs : GameState) :
  {| player_board := player_board gs; bot_board := bot_board gs;
     turn := turn gs; move_history := move_history gs |} = gs.
Proof. by destruct gs. Qed.

Lemma in_bounds_range row col :
  in_bounds (row, col) = true ↔ 0 ≤ row ≤ 9 ∧ 0 ≤ col ≤ 9.
Proof.
  unfold in_bounds, BOARD_SIZE. simpl.
  rewrite !andb_true_iff, !Z.leb_le, !Z.ltb_lt. lia.
Qed.

(** A turn of the player reads lines up to the first that names a cell
    not shot yet, and shoots there; [n] is the number of rounds left to
    the loop of the turn, [fuel] the number left to each call of
    [get_player_move]. *)
Lemma player_turn_reads fuel n w :
  board_inv (bot_board (game_state w)) →
  ∃ read,
    Forall (wasted (bot_board (game_state w))) read
    ∧ match
        while_True n
          (try_except_ValueError
             ('(row, col) ← get_player_move fuel;
              player_hit ← on_bot_board (record_shot row col);
              player_move_str ← lift (format_coordinates row col);
              mret (Some (player_move_str, player_hit)))
             (fun _ => mret None)) w
      with
      | (w', inr (text, hit)) =>
          ∃ line row col,
            stdin w = read ++ line :: stdin w'
            ∧ parse_coordinates (upper (strip line)) = inr (row, col)
            ∧ in_bounds (row, col) = true
            ∧ format_coordinates row col = inr text
            ∧ ¬ already_shot (bot_board (game_state w)) (row, col)
            ∧ record_shot row col (bot_board (game_state w))
              = (bot_board (game_state w'), inr hit)
      | (w', inl e) =>
          stdin w = read ++ stdin w'
          ∧ game_state w' = game_state w
          ∧ ((e = EOFError ∧ stdin w' = [])
             ∨ (e = OutOfFuel ∧ (Nat.min n fuel ≤ length read)%nat))
      end.
Proof.
  revert w. induction n as [| n IH]; intros w Hinv.
  { exists []. split; [constructor |]. simpl. split; [done |].
    split; [done |]. right. split; [done | lia]. }
  cbn [while_True]. rewrite stateful_bind_run.
  unfold try_except_ValueError at 1. rewrite stateful_bind_run.
  destruct (get_player_move_run fuel w) as (skipped & Hskipped & Hmove).
  assert (Hwaste : Forall (wasted (bot_board (game_state w))) skipped).
  { eapply Forall_impl; [exact Hskipped |]. intros line Hline. by left. }
  destruct (get_player_move fuel w) as [w1 [e | [row col]]].
  { destruct Hmove as (rest & Hin & -> & [[-> ->] | [-> Hlen]]);
      cbn [stdin read_up_to game_state].
    - exists skipped. split; [done |]. split; [done |]. split; [done |].
      by left.
    - exists skipped. split; [done |]. split; [done |]. split; [done |].
      right. split; [done | lia]. }
  destruct Hmove as (line & rest & Hin & Hp & ->).
  apply parse_coordinates_in_bounds in Hp as Hb.
  apply in_bounds_range in Hb as Hrange. destruct Hrange as [Hrow Hcol].
  rewrite stateful_bind_run. unfold on_bot_board at 1.
  cbn [game_state read_up_to].
  destruct (record_shot_outcome row col _ Hinv Hrow Hcol)
    as [[Hshot [why ->]] | [Hfree (b' & hit & Hshot)]].
  - cbn [mret stateful_ret].
    rewrite same_game_state.
    destruct (IH (set_game_state (λ _, game_state w) (read_up_to rest w))
                Hinv) as (read & Hread & Hrun).
    exists (skipped ++ line :: read). split.
    { apply Forall_app. split; [done |]. constructor; [| done].
      right. by exists (row, col). }
    match goal with
    | |- context [while_True n ?body ?w1] =>
        destruct (while_True n body w1) as [w' [e | [text hit]]]
    end; cbn [stdin game_state set_game_state read_up_to] in Hrun.
    + destruct Hrun as (Hin' & Hgs & Hwhy).
      split; [by rewrite Hin, Hin', <- app_assoc |]. split; [done |].
      destruct Hwhy as [? | [-> Hlen]]; [by left | right].
      split; [done |]. rewrite length_app. cbn [length]. lia.
    + destruct Hrun as (line' & row' & col' & Hin' & Hrest).
      exists line', row', col'. split; [| done].
      by rewrite Hin, Hin', <- app_assoc.
  - rewrite Hshot, stateful_bind_run. unfold lift at 1.
    destruct (format_then_parse row col Hrow Hcol) as (Hf & _ & _).
    rewrite Hf. cbn [mret stateful_ret]. exists skipped. split; [done |].
    exists line, row, col. done.
Qed.

(** The two calls of [random.randint(0, BOARD_SIZE - 1)] that open a
    round of the bot's turn. *)
Lemma randint_board g :
  randint 0 (BOARD_SIZE - 1) g
  = ({| draws := draws g; next := S (next g) |},
     inr (Z.of_N (draws g (next g)) mod BOARD_SIZE)).
Proof. unfold randint, BOARD_SIZE. simpl. done. Qed.

Lemma drawn_cell_in_bounds g i : in_bounds (drawn_cell g i) = true.
Proof.
  apply in_bounds_range. unfold drawn_cell, BOARD_SIZE.
  pose proof (Z.mod_pos_bound (Z.of_N (draws g (next g + 2 * i)%nat)) 10).
  pose proof (Z.mod_pos_bound (Z.of_N (draws g (next g + 2 * i + 1)%nat)) 10).
  lia.
Qed.

Lemma drawn_cell_next g i :
  drawn_cell {| draws := draws g; next := S (S (next g)) |} i
  = drawn_cell g (S i).
Proof.
  unfold drawn_cell. cbn [draws next].
  by replace (S (S (next g)) + 2 * i)%nat with (next g + 2 * S i)%nat by lia.
Qed.

(** A turn of the bot draws cells up to the first not shot yet, and
    shoots there. *)
Lemma bot_turn_draws fuel w :
  board_inv (player_board (game_state w)) →
  ∃ k,
    (∀ i, (i < k)%nat →
       already_shot (player_board (game_state w)) (drawn_cell (rnd w) i))
    ∧ match bot_turn fuel w with
      | (w', inr (text, hit)) =>
          (k < fuel)%nat
          ∧ next (rnd w') = (next (rnd w) + 2 * (k + 1))%nat
          ∧ format_coordinates (drawn_cell (rnd w) k).1 (drawn_cell (rnd w) k).2
            = inr text
          ∧ ¬ already_shot (player_board (game_state w)) (drawn_cell (rnd w) k)
          ∧ record_shot (drawn_cell (rnd w) k).1 (drawn_cell (rnd w) k).2
              (player_board (game_state w))
            = (player_board (game_state w'), inr hit)
      | (w', inl e) =>
          e = OutOfFuel ∧ k = fuel
          ∧ next (rnd w') = (next (rnd w) + 2 * fuel)%nat
          ∧ game_state w' = game_state w
      end.
Proof.
  unfold bot_turn. revert w. induction fuel as [| n IH]; intros w Hinv.
  { exists 0%nat. simpl. split; [lia |]. split; [done |].
    split; [done |]. split; [lia | done]. }
  cbn [while_True]. rewrite stateful_bind_run.
  rewrite stateful_bind_run. unfold on_random at 1.
  rewrite randint_board. rewrite stateful_bind_run. unfold on_random at 1.
  cbn [rnd]. rewrite randint_board. cbn [draws next].
  assert (Hcell : drawn_cell (rnd w) 0
            = (Z.of_N (draws (rnd w) (next (rnd w))) mod BOARD_SIZE,
               Z.of_N (draws (rnd w) (S (next (rnd w)))) mod BOARD_SIZE)).
  { unfold drawn_cell. by rewrite Nat.add_0_r, Nat.add_1_r. }
  pose proof (drawn_cell_in_bounds (rnd w) 0) as Hb. rewrite Hcell in Hb.
  apply in_bounds_range in Hb as [Hrow Hcol].
  unfold try_except_ValueError at 1. rewrite stateful_bind_run.
  unfold on_player_board at 1. cbn [game_state].
  destruct (record_shot_outcome _ _ _ Hinv Hrow Hcol)
    as [[Hshot [why ->]] | [Hfree (b' & hit & Hshot)]].
  - cbn [mret stateful_ret].
    rewrite same_game_state.
    match goal with
    | |- context [while_True n ?body ?w1] =>
        destruct (IH w1 Hinv) as (k & Hshots & Hrun);
        destruct (while_True n body w1) as [w' [e | [text hit]]] eqn:Hloop
    end; cbn [rnd game_state set_game_state draws next fst] in Hshots, Hrun.
    + destruct Hrun as (-> & -> & Hnext & Hgs).
      exists (S n). split; [| split; [done |]; split; [done |]; split; [lia | done]].
      intros [| i] Hi; [by rewrite Hcell |].
      rewrite <- drawn_cell_next. apply Hshots. lia.
    + destruct Hrun as (Hk & Hnext & Hf & Hfree & Hshot').
      rewrite drawn_cell_next in Hf, Hfree, Hshot'.
      exists (S k). split.
      { intros [| i] Hi; [by rewrite Hcell |].
        rewrite <- drawn_cell_next. apply Hshots. lia. }
      split; [lia |]. split; [lia |]. done.
  - rewrite Hshot, stateful_bind_run. unfold lift at 1.
    destruct (format_then_parse _ _ Hrow Hcol) as (Hf & _ & _).
    rewrite Hf. cbn [mret stateful_ret]. exists 0%nat.
    cbn [rnd next game_state set_game_state player_board].
    split; [lia |]. rewrite Hcell. cbn [fst snd].
    split; [lia |]. split; [lia |]. done.
Qed.

End turn_facts.

(** X16.  [play_game] numbers the rows of its log 1, 2, 3, ... in order.
    When it returns, the log has at least one row, the turn counter is
    the number of rows, and the file written is the whole log.  When it
    stops on an exception nothing has been written; the turn counter is
    then one ahead of the log, the turn that was cut short. *)
Theorem play_game_numbers_the_log_and_saves_it_on_return
    {ucd : UnicodeData} (fuel : nat) (player_board bot_board : GameBoard)
    (lines : list str) (g : random) :
  numbered (move_history
              (game_state (play_game fuel player_board bot_board lines g).1))
  ∧ match (play_game fuel player_board bot_board lines g).2 with
    | inr _ =>
        game_state_csv (play_game fuel player_board bot_board lines g).1
          = Some (move_history
                    (game_state
                       (play_game fuel player_board bot_board lines g).1))
        ∧ turn (game_state (play_game fuel player_board bot_board lines g).1)
          = len (move_history
                   (game_state
                      (play_game fuel player_board bot_board lines g).1))
        ∧ move_history
            (game_state (play_game fuel player_board bot_board lines g).1)
          ≠ []
    | inl OutOfFuel =>
        game_state_csv (play_game fuel player_board bot_board lines g).1
          = None
    | inl _ =>
        game_state_csv (play_game fuel player_board bot_board lines g).1
          = None
        ∧ turn (game_state (play_game fuel player_board bot_board lines g).1)
          = len (move_history
                   (game_state
                      (play_game fuel player_board bot_board lines g).1)) + 1
    end.
Proof. unfold play_game. apply play_rounds_bookkeeping. by split. Qed.

(** What [play_game] comes to on boards that are well formed. *)
Lemma play_game_outcome
    {ucd : UnicodeData} (fuel : nat) (player_board bot_board : GameBoard)
    (lines : list str) (g : random) :
  reachable player_board → reachable bot_board →
  match (play_game fuel player_board bot_board lines g).2 with
  | inr winner =>
      winner_ok (play_game fuel player_board bot_board lines g).1 winner
      ∧ Forall (row_faithful (play_game fuel player_board bot_board lines g).1)
          (move_history
             (game_state (play_game fuel player_board bot_board lines g).1))
  | inl e => stopped (play_game fuel player_board bot_board lines g).1 e
  end.
Proof.
  intros Hp Hb. unfold play_game.
  match goal with
  | |- context [while_True fuel (round fuel) ?w0] =>
      pose proof (play_rounds_spec_inv fuel fuel w0) as Hgame;
      specialize (Hgame ltac:(split; [by apply reachable_inv |];
                              split; [by apply reachable_inv | constructor]));
      destruct (while_True fuel (round fuel) w0) as [w' [e | winner]]
  end; simpl in *; [done |].
  destruct Hgame as [(_ & _ & Hlog) Hwin]. done.
Qed.



(** X18.  Whatever the boards, the input and the draws, [play_game]
    changes the two boards by [record_shot] calls only, reads the lines
    of input from the front, and draws from the random source without
    going back. *)
Theorem play_game_only_shoots_reads_and_draws
    {ucd : UnicodeData} (fuel : nat) (player_board bot_board : GameBoard)
    (lines : list str) (g : random) :
  shots_from player_board
    (Gameplay.player_board
       (game_state (play_game fuel player_board bot_board lines g).1))
  ∧ shots_from bot_board
      (Gameplay.bot_board
         (game_state (play_game fuel player_board bot_board lines g).1))
  ∧ (∃ read,
       lines = read ++ stdin (play_game fuel player_board bot_board lines g).1)
  ∧ draws (rnd (play_game fuel player_board bot_board lines g).1) = draws g
  ∧ (next g ≤ next (rnd (play_game fuel player_board bot_board lines g).1))%nat.
Proof.
  unfold play_game.
  match goal with
  | |- context [while_True fuel (round fuel) ?w0] =>
      destruct (play_rounds_progress fuel fuel w0) as [H1 H2 H3 [H4 H5]]
  end.
  done.
Qed.

(** X19.  [get_player_move] returns the cell of the first line of input
    that [parse_coordinates] accepts once stripped and put in upper
    case, having read and passed over the lines before it; the cell lies
    on the board.  It touches nothing but the input.  If no line is
    accepted it raises [EOFError] with all the input read. *)
Theorem get_player_move_takes_the_first_valid_line
    {ucd : UnicodeData} (fuel : nat) (w : world) :
  ∃ skipped,
    Forall passed_over skipped
    ∧ match get_player_move fuel w with
      | (w', inr c) =>
          ∃ line rest,
            stdin w = skipped ++ line :: rest
            ∧ parse_coordinates (upper (strip line)) = inr c
            ∧ in_bounds c = true
            ∧ w' = read_up_to rest w
      | (w', inl e) =>
          ∃ rest,
            stdin w = skipped ++ rest ∧ w' = read_up_to rest w
            ∧ ((e = EOFError ∧ rest = [])
               ∨ (e = OutOfFuel ∧ length skipped = fuel))
      end.
Proof.
  destruct (get_player_move_run fuel w) as (skipped & Hskipped & Hrun).
  exists skipped. split; [done |].
  destruct (get_player_move fuel w) as [w' [e | c]]; [done |].
  destruct Hrun as (line & rest & Hin & Hp & ->).
  exists line, rest. split; [done |]. split; [done |].
  split; [by eapply parse_coordinates_in_bounds | done].
Qed.

(** X20.  A turn of the player, on a bot's board that [GameBoard] has
    made and [record_shot] has changed, comes to exactly one shot, at
    the first line of input that names a cell not shot yet.  The lines
    before it are wasted: [get_player_move] passes over them, or they
    name a cell shot already.  When the turn returns a coordinate and a
    hit flag, the bot's board is the one left by the single [record_shot]
    call on the cell of that line, a cell of the board not shot before,
    the flag is what that call returned and the coordinate is the text of
    that cell.  When it raises, every line read was wasted, both boards
    are as they were, and the exception is [EOFError] with all the input
    read; the run of the model is cut off only after it has read as many
    lines as it has fuel, so never when the fuel exceeds the lines of
    input.  In any case the player's own board, the random source, the
    turn counter, the log and the saved file are left alone. *)
Theorem player_turn_is_one_recorded_shot
    {ucd : UnicodeData} (fuel : nat) (w : world) :
  reachable (bot_board (game_state w)) →
  (∃ read,
     Forall (wasted (bot_board (game_state w))) read
     ∧ match player_turn fuel w with
       | (w', inr (text, hit)) =>
           ∃ line row col,
             stdin w = read ++ line :: stdin w'
             ∧ parse_coordinates (upper (strip line)) = inr (row, col)
             ∧ in_bounds (row, col) = true
             ∧ format_coordinates row col = inr text
             ∧ ¬ already_shot (bot_board (game_state w)) (row, col)
             ∧ record_shot row col (bot_board (game_state w))
               = (bot_board (game_state w'), inr hit)
       | (w', inl e) =>
           stdin w = read ++ stdin w'
           ∧ game_state w' = game_state w
           ∧ ((e = EOFError ∧ stdin w' = [])
              ∨ (e = OutOfFuel ∧ (fuel ≤ length read)%nat))
       end)
  ∧ ((length (stdin w) < fuel)%nat →
     (player_turn fuel w).2 ≠ inl OutOfFuel)
  ∧ player_board (game_state (player_turn fuel w).1)
    = player_board (game_state w)
  ∧ rnd (player_turn fuel w).1 = rnd w
  ∧ turn (game_state (player_turn fuel w).1) = turn (game_state w)
  ∧ move_history (game_state (player_turn fuel w).1)
    = move_history (game_state w)
  ∧ game_state_csv (player_turn fuel w).1 = game_state_csv w.
Proof.
  intros Hb.
  destruct (player_turn_reads fuel fuel w (reachable_inv _ Hb))
    as (read & Hread & Hrun).
  fold (player_turn fuel) in Hrun. rewrite Nat.min_id in Hrun.
  split; [by exists read |]. split.
  - intros Hfuel Hcut.
    destruct (player_turn fuel w) as [w' [e | [text hit]]]; [| done].
    simpl in Hcut. injection Hcut as ->.
    destruct Hrun as (Hin & _ & [[? _] | [_ Hlen]]); [done |].
    rewrite Hin, length_app in Hfuel. lia.
  - destruct (player_turn_step fuel) as [Hstep Hside].
    destruct (Hstep w) as [_ _ Hturn Hlog Hcsv _ _].
    destruct (Hside w) as [Hboard Hrnd]. done.
Qed.

Lemma player_turn_is_one_recorded_shot_witness :
  ∃ read,
    Forall (wasted (ucd := ascii_only) (board_of spaced_fleet)) read
    ∧ match
        player_turn (ucd := ascii_only) 5
          (opening (board_of spaced_fleet) (board_of spaced_fleet)
             (lit "K1" :: winning_lines) sweep)
      with
      | (w', inr (text, hit)) =>
          ∃ line row col,
            lit "K1" :: winning_lines = read ++ line :: stdin w'
            ∧ parse_coordinates (ucd := ascii_only)
                (upper (ucd := ascii_only) (strip (ucd := ascii_only) line))
              = inr (row, col)
            ∧ in_bounds (row, col) = true
            ∧ format_coordinates row col = inr text
            ∧ ¬ already_shot (board_of spaced_fleet) (row, col)
            ∧ record_shot row col (board_of spaced_fleet)
              = (bot_board (game_state w'), inr hit)
      | (w', inl e) =>
          lit "K1" :: winning_lines = read ++ stdin w'
          ∧ game_state w'
            = GameState__init__ (board_of spaced_fleet) (board_of spaced_fleet)
          ∧ ((e = EOFError ∧ stdin w' = [])
             ∨ (e = OutOfFuel ∧ (5 ≤ length read)%nat))
      end.
Proof.
  apply (player_turn_is_one_recorded_shot (ucd := ascii_only) 5
           (opening (board_of spaced_fleet) (board_of spaced_fleet)
              (lit "K1" :: winning_lines) sweep)).
  exists spaced_fleet, (board_of spaced_fleet).
  split; [vm_compute; reflexivity | exists []; reflexivity].
Defined.

(** X21.  A turn of the bot, on a player's board that [GameBoard] has
    made and [record_shot] has changed, comes to exactly one shot, at
    the first cell it draws that was not shot yet: with [k] cells drawn
    before it, all shot already, the turn returns the text of the cell of
    draw [k] and the flag of the single [record_shot] call on that cell,
    which leaves the player's board as the turn leaves it, and two draws
    a cell have been taken.  The turn raises nothing.  The run of the
    model is cut off only when every cell it can draw with its fuel was
    shot already; if one of them was not, the turn returns.  The bot's
    own board, the input, the sequence of draws, the turn counter, the
    log and the saved file are left alone. *)
Theorem bot_turn_is_one_recorded_shot (fuel : nat) (w : world) :
  reachable (player_board (game_state w)) →
  (∃ k,
     (∀ i, (i < k)%nat →
        already_shot (player_board (game_state w)) (drawn_cell (rnd w) i))
     ∧ match bot_turn fuel w with
       | (w', inr (text, hit)) =>
           (k < fuel)%nat
           ∧ next (rnd w') = (next (rnd w) + 2 * (k + 1))%nat
           ∧ in_bounds (drawn_cell (rnd w) k) = true
           ∧ format_coordinates
               (drawn_cell (rnd w) k).1 (drawn_cell (rnd w) k).2
             = inr text
           ∧ ¬ already_shot (player_board (game_state w))
                 (drawn_cell (rnd w) k)
           ∧ record_shot (drawn_cell (rnd w) k).1 (drawn_cell (rnd w) k).2
               (player_board (game_state w))
             = (player_board (game_state w'), inr hit)
       | (w', inl e) =>
           e = OutOfFuel ∧ k = fuel
           ∧ next (rnd w') = (next (rnd w) + 2 * fuel)%nat
           ∧ game_state w' = game_state w
       end)
  ∧ (∀ i, (i < fuel)%nat →
       ¬ already_shot (player_board (game_state w)) (drawn_cell (rnd w) i) →
       ∃ w' text hit, bot_turn fuel w = (w', inr (text, hit)))
  ∧ bot_board (game_state (bot_turn fuel w).1) = bot_board (game_state w)
  ∧ stdin (bot_turn fuel w).1 = stdin w
  ∧ draws (rnd (bot_turn fuel w).1) = draws (rnd w)
  ∧ turn (game_state (bot_turn fuel w).1) = turn (game_state w)
  ∧ move_history (game_state (bot_turn fuel w).1)
    = move_history (game_state w)
  ∧ game_state_csv (bot_turn fuel w).1 = game_state_csv w.
Proof.
  intros Hb.
  destruct (bot_turn_draws (ucd := ascii_only) fuel w (reachable_inv _ Hb))
    as (k & Hshots & Hrun).
  split; [| split].
  - exists k. split; [done |].
    destruct (bot_turn fuel w) as [w' [e | [text hit]]]; [done |].
    destruct Hrun as (? & ? & ? & ? & ?).
    repeat (split; [done |]). split; [apply drawn_cell_in_bounds | done].
  - intros i Hi Hfree.
    destruct (bot_turn fuel w) as [w' [e | [text hit]]]; [| by eauto].
    destruct Hrun as (_ & -> & _). destruct (Hfree (Hshots i Hi)).
  - destruct (bot_turn_step fuel) as [Hstep Hside].
    destruct (Hstep w) as [_ _ Hturn Hlog Hcsv _ [Hdraws _]].
    destruct (Hside w) as [Hboard Hin]. done.
Qed.

Lemma bot_turn_is_one_recorded_shot_witness :
  (∃ k,
     (∀ i, (i < k)%nat →
        already_shot (board_of spaced_fleet) (drawn_cell sweep i))
     ∧ match
         bot_turn 5
           (opening (board_of spaced_fleet) (board_of spaced_fleet)
              winning_lines sweep)
       with
       | (w', inr (text, hit)) =>
           (k < 5)%nat
           ∧ next (rnd w') = (0 + 2 * (k + 1))%nat
           ∧ in_bounds (drawn_cell sweep k) = true
           ∧ format_coordinates (drawn_cell sweep k).1 (drawn_cell sweep k).2
             = inr text
           ∧ ¬ already_shot (board_of spaced_fleet) (drawn_cell sweep k)
           ∧ record_shot (drawn_cell sweep k).1 (drawn_cell sweep k).2
               (board_of spaced_fleet)
             = (player_board (game_state w'), inr hit)
       | (w', inl e) =>
           e = OutOfFuel ∧ k = 5%nat
           ∧ next (rnd w') = (0 + 2 * 5)%nat
           ∧ game_state w'
             = GameState__init__ (board_of spaced_fleet) (board_of spaced_fleet)
       end)
  ∧ ∃ w' text hit,
      bot_turn 5
        (opening (board_of spaced_fleet) (board_of spaced_fleet)
           winning_lines sweep)
      = (w', inr (text, hit)).
Proof.
  destruct (bot_turn_is_one_recorded_shot 5
              (opening (board_of spaced_fleet) (board_of spaced_fleet)
                 winning_lines sweep)) as (Hshot & Hreturns & _).
  - exists spaced_fleet, (board_of spaced_fleet).
    split; [vm_compute; reflexivity | exists []; reflexivity].
  - split; [exact Hshot |]. apply (Hreturns 0%nat); [lia |].
    vm_compute. intros [H | [H | H]]; inversion H.
Defined.

(** ** Further properties of the generator *)

(** The end points [place_ship] draws for a ship of a size between 1 and
    10: on the board, in a line, the given number of cells apart. *)
Lemma place_ship_pick (horizontal : bool) ship_size g :
  1 ≤ ship_size ≤ 10 →
  ∃ g' start end_ l,
    (if horizontal
     then row ← randint 0 (BOARD_SIZE - 1);
          col ← randint 0 (BOARD_SIZE - ship_size);
          mret ((row, col), (row, col + ship_size - 1))
     else row ← randint 0 (BOARD_SIZE - ship_size);
          col ← randint 0 (BOARD_SIZE - 1);
          mret ((row, col), (row + ship_size - 1, col))) g
    = (g', inr (start, end_))
    ∧ on_board (start, end_) ∧ get_ship_cells start end_ = inr l
    ∧ ship_span (start, end_) = ship_size.
Proof.
  intros Hsize. unfold BOARD_SIZE. destruct horizontal.
  - rewrite stateful_bind_run.
    destruct (randint_returns 0 (10 - 1) g) as (row & Hrow & Hr); [lia |].
    destruct (randint 0 (10 - 1) g) as [g2 r1]. simpl in Hrow. subst r1.
    rewrite stateful_bind_run.
    destruct (randint_returns 0 (10 - ship_size) g2) as (col & Hcol & Hc);
      [lia |].
    destruct (randint 0 (10 - ship_size) g2) as [g3 r2]. simpl in Hcol.
    subst r2.
    destruct (get_ship_cells_straight (row, col) (row, col + ship_size - 1))
      as [l Hl]; [by left |].
    exists g3, (row, col), (row, col + ship_size - 1), l.
    split; [done |]. split; [| split; [done |]].
    + unfold on_board, in_bounds, BOARD_SIZE. simpl. lia.
    + unfold ship_span. simpl. lia.
  - rewrite stateful_bind_run.
    destruct (randint_returns 0 (10 - ship_size) g) as (row & Hrow & Hr);
      [lia |].
    destruct (randint 0 (10 - ship_size) g) as [g2 r1]. simpl in Hrow.
    subst r1.
    rewrite stateful_bind_run.
    destruct (randint_returns 0 (10 - 1) g2) as (col & Hcol & Hc); [lia |].
    destruct (randint 0 (10 - 1) g2) as [g3 r2]. simpl in Hcol. subst r2.
    destruct (get_ship_cells_straight (row, col) (row + ship_size - 1, col))
      as [l Hl]; [by right |].
    exists g3, (row, col), (row + ship_size - 1, col), l.
    split; [done |]. split; [| split; [done |]].
    + unfold on_board, in_bounds, BOARD_SIZE. simpl. lia.
    + unfold ship_span. simpl. lia.
Qed.

Lemma place_ship_spec budget ship_size p g :
  1 ≤ ship_size ≤ 10 →
  match (place_ship budget ship_size p g).2 with
  | inl e => False
  | inr None => True
  | inr (Some p') => placed_one ship_size p p'
  end.
Proof.
  intros Hsize. revert g. induction budget as [| budget IH]; intros g;
    cbn [place_ship]; [done |].
  rewrite stateful_bind_run. unfold choice_True_False.
  rewrite stateful_bind_run. unfold draw at 1. unfold Ok, mret at 1, stateful_ret at 1.
  rewrite stateful_bind_run.
  destruct (place_ship_pick (N.even (draws g (next g))) ship_size
              {| draws := draws g; next := S (next g) |} Hsize)
    as (g3 & start & end_ & l & Hpick & Hboard & Hl & Hlen).
  match goal with
  | |- context [let (s', r) := ?t in _] =>
      replace t with (g3, @inr exn ship (start, end_))
        by (symmetry; exact Hpick)
  end.
  rewrite stateful_bind_run. unfold lift at 1. rewrite Hl.
  destruct (decide (all_cells p ∩ list_to_set l = ∅)) as [Hcells | _];
    [| apply IH].
  destruct (decide (all_adjacent p ∩ get_adjacent_cells l = ∅))
    as [Hadj | _]; [| apply IH].
  exists (start, end_), l. done.
Qed.

Lemma halo_list_to_set (l : list cell) :
  halo (list_to_set l) = get_adjacent_cells l.
Proof.
  unfold halo. apply get_adjacent_cells_ext. intros x.
  by rewrite elem_of_elements, elem_of_list_to_set.
Qed.

Lemma attempt_inv_empty :
  attempt_inv [] {| placed_ships := []; all_cells := ∅; all_adjacent := ∅ |}.
Proof.
  split; simpl; try done.
  - intros s Hs. by apply elem_of_nil in Hs.
  - intros s Hs. by apply elem_of_nil in Hs.
  - intros x. split; [set_solver |].
    intros (s & ? & Hs & _). by apply elem_of_nil in Hs.
  - intros x. split; [set_solver |].
    intros (s & ? & Hs & _). by apply elem_of_nil in Hs.
Qed.

Lemma attempt_inv_placed sizes n p p' :
  attempt_inv sizes p → placed_one n p p' → attempt_inv (sizes ++ [n]) p'.
Proof.
  intros [Hlen Hboard Hstraight Hcells Hadj Hapart]
    (s & l & Hships & Hs & Hl & Hn & Hfree & Hclear & Hcells' & Hadj').
  assert (Hsl : has_cells s (list_to_set l)) by by exists l.
  split.
  - by rewrite Hships, map_app, Hlen, <- Hn.
  - rewrite Hships. intros s' [Hs' | ->%list_elem_of_singleton]%elem_of_app;
      [by apply Hboard | done].
  - rewrite Hships. intros s' [Hs' | ->%list_elem_of_singleton]%elem_of_app;
      [by apply Hstraight | by eexists].
  - intros x. rewrite Hcells', Hships, elem_of_union, Hcells. split.
    + intros [(s' & c & Hs' & Hc & Hx) | Hx].
      * exists s', c. rewrite elem_of_app. tauto.
      * exists s, (list_to_set l). rewrite elem_of_app, list_elem_of_singleton.
        tauto.
    + intros (s' & c & [Hs' | ->%list_elem_of_singleton]%elem_of_app & Hc & Hx).
      * left. by exists s', c.
      * right. by rewrite (has_cells_fun _ _ _ Hsl Hc).
  - intros x. rewrite Hadj', Hships, elem_of_union, Hadj,
      <- halo_list_to_set. split.
    + intros [(s' & c & Hs' & Hc & Hx) | Hx].
      * exists s', c. rewrite elem_of_app. tauto.
      * exists s, (list_to_set l). rewrite elem_of_app, list_elem_of_singleton.
        tauto.
    + intros (s' & c & [Hs' | ->%list_elem_of_singleton]%elem_of_app & Hc & Hx).
      * left. by exists s', c.
      * right. by rewrite (has_cells_fun _ _ _ Hsl Hc).
  - rewrite Hships. intros j k s1 s2 c1 c2 Hjk Hj Hk Hc1 Hc2.
    destruct (decide (k < length (placed_ships p))%nat) as [Hin | Hout].
    + rewrite lookup_app_l in Hj, Hk by lia.
      exact (Hapart j k s1 s2 c1 c2 Hjk Hj Hk Hc1 Hc2).
    + assert (Hjin : (j < length (placed_ships p))%nat).
      { apply lookup_lt_Some in Hk. rewrite length_app in Hk. simpl in Hk. lia. }
      rewrite lookup_app_l in Hj by lia.
      rewrite lookup_app_r in Hk by lia.
      destruct (k - length (placed_ships p))%nat as [| k'] eqn:Hk';
        [| by destruct k'].
      simpl in Hk. injection Hk as <-.
      rewrite (has_cells_fun _ _ _ Hc2 Hsl).
      apply list_elem_of_lookup_2 in Hj. split.
      * intros x Hx1 Hx2. apply (not_elem_of_empty (C := gset cell) x).
        rewrite <- Hfree. apply elem_of_intersection. split; [| done].
        apply Hcells. by exists s1, c1.
      * intros x Hx1 Hx2. apply (not_elem_of_empty (C := gset cell) x).
        rewrite <- Hclear. apply elem_of_intersection.
        split; [| by rewrite <- halo_list_to_set].
        apply Hadj. by exists s1, c1.
Qed.

Lemma place_fleet_spec sizes done_sizes p g :
  Forall (λ n, 1 ≤ n ≤ 10) sizes → attempt_inv done_sizes p →
  match (place_fleet sizes p g).2 with
  | inl e => False
  | inr None => True
  | inr (Some p') => attempt_inv (done_sizes ++ sizes) p'
  end.
Proof.
  intros Hsizes. revert done_sizes p g.
  induction Hsizes as [| n sizes Hn _ IH]; intros done_sizes p g Hp;
    cbn [place_fleet].
  - simpl. by rewrite app_nil_r.
  - rewrite stateful_bind_run.
    pose proof (place_ship_spec max_placement_attempts n p g Hn) as Hone.
    destruct (place_ship max_placement_attempts n p g) as [g1 [e | [p1 |]]];
      simpl in *; [done | | done].
    specialize (IH (done_sizes ++ [n]) p1 g1
                  (attempt_inv_placed _ _ _ _ Hp Hone)).
    by rewrite <- app_assoc in IH.
Qed.

Lemma SHIP_SIZES_small : Forall (λ n, 1 ≤ n ≤ 10) SHIP_SIZES.
Proof. unfold SHIP_SIZES. repeat constructor; lia. Qed.

(** What [attempt_loop] can come to: a fleet that one of its attempts has
    placed and the validator has accepted, or the [RuntimeError]. *)
Lemma attempt_loop_outcome max_attempts attempts g :
  match (attempt_loop max_attempts attempts g).2 with
  | inr fleet =>
      ∃ p, fleet = placed_ships p ∧ attempt_inv SHIP_SIZES p
        ∧ validate_ship_placement fleet true = inr true
  | inl e => e = RuntimeError max_attempts
  end.
Proof.
  revert g. induction attempts as [| attempts IH]; intros g;
    cbn [attempt_loop]; [done |].
  rewrite stateful_bind_run.
  pose proof (place_fleet_spec SHIP_SIZES [] _ g SHIP_SIZES_small
                attempt_inv_empty) as Hfleet.
  destruct (place_fleet SHIP_SIZES _ g) as [g1 [e | [p |]]]; simpl in *;
    [done | | apply IH].
  destruct (validate_only_ValueError (placed_ships p) true) as [Hv | [why Hv]];
    rewrite Hv; [| apply IH].
  simpl. by exists p.
Qed.

(** Checked on every pair of ships that fit the board. *)
Lemma all_clear :
  forallb (λ a, forallb (clear a) all_shapes) all_shapes = true.
Proof. vm_compute. reflexivity. Qed.

Lemma drawn_ship_cells s l :
  on_board s → get_ship_cells s.1 s.2 = inr l → len l ≤ 4 →
  ∃ h row col size,
    1 ≤ size ≤ 4
    ∧ 0 ≤ row < (if h : bool then BOARD_SIZE else BOARD_SIZE + 1 - size)
    ∧ 0 ≤ col < (if h : bool then BOARD_SIZE + 1 - size else BOARD_SIZE)
    ∧ get_ship_cells (drawn_ship h row col size).1 (drawn_ship h row col size).2
      = inr l.
Proof.
  destruct s as [[r1 c1] [r2 c2]]. intros [H1 H2] Hl Hlen.
  pose proof (get_ship_cells_len _ _ _ Hl) as Hsize.
  unfold in_bounds, BOARD_SIZE in *. cbn [fst snd] in *.
  revert Hl. unfold get_ship_cells. destruct (decide (r1 = r2)) as [<- | Hr].
  - intros Hl. exists true, r1, (Z.min c1 c2), (Z.max c1 c2 - Z.min c1 c2 + 1).
    simpl. rewrite decide_True by done.
    replace (Z.min (Z.min c1 c2) _) with (Z.min c1 c2) by lia.
    replace (Z.max (Z.min c1 c2) _) with (Z.max c1 c2) by lia.
    repeat split; try done; lia.
  - destruct (decide (c1 = c2)) as [<- | Hc]; [| done].
    intros Hl. exists false, (Z.min r1 r2), c1, (Z.max r1 r2 - Z.min r1 r2 + 1).
    simpl. rewrite decide_False by lia. rewrite decide_True by done.
    replace (Z.min (Z.min r1 r2) _) with (Z.min r1 r2) by lia.
    replace (Z.max (Z.min r1 r2) _) with (Z.max r1 r2) by lia.
    repeat split; try done; lia.
Qed.

Lemma shape_of_in_all_shapes s l :
  on_board s → get_ship_cells s.1 s.2 = inr l → len l ≤ 4 →
  {| shape_cells := l;
     shape_halo := elements (get_adjacent_cells l);
     shape_cell_set := list_to_set l;
     shape_halo_set := get_adjacent_cells l |} ∈ all_shapes.
Proof.
  intros Hs Hl Hlen.
  destruct (drawn_ship_cells s l Hs Hl Hlen)
    as (h & row & col & size & Hsize & Hrow & Hcol & Hdrawn).
  unfold all_shapes.
  apply list_elem_of_bind. exists h. split; [| destruct h; set_solver].
  apply list_elem_of_bind. exists size. split.
  2: { assert (size = 1 ∨ size = 2 ∨ size = 3 ∨ size = 4) as [-> | [-> | [-> | ->]]]
         by lia; set_solver. }
  apply list_elem_of_bind. exists row. split; [| apply elem_of_seqZ; lia].
  apply list_elem_of_bind. exists col. split; [| apply elem_of_seqZ; lia].
  apply list_elem_of_singleton. unfold shape_of. by rewrite Hdrawn.
Qed.

(** Two ships of at most four cells on the board that share no cell and no
    halo cell do not touch. *)
Lemma apart_not_touching s1 s2 c1 c2 :
  on_board s1 → on_board s2 → has_cells s1 c1 → has_cells s2 c2 →
  (size c1 ≤ 4)%nat → (size c2 ≤ 4)%nat →
  c1 ## c2 → halo c1 ## halo c2 → c1 ## halo c2.
Proof.
  intros Hb1 Hb2 (l1 & Hl1 & ->) (l2 & Hl2 & ->) Hn1 Hn2 Hcells Hhalos.
  rewrite size_list_to_set in Hn1 by by eapply get_ship_cells_NoDup.
  rewrite size_list_to_set in Hn2 by by eapply get_ship_cells_NoDup.
  pose proof (shape_of_in_all_shapes s1 l1 Hb1 Hl1 ltac:(unfold len; lia)) as Ha.
  pose proof (shape_of_in_all_shapes s2 l2 Hb2 Hl2 ltac:(unfold len; lia)) as Hb.
  pose proof all_clear as Hall.
  rewrite forallb_forall in Hall.
  apply list_elem_of_In, Hall in Ha. rewrite forallb_forall in Ha.
  apply list_elem_of_In, Ha in Hb. unfold clear in Hb. simpl in Hb.
  rewrite !halo_list_to_set in *.
  apply orb_prop in Hb as [[Hclear | Hshared]%orb_prop | Hhalo].
  - rewrite forallb_forall in Hclear. intros x Hx1 Hx2.
    apply elem_of_list_to_set, list_elem_of_In, Hclear in Hx1.
    by apply bool_decide_eq_true in Hx1.
  - apply existsb_exists in Hshared as (x & Hx1 & Hx2).
    apply bool_decide_eq_true in Hx2. apply list_elem_of_In in Hx1.
    destruct (Hcells x); [by apply elem_of_list_to_set | done].
  - apply existsb_exists in Hhalo as (x & Hx1 & Hx2).
    apply bool_decide_eq_true in Hx2.
    apply list_elem_of_In, elem_of_elements in Hx1.
    by destruct (Hhalos x).
Qed.

(** A fleet that an attempt has placed passes the final validation: the
    generator's own checks are at least as strict. *)
Lemma attempt_inv_validates p :
  attempt_inv SHIP_SIZES p →
  validate_ship_placement (placed_ships p) true = inr true.
Proof.
  intros [Hlen Hboard Hstraight Hcells Hadj Hapart].
  apply validate_final_iff. split; [| by rewrite Hlen].
  assert (Hsmall : ∀ s c, s ∈ placed_ships p → has_cells s c →
            (1 ≤ size c ≤ 4)%nat).
  { intros s c Hs Hc. apply has_cells_size in Hc.
    assert (Hin : ship_span s ∈ SHIP_SIZES).
    { rewrite <- Hlen. by apply list_elem_of_fmap_2. }
    unfold ship_span in Hin. rewrite <- Hc in Hin.
    apply ship_size_allowed in Hin. lia. }
  apply validate_incremental_iff. intros k s Hk.
  assert (Hs : s ∈ placed_ships p) by by eapply list_elem_of_lookup_2.
  destruct (Hstraight s Hs) as [c Hc]. exists c.
  split; [done |]. split; [by eapply Hsmall |].
  intros j s' c' Hjk Hj Hc'.
  assert (Hs' : s' ∈ placed_ships p) by by eapply list_elem_of_lookup_2.
  destruct (Hapart j k s' s c' c Hjk Hj Hk Hc' Hc) as [Hdis Hhalos].
  split; [done |].
  apply (apart_not_touching s' s); auto.
  - by apply (Hsmall s').
  - by apply (Hsmall s).
Qed.

(** One round of the attempt loop: the fleet is returned as soon as every
    ship has found a place; the [except ValueError] branch is never
    taken. *)
Lemma attempt_loop_step max_attempts attempts g :
  attempt_loop max_attempts (S attempts) g =
  match place_fleet SHIP_SIZES
          {| placed_ships := []; all_cells := ∅; all_adjacent := ∅ |} g with
  | (g1, inr (Some p)) => (g1, inr (placed_ships p))
  | (g1, _) => attempt_loop max_attempts attempts g1
  end.
Proof.
  cbn [attempt_loop]. rewrite stateful_bind_run.
  pose proof (place_fleet_spec SHIP_SIZES [] _ g SHIP_SIZES_small
                attempt_inv_empty) as Hfleet.
  destruct (place_fleet SHIP_SIZES _ g) as [g1 [e | [p |]]]; simpl in *;
    [done | | done].
  by rewrite (attempt_inv_validates p Hfleet).
Qed.

(** X22.  With an attempt cap of zero or less [generate_bot_ships] raises
    its [RuntimeError] at once, without a single random draw. *)
Theorem generate_bot_ships_without_attempts (max_attempts : Z) (g : random) :
  max_attempts ≤ 0 →
  generate_bot_ships max_attempts g = (g, inl (RuntimeError max_attempts)).
Proof.
  intros Hmax. unfold generate_bot_ships, range.
  replace (length (seqZ 0 (max_attempts - 0))) with 0%nat; [done |].
  rewrite length_seqZ. lia.
Qed.

Lemma generate_bot_ships_without_attempts_witness :
  generate_bot_ships 0 sweep = (sweep, inl (RuntimeError 0)).
Proof. apply (generate_bot_ships_without_attempts 0 sweep). lia. Defined.

(** X23.  [generate_bot_ships] raises nothing but its [RuntimeError].  The
    fleet it returns passes the validation with [final_check=True]; its
    ships are straight, on the board, in the order of [SHIP_SIZES] and
    with these numbers of cells; and any two of them are further apart
    than the rules ask: not only do they not touch, their borders have
    no cell in common either. *)
Theorem generated_fleet_is_well_apart (max_attempts : Z) (g : random) :
  match (generate_bot_ships max_attempts g).2 with
  | inr fleet =>
      validate_ship_placement fleet true = inr true
      ∧ Forall2 (λ s n, on_board s ∧ ship_span s = n
                   ∧ ∃ cells, has_cells s cells ∧ Z.of_nat (size cells) = n)
          fleet SHIP_SIZES
      ∧ ∀ j k s s',
          (j < k)%nat → fleet !! j = Some s → fleet !! k = Some s' →
          ∃ cells cells',
            has_cells s cells ∧ has_cells s' cells'
            ∧ cells ## cells' ∧ halo cells ## halo cells'
  | inl e => e = RuntimeError max_attempts
  end.
Proof.
  unfold generate_bot_ships.
  pose proof (attempt_loop_outcome max_attempts
                (length (range 0 max_attempts)) g) as Hloop.
  destruct (attempt_loop _ _ g) as [g' [e | fleet]]; simpl in *; [done |].
  destruct Hloop as (p & -> & [Hlen Hboard Hstraight _ _ Hapart] & Hv).
  split; [done |]. split.
  - rewrite <- Hlen. apply Forall2_fmap_r, Forall_Forall2_diag, Forall_forall.
    intros s Hs. split; [by apply Hboard |]. split; [done |].
    destruct (Hstraight s Hs) as [cells Hc]. exists cells. split; [done |].
    by apply has_cells_size.
  - intros j k s s' Hjk Hj Hk.
    destruct (Hstraight s) as [cells Hc]; [by eapply list_elem_of_lookup_2 |].
    destruct (Hstraight s') as [cells' Hc']; [by eapply list_elem_of_lookup_2 |].
    exists cells, cells'. split; [done |]. split; [done |].
    exact (Hapart j k s s' cells cells' Hjk Hj Hk Hc Hc').
Qed.

(** X24.  The validation at the end of an attempt of [generate_bot_ships]
    never fails: the checks made while the ships are placed are at least
    as strict, so the [except ValueError] branch is never taken and the
    first attempt that places all ten ships returns them. *)
Theorem generator_returns_the_first_full_attempt
    (max_attempts : Z) (attempts : nat) (g : random) :
  attempt_loop max_attempts (S attempts) g =
  match place_fleet SHIP_SIZES
          {| placed_ships := []; all_cells := ∅; all_adjacent := ∅ |} g with
  | (g1, inr (Some p)) => (g1, inr (placed_ships p))
  | (g1, _) => attempt_loop max_attempts attempts g1
  end.
Proof. apply attempt_loop_step. Qed.

(** X25.  For a ship size from one to ten the placement loop of a ship
    raises nothing: it gives up with nothing changed, or it has appended
    one ship of that size, on the board and straight, that shares no
    cell with the ships placed before and whose border shares no cell
    with their borders, and has added its cells and its border to the
    two sets.  For a size above ten the first try raises the
    [ValueError] of [random.randint] on an empty range. *)
Theorem place_ship_places_one_ship_or_gives_up
    (budget : nat) (ship_size : Z) (p : placement) (g : random) :
  (1 ≤ ship_size ≤ 10 →
   match (place_ship budget ship_size p g).2 with
   | inl e => False
   | inr None => True
   | inr (Some p') => placed_one ship_size p p'
   end)
  ∧ (10 < ship_size → (0 < budget)%nat →
     (place_ship budget ship_size p g).2
     = inl (ValueError (EmptyRangeForRandint 0 (BOARD_SIZE - ship_size)))).
Proof.
  split; [apply place_ship_spec |].
  intros Hsize Hbudget. destruct budget as [| budget]; [lia |].
  cbn [place_ship]. rewrite stateful_bind_run.
  assert (Hempty : ∀ g0, randint 0 (BOARD_SIZE - ship_size) g0
            = (g0, inl (ValueError
                          (EmptyRangeForRandint 0 (BOARD_SIZE - ship_size))))).
  { intros g0. unfold randint, BOARD_SIZE.
    by rewrite (proj2 (Z.ltb_lt (10 - ship_size) 0)) by lia. }
  destruct (choice_True_False g) as [g1 [e | horizontal]] eqn:Hchoice.
  { unfold choice_True_False in Hchoice. rewrite stateful_bind_run in Hchoice.
    simpl in Hchoice. done. }
  rewrite stateful_bind_run. destruct horizontal.
  - rewrite stateful_bind_run.
    destruct (randint_returns 0 (BOARD_SIZE - 1) g1) as (row & Hrow & _);
      [unfold BOARD_SIZE; lia |].
    destruct (randint 0 (BOARD_SIZE - 1) g1) as [g2 r]. simpl in Hrow. subst r.
    rewrite stateful_bind_run. by rewrite Hempty.
  - rewrite stateful_bind_run. by rewrite Hempty.
Qed.

Lemma place_ship_places_one_ship_or_gives_up_witness :
  (place_ship 100 11
     {| placed_ships := []; all_cells := ∅; all_adjacent := ∅ |} sweep).2
  = inl (ValueError (EmptyRangeForRandint 0 (BOARD_SIZE - 11))).
Proof.
  apply (proj2 (place_ship_places_one_ship_or_gives_up 100 11
                  {| placed_ships := []; all_cells := ∅; all_adjacent := ∅ |}
                  sweep)); lia.
Defined.

(** ** Properties of src/ship_input.py *)

Section ship_input_facts.
Context {ucd : UnicodeData} {ucc : ShipInput.UnicodeCase}.
Import ShipInput.

Lemma sizes_raise_ValueError (l : list ship) e :
  comprehension (λ '(s, e), cells ← get_ship_cells s e; Ok (len cells)) l
    = inl e →
  e = ValueError NotStraightLine.
Proof.
  induction l as [| [start end_] l IH]; simpl; [done |].
  destruct (get_ship_cells start end_) as [e' | cells] eqn:Hc; simpl.
  - intros [= <-]. by eapply get_ship_cells_raises_ValueError.
  - match goal with
    | |- context [comprehension ?f l] =>
        destruct (comprehension f l) as [e' | sizes]; simpl; [| done]
    end.
    intros [= <-]. by apply IH.
Qed.

Lemma sizes_returned (l : list ship) sizes :
  comprehension (λ '(s, e), cells ← get_ship_cells s e; Ok (len cells)) l
    = inr sizes →
  sizes = map ship_span l.
Proof.
  revert sizes. induction l as [| [start end_] l IH]; intros sizes; simpl.
  - by intros [= <-].
  - destruct (get_ship_cells start end_) as [e' | cells] eqn:Hc; simpl; [done |].
    match goal with
    | |- context [comprehension ?f l] =>
        destruct (comprehension f l) as [e' | sizes']; simpl; [done |]
    end.
    intros [= <-]. rewrite <- (IH sizes') by done. f_equal.
    by rewrite (get_ship_cells_len _ _ _ Hc).
Qed.

Lemma try_block_attempted s : attempted s (try_block s).
Proof.
  unfold try_block. rewrite stateful_bind_run. unfold input at 1.
  destruct (stdin s) as [| line rest] eqn:Hin; [by apply at_end_of_input |].
  cbn [Ok]. case_decide as Hquit; [by eapply at_quit |].
  destruct (split (strip line)) as [| part0 [| part1 [| ? ?]]];
    try by eapply at_skipped.
  rewrite stateful_bind_run. unfold lift at 1.
  destruct (parse_coordinates part0) as [e | start] eqn:Hstart.
  { destruct (parse_coordinates_raises_ValueError _ _ Hstart) as [why ->].
    by eapply at_unreadable. }
  rewrite stateful_bind_run. unfold lift at 1.
  destruct (parse_coordinates part1) as [e | end_] eqn:Hend.
  { destruct (parse_coordinates_raises_ValueError _ _ Hend) as [why ->].
    by eapply at_unreadable. }
  rewrite stateful_bind_run. unfold lift at 1.
  destruct (get_ship_cells start end_) as [e | cells] eqn:Hcells.
  { rewrite (get_ship_cells_raises_ValueError _ _ _ Hcells).
    by eapply at_unreadable. }
  case_decide as Hsize; [by eapply at_skipped |].
  rewrite stateful_bind_run. unfold get at 1. cbn [ships].
  rewrite stateful_bind_run. unfold lift at 1.
  match goal with
  | |- context [comprehension ?f (ships s)] =>
      destruct (comprehension f (ships s)) as [e | current_sizes] eqn:Hsizes
  end.
  { rewrite (sizes_raise_ValueError _ _ Hsizes). by eapply at_unreadable. }
  case_decide as Hquota; [by eapply at_skipped |].
  apply sizes_returned in Hsizes as ->.
  rewrite (get_ship_cells_len _ _ _ Hcells) in Hquota.
  fold (ship_span (start, end_)) in Hquota. apply Z.nle_gt in Hquota.
  rewrite stateful_bind_run. unfold modify at 1.
  rewrite stateful_bind_run. unfold get at 1. cbn [ships stdin ship_count].
  rewrite stateful_bind_run.
  assert (Hboard : on_board (start, end_)).
  { split; simpl; by eapply parse_coordinates_in_bounds. }
  destruct (validate_only_ValueError (ships s ++ [(start, end_)])
              (bool_decide (len (ships s ++ [(start, end_)]) = len SHIP_SIZES)))
    as [Hv | [why Hv]].
  - pose proof (at_placed s line rest (start, end_) Hin Hboard Hquota Hv) as Hat.
    case_decide as Hlen.
    + rewrite bool_decide_true in Hv by done. unfold lift at 1. by rewrite Hv.
    + rewrite bool_decide_false in Hv by done. unfold lift at 1. by rewrite Hv.
  - pose proof (at_refused s line rest (start, end_) why Hin Hboard Hquota Hv) as Hat.
    case_decide as Hlen.
    + rewrite bool_decide_true in Hv by done. unfold lift at 1. by rewrite Hv.
    + rewrite bool_decide_false in Hv by done. unfold lift at 1. by rewrite Hv.
Qed.

Lemma validate_snoc_fails l x final_check :
  validate_ship_placement l false ≠ inr true →
  validate_ship_placement (l ++ [x]) final_check ≠ inr true.
Proof.
  intros Hbad Hv. apply Hbad, (validate_prefix l [x]).
  destruct final_check; [by apply validate_final_then_incremental | done].
Qed.

Lemma spoiled_step s s' r :
  spoiled s → attempted s (s', r) →
  spoiled s' ∧ r ≠ inl OutOfFuel.
Proof.
  intros [Hbad Hcount] Hat.
  inversion Hat
    as [? | ? ? ? ? | ? ? ? | ? ? ? ? | ? ? x ? Hb Hq Hv | ? ? x ? ? Hb Hq Hv];
    subst; try done.
  - by destruct (validate_snoc_fails _ x _ Hbad Hv).
  - split; [| done]. split; [| done]. simpl. by apply validate_snoc_fails.
Qed.

Lemma count_nonneg l n : 0 ≤ count l n.
Proof. unfold count. lia. Qed.

Lemma count_snoc l x n :
  count (l ++ [x]) n = count l n + (if decide (x = n) then 1 else 0).
Proof.
  unfold count. rewrite count_occ_app. cbn [count_occ].
  destruct (Z.eq_dec x n), (decide (x = n)); try done; lia.
Qed.

Lemma count_SHIP_SIZES n :
  count SHIP_SIZES n =
  if decide (n = 1) then 4 else if decide (n = 2) then 3
  else if decide (n = 3) then 2 else if decide (n = 4) then 1 else 0.
Proof.
  unfold count, SHIP_SIZES. cbn [count_occ].
  repeat (destruct (Z.eq_dec _ n)); repeat case_decide; lia.
Qed.

Lemma len_by_size (l : list Z) :
  Forall (λ n, 1 ≤ n ≤ 4) l →
  len l = count l 1 + count l 2 + count l 3 + count l 4.
Proof.
  unfold len, count. induction 1 as [| x l Hx _ IH]; [done |].
  cbn [length count_occ].
  repeat (destruct (Z.eq_dec x _)); lia.
Qed.

(** Ten ships of which no size has more than [SHIP_SIZES] asks for have
    the sizes of [SHIP_SIZES]. *)
Lemma full_quota (l : list Z) :
  Forall (λ n, 1 ≤ n ≤ 4) l → len l = len SHIP_SIZES →
  (∀ n, count l n ≤ count SHIP_SIZES n) →
  l ≡ₚ SHIP_SIZES.
Proof.
  intros Hsmall Hlen Hquota.
  apply (Permutation_count_occ Z.eq_dec). intros n.
  apply len_by_size in Hsmall. rewrite Hlen in Hsmall.
  pose proof (Hquota 1) as H1. pose proof (Hquota 2) as H2.
  pose proof (Hquota 3) as H3. pose proof (Hquota 4) as H4.
  pose proof (Hquota n) as Hn. pose proof (count_nonneg l n) as H0.
  rewrite count_SHIP_SIZES in H1, H2, H3, H4. simpl in H1, H2, H3, H4.
  assert (count l n = count SHIP_SIZES n) as Heq.
  { rewrite count_SHIP_SIZES in *. change (len SHIP_SIZES) with 10 in Hsmall.
    repeat case_decide; subst; lia. }
  unfold count in Heq. lia.
Qed.

Lemma validated_sizes l :
  validate_ship_placement l false = inr true →
  Forall (λ n, 1 ≤ n ≤ 4) (map ship_span l).
Proof.
  intros Hv. apply Forall_forall. intros n (x & -> & Hx)%list_elem_of_fmap.
  apply list_elem_of_lookup in Hx as [k Hk].
  destruct (proj1 (validate_incremental_iff l) Hv k x Hk)
    as (cells & Hc & Hsz & _).
  apply has_cells_size in Hc. unfold ship_span. lia.
Qed.

Lemma tidy_step s s' r :
  tidy s → ship_count s < total_ships → attempted s (s', r) →
  (tidy s' ∨ spoiled s') ∧ r ≠ inl OutOfFuel.
Proof.
  intros Htidy Hcount Hat.
  assert (Hsame : ∀ rest, tidy {| stdin := rest; ships := ships s;
                                  ship_count := ship_count s |}).
  { intros rest. by destruct Htidy. }
  inversion Hat
    as [? | ? ? ? ? | ? ? ? | ? ? ? ? | ? ? x ? Hb Hq Hv | ? ? x ? ? Hb Hq Hv];
    subst; try (split; [left | done]; done).
  - (* the ship has been placed *)
    destruct Htidy as [Hc Hvalid Hfinal Hboard Hquota].
    assert (Hlen : len (ships s ++ [x]) = ship_count s + 1).
    { unfold len in *. rewrite length_app. simpl. lia. }
    split; [left | done]. split; simpl.
    + by rewrite Hlen.
    + destruct (bool_decide _) in Hv;
        [by apply validate_final_then_incremental | done].
    + intros Hfull. rewrite bool_decide_true in Hv; [done |].
      unfold total_ships in *. lia.
    + intros y [Hy | ->%list_elem_of_singleton]%elem_of_app; auto.
    + intros n. rewrite map_app. cbn [map]. rewrite count_snoc.
      pose proof (Hquota n). destruct (decide (ship_span x = n)) as [<- | Hn]; lia.
  - (* the ship has been refused *)
    destruct Htidy as [Hc Hvalid Hfinal Hboard Hquota].
    split; [right | done]. split; [| done]. simpl. intros Hinc.
    destruct (bool_decide _) eqn:Hfull in Hv; [| congruence].
    apply bool_decide_eq_true in Hfull.
    assert (Hfinal' : validate_ship_placement (ships s ++ [x]) true = inr true);
      [| congruence].
    apply validate_final_iff. split; [done |].
    apply full_quota.
    + by apply validated_sizes.
    + unfold len in *. by rewrite length_map.
    + intros n. rewrite map_app. cbn [map]. rewrite count_snoc.
      pose proof (Hquota n). destruct (decide (ship_span x = n)) as [<- | Hn]; lia.
Qed.

Lemma tidy_start lines :
  tidy {| stdin := lines; ships := []; ship_count := 0 |}.
Proof.
  split; simpl; try done.
  - intros x Hx. by apply elem_of_nil in Hx.
  - intros n. apply count_nonneg.
Qed.

Lemma tidy_not_spoiled s : tidy s → ¬ spoiled s.
Proof. intros [_ Hv _ _ _] [Hbad _]. done. Qed.

(** How [placement_loop] can end from a frame that is in step or has a
    refused ship. *)
Lemma placement_loop_outcome fuel s :
  tidy s ∨ spoiled s →
  match (placement_loop fuel s).2 with
  | inr (Return fleet) =>
      ¬ spoiled s
      ∧ validate_ship_placement fleet true = inr true
      ∧ ∀ x, x ∈ fleet → on_board x
  | inr (SystemExit code) => code = 0
  | inl e => e = OutOfFuel
  end.
Proof.
  revert s. induction fuel as [| fuel IH]; intros s Hs; cbn [placement_loop];
    case_decide as Hcount; simpl; try done.
  - destruct Hs as [Hs | [_ Hs]]; [| done].
    split; [by apply tidy_not_spoiled |]. split; [| by apply Hs].
    apply Hs. lia.
  - pose proof (try_block_attempted s) as Hat.
    destruct (try_block s) as [s' r].
    assert (Hnext : (tidy s' ∨ spoiled s') ∧ r ≠ inl OutOfFuel
                    ∧ (spoiled s → spoiled s')).
    { destruct Hs as [Hs | Hs].
      - destruct (tidy_step s s' r Hs Hcount Hat) as [? ?].
        split; [done |]. split; [done |]. intros ?.
        by destruct (tidy_not_spoiled s).
      - destruct (spoiled_step s s' r Hs Hat) as [? ?]. auto. }
    destruct Hnext as (Hs' & Hfuel & Hkeep).
    assert (Hgo : match (placement_loop fuel s').2 with
                  | inr (Return fleet) =>
                      ¬ spoiled s
                      ∧ validate_ship_placement fleet true = inr true
                      ∧ ∀ x, x ∈ fleet → on_board x
                  | inr (SystemExit code) => code = 0
                  | inl e => e = OutOfFuel
                  end).
    { specialize (IH s' Hs').
      destruct (placement_loop fuel s') as [s'' [e | [fleet | code]]];
        simpl in *; try done.
      destruct IH as (Hnot & ? & ?). split; [| done]. auto. }
    inversion Hat; subst; simpl; try done.
  - destruct Hs as [Hs | [_ Hs]]; [| done].
    split; [by apply tidy_not_spoiled |]. split; [| by apply Hs].
    apply Hs. lia.
Qed.

(** At the end of input the loop goes round for ever: [input] raises
    [EOFError], the [except Exception] handler prints, and nothing has
    changed. *)
Lemma end_of_input_spins fuel s :
  stdin s = [] → ship_count s < total_ships →
  placement_loop fuel s = (s, inl OutOfFuel).
Proof.
  intros Hin Hcount.
  assert (Htry : try_block s = (s, inl EOFError)).
  { unfold try_block. rewrite stateful_bind_run. unfold input. by rewrite Hin. }
  induction fuel as [| fuel IH]; cbn [placement_loop];
    rewrite decide_True by done; [done |].
  by rewrite Htry.
Qed.

End ship_input_facts.

(** *** Typing a fleet in *)

Section typed_facts.
Context {ucd : UnicodeData} {ucc : ShipInput.UnicodeCase}.
Import ShipInput.

Lemma inked_not_space c : inked c → isspace c = false.
Proof.
  unfold inked, isspace. intros Hc.
  rewrite (proj2 (N.ltb_lt c 128)) by lia.
  destruct (9 <=? c)%N eqn:H1, (c <=? 13)%N eqn:H2, (28 <=? c)%N eqn:H3,
    (c <=? 32)%N eqn:H4; simpl; try done;
    rewrite ?N.leb_le, ?N.leb_gt in *; lia.
Qed.

Lemma split_words_inked word t s :
  Forall inked t → split_words word (t ++ s) = split_words (rev t ++ word) s.
Proof.
  intros Ht. revert word. induction Ht as [| c t Hc _ IH]; intros word; [done |].
  simpl. rewrite (inked_not_space c Hc), IH. by rewrite <- app_assoc.
Qed.

Lemma split_two_words a b :
  Forall inked a → Forall inked b → a ≠ [] → b ≠ [] →
  split (a ++ lit " " ++ b) = [a; b].
Proof.
  intros Ha Hb Hna Hnb. unfold split.
  rewrite split_words_inked by done. rewrite app_nil_r.
  change (lit " " ++ b) with (32%N :: b). cbn [split_words].
  change (isspace 32) with true. cbv iota.
  destruct (rev a) as [| c r] eqn:Hrev.
  { apply (f_equal (@rev N)) in Hrev. rewrite rev_involutive in Hrev. done. }
  rewrite <- Hrev, rev_involutive. f_equal.
  rewrite <- (app_nil_r b) at 1. rewrite split_words_inked by done.
  rewrite app_nil_r. cbn [split_words].
  destruct (rev b) as [| c' r'] eqn:Hrevb.
  { apply (f_equal (@rev N)) in Hrevb. rewrite rev_involutive in Hrevb. done. }
  by rewrite <- Hrevb, rev_involutive.
Qed.

Lemma drop_while_head (l : str) :
  match l with c :: _ => isspace c = false | [] => True end →
  drop_while isspace l = l.
Proof. destruct l as [| c l]; [done |]. simpl. by intros ->. Qed.

Lemma strip_two_words a b :
  Forall inked a → Forall inked b → a ≠ [] → b ≠ [] →
  strip (a ++ lit " " ++ b) = a ++ lit " " ++ b.
Proof.
  intros Ha Hb Hna Hnb. unfold strip.
  rewrite (drop_while_head (a ++ _)).
  2: { destruct a as [| c a]; [done |]. simpl. apply inked_not_space.
       by inversion Ha. }
  rewrite drop_while_head; [by rewrite rev_involutive |].
  rewrite !rev_app_distr.
  destruct (rev b) as [| c r] eqn:Hrev.
  { apply (f_equal (@rev N)) in Hrev. rewrite rev_involutive in Hrev. done. }
  simpl. apply inked_not_space.
  assert (Hc : c ∈ rev b) by (rewrite Hrev; left).
  rewrite list_elem_of_In, <- in_rev, <- list_elem_of_In in Hc.
  by eapply Forall_forall in Hc.
Qed.

Lemma lower_not_quit (c : N) (t : str) :
  (65 ≤ c ≤ 74)%N → Forall (λ c, (c < 128)%N) t → lower (c :: t) ≠ lit "quit".
Proof.
  intros Hc Ht. unfold lower.
  assert (Hascii : forallb (λ c, (c <? 128)%N) (c :: t) = true).
  { apply forallb_forall. intros x [<- | Hx]; apply N.ltb_lt; [lia |].
    apply list_elem_of_In in Hx. exact (proj1 (Forall_forall _ _) Ht x Hx). }
  rewrite Hascii. cbn [map].
  rewrite (proj2 (N.leb_le 65 c)), (proj2 (N.leb_le c 90)) by lia.
  cbn [andb]. intros [= Hq _]. lia.
Qed.

Lemma decimal_text_inked n :
  1 ≤ n ≤ 10 → Forall inked (decimal_text n) ∧ decimal_text n ≠ [].
Proof.
  intros Hn. assert (Hin : n ∈ seqZ 1 10) by (apply elem_of_seqZ; lia).
  vm_compute in Hin.
  repeat (apply elem_of_cons in Hin as [-> | Hin]);
    [.. | by apply elem_of_nil in Hin];
    (split; [| done]); vm_compute; repeat constructor.
Qed.

(** The text of a coordinate on the board is one word of ASCII that
    begins with a letter A..J, and it parses back to the cell. *)
Lemma format_coordinates_word (c : cell) :
  in_bounds c = true →
  ∃ letter digits,
    format_coordinates c.1 c.2 = inr (letter :: digits)
    ∧ parse_coordinates (letter :: digits) = inr c
    ∧ (65 ≤ letter ≤ 74)%N
    ∧ Forall inked (letter :: digits).
Proof.
  destruct c as [row col]. unfold in_bounds, BOARD_SIZE. simpl. intros Hc.
  assert (0 ≤ row ≤ 9 ∧ 0 ≤ col ≤ 9) as [Hrow Hcol].
  { apply andb_prop in Hc as [[[H1 H2]%andb_prop H3]%andb_prop H4]. lia. }
  destruct (format_then_parse row col Hrow Hcol) as (Hf & Hp & _).
  destruct (decimal_text_inked (col + 1)) as [Hink Hne]; [lia |].
  eexists _, _. split; [exact Hf |]. split; [exact Hp |].
  split; [lia |]. constructor; [unfold inked; lia | done].
Qed.

Lemma inked_ascii (t : str) : Forall inked t → Forall (λ c, (c < 128)%N) t.
Proof. intros Ht. eapply Forall_impl; [exact Ht |]. unfold inked. intros c. lia. Qed.

(** What the [try] block does with the typed line of a ship that fits. *)
Lemma try_block_typed s x rest :
  stdin s = typed x :: rest → on_board x →
  (∃ cells, get_ship_cells x.1 x.2 = inr cells) →
  ship_span x ∈ SHIP_SIZES →
  (∀ y, y ∈ ships s → ∃ cells, has_cells y cells) →
  count (map ship_span (ships s)) (ship_span x)
    < count SHIP_SIZES (ship_span x) →
  validate_ship_placement (ships s ++ [x])
    (bool_decide (len (ships s ++ [x]) = len SHIP_SIZES)) = inr true →
  try_block s =
    ({| stdin := rest; ships := ships s ++ [x];
        ship_count := ship_count s + 1 |}, inr Next).
Proof.
  destruct x as [start end_]. intros Hin [Hb1 Hb2] [cells Hcells] Hsize
    Hstraight Hquota Hv. simpl in Hb1, Hb2, Hcells.
  destruct (format_coordinates_word start Hb1)
    as (l1 & d1 & Hf1 & Hp1 & Hl1 & Hink1).
  destruct (format_coordinates_word end_ Hb2)
    as (l2 & d2 & Hf2 & Hp2 & Hl2 & Hink2).
  assert (Htyped : typed (start, end_) = (l1 :: d1) ++ lit " " ++ (l2 :: d2)).
  { unfold typed. simpl. by rewrite Hf1, Hf2. }
  rewrite Htyped in Hin.
  unfold try_block. rewrite stateful_bind_run. unfold input at 1. rewrite Hin.
  cbn [Ok]. rewrite strip_two_words by done.
  rewrite decide_False.
  2: { apply lower_not_quit; [done |]. apply Forall_app. split.
       - apply inked_ascii. by inversion Hink1.
       - constructor; [done |]. by apply inked_ascii. }
  rewrite split_two_words by done.
  rewrite stateful_bind_run. unfold lift at 1. rewrite Hp1.
  rewrite stateful_bind_run. unfold lift at 1. rewrite Hp2.
  rewrite stateful_bind_run. unfold lift at 1. rewrite Hcells.
  rewrite (get_ship_cells_len _ _ _ Hcells).
  fold (ship_span (start, end_)).
  rewrite decide_False by (intros H; by apply H).
  rewrite stateful_bind_run. unfold get at 1. cbn [ships].
  rewrite stateful_bind_run. unfold lift at 1.
  destruct (sizes_comprehension (ships s) Hstraight) as (sizes & Hsizes & Hall).
  rewrite Hsizes. apply Forall2_sizes_map in Hall as ->.
  change (ship_span (start, end_))
    with (Z.abs (end_.1 - start.1) + Z.abs (end_.2 - start.2) + 1) in Hquota.
  rewrite decide_False by lia.
  rewrite stateful_bind_run. unfold modify at 1.
  rewrite stateful_bind_run. unfold get at 1. cbn [ships stdin ship_count].
  rewrite stateful_bind_run.
  destruct (decide (len (ships s ++ [(start, end_)]) = len SHIP_SIZES))
    as [Hlen | Hlen].
  - rewrite bool_decide_true in Hv by done. unfold lift at 1.
    match goal with
    | |- context [validate_ship_placement ?l true] =>
        by replace (validate_ship_placement l true) with (@inr exn bool true)
    end.
  - rewrite bool_decide_false in Hv by done. unfold lift at 1.
    match goal with
    | |- context [validate_ship_placement ?l false] =>
        by replace (validate_ship_placement l false) with (@inr exn bool true)
    end.
Qed.

Lemma count_before (l1 l2 : list Z) x :
  count l1 x < count (l1 ++ x :: l2) x.
Proof.
  unfold count. rewrite count_occ_app. cbn [count_occ].
  destruct (Z.eq_dec x x); [lia | done].
Qed.

Lemma count_Permutation (l1 l2 : list Z) x :
  l1 ≡ₚ l2 → count l1 x = count l2 x.
Proof.
  intros Hp. unfold count. f_equal.
  by apply (proj1 (Permutation_count_occ Z.eq_dec l1 l2)).
Qed.

(** Typing the rest of a fleet that the validator accepts. *)
Lemma placement_loop_typed todo :
  ∀ placed rest fuel,
    validate_ship_placement (placed ++ todo) true = inr true →
    (∀ x, x ∈ placed ++ todo → on_board x) →
    (length todo ≤ fuel)%nat →
    placement_loop fuel
      {| stdin := map typed todo ++ rest; ships := placed;
         ship_count := len placed |}
    = ({| stdin := rest; ships := placed ++ todo;
          ship_count := len (placed ++ todo) |},
       inr (Return (placed ++ todo))).
Proof.
  induction todo as [| x todo IH]; intros placed rest fuel Hv Hboard Hfuel.
  - rewrite app_nil_r in *. apply validate_final_inr in Hv as [Hlen _].
    destruct fuel; cbn [placement_loop ship_count];
      (rewrite decide_False by (unfold total_ships; lia));
      done.
  - destruct fuel as [| fuel]; [simpl in Hfuel; lia |].
    pose proof (validate_final_then_incremental _ Hv) as Hinc.
    pose proof (proj1 (validate_final_iff _) Hv) as [_ Hsizes].
    pose proof (proj1 (validate_final_inr _ _ Hv)) as Hlen.
    assert (Hstraight : ∀ y, y ∈ placed ++ x :: todo →
              ∃ cells, has_cells y cells ∧ (1 ≤ size cells ≤ 4)%nat).
    { intros y [k Hk]%list_elem_of_lookup.
      destruct (proj1 (validate_incremental_iff _) Hinc k y Hk)
        as (cells & ? & ? & _). eauto. }
    assert (Hx : x ∈ placed ++ x :: todo) by (apply elem_of_app; right; left).
    assert (Hshort : len placed < total_ships).
    { unfold total_ships, len in *. rewrite length_app in Hlen. simpl in Hlen.
      change (Z.of_nat (length SHIP_SIZES)) with 10. lia. }
    cbn [placement_loop ship_count]. rewrite decide_True by done.
    rewrite (try_block_typed _ x (map typed todo ++ rest)); cbn [ships stdin ship_count].
    + replace (len placed + 1) with (len (placed ++ [x]))
        by (unfold len; rewrite length_app; simpl; lia).
      rewrite (IH (placed ++ [x]) rest fuel).
      * by rewrite <- app_assoc.
      * by rewrite <- app_assoc.
      * by rewrite <- app_assoc.
      * simpl in Hfuel. lia.
    + done.
    + by apply Hboard.
    + destruct (Hstraight x Hx) as (cells & (l & Hl & _) & _). eauto.
    + destruct (Hstraight x Hx) as (cells & Hc & Hsz).
      apply has_cells_size in Hc. unfold ship_span. rewrite <- Hc.
      by apply ship_size_allowed.
    + intros y Hy. destruct (Hstraight y) as (cells & ? & _); [| eauto].
      apply elem_of_app. by left.
    + rewrite <- (count_Permutation _ _ _ Hsizes), map_app. cbn [map].
      apply count_before.
    + destruct (decide (len (placed ++ [x]) = len SHIP_SIZES)) as [Hfull | Hnot].
      * rewrite bool_decide_true by done.
        assert (todo = []) as ->.
        { apply length_zero_iff_nil. unfold len in *.
          rewrite !length_app in *. simpl in *. lia. }
        done.
      * rewrite bool_decide_false by done.
        apply (validate_prefix _ todo). by rewrite <- app_assoc.
Qed.

End typed_facts.

Section placement_frames.
Context {ucd : UnicodeData} {ucc : ShipInput.UnicodeCase}.
Import ShipInput.

(** The frame a run of [placement_loop] ends in is in step or has a
    refused ship, as the frame it started in. *)
Lemma placement_loop_frame fuel s :
  tidy s ∨ spoiled s →
  tidy (placement_loop fuel s).1 ∨ spoiled (placement_loop fuel s).1.
Proof.
  revert s. induction fuel as [| fuel IH]; intros s Hs; cbn [placement_loop];
    case_decide as Hcount; simpl; try done.
  pose proof (try_block_attempted s) as Hat.
  destruct (try_block s) as [s' r].
  assert (Hs' : tidy s' ∨ spoiled s').
  { destruct Hs as [Hs | Hs].
    - by destruct (tidy_step s s' r Hs Hcount Hat).
    - right. by destruct (spoiled_step s s' r Hs Hat). }
  specialize (IH s' Hs').
  inversion Hat; subst; simpl; try done.
Qed.

Lemma counted_short_is_spoiled s :
  tidy s ∨ spoiled s → ship_count s < len (ships s) → spoiled s.
Proof. intros [[Hc _ _ _ _] | Hs] Hshort; [lia | done]. Qed.

End placement_frames.

(** X26.  [get_player_ships] lets no exception out.  It ends in one of
    two ways: it returns a fleet, which then passes
    [validate_ship_placement] with the final check and lies on the board,
    or the player has typed [quit] and the program exits with status 0.
    Otherwise it is still asking. *)
Theorem get_player_ships_returns_a_validated_fleet
    {ucd : UnicodeData} {ucc : ShipInput.UnicodeCase}
    (fuel : nat) (lines : list str) :
  match (ShipInput.get_player_ships fuel lines).2 with
  | inr (ShipInput.Return fleet) =>
      validate_ship_placement fleet true = inr true
      ∧ ∀ x, x ∈ fleet → on_board x
  | inr (ShipInput.SystemExit code) => code = 0
  | inl e => e = OutOfFuel
  end.
Proof.
  unfold ShipInput.get_player_ships.
  pose proof (placement_loop_outcome fuel _ (or_introl (tidy_start lines)))
    as Hloop.
  destruct (ShipInput.placement_loop fuel _) as [s [e | [fleet | code]]];
    simpl in *; try done.
  by destruct Hloop as (_ & ? & ?).
Qed.

(** X27.  A ship is appended to [ships] before the validator is asked,
    and a refusal does not take it out again.  So once [ships] holds
    more ships than [ship_count] has counted, every later validation
    fails as well and [get_player_ships] cannot return any more,
    whatever is typed: going on from there it is left by [quit], or it is
    still asking. *)
Theorem refused_ship_is_never_taken_back
    {ucd : UnicodeData} {ucc : ShipInput.UnicodeCase}
    (fuel fuel' : nat) (lines : list str) :
  ShipInput.ship_count (ShipInput.get_player_ships fuel lines).1
    < len (ShipInput.ships (ShipInput.get_player_ships fuel lines).1) →
  (ShipInput.placement_loop fuel'
     (ShipInput.get_player_ships fuel lines).1).2
    = inr (ShipInput.SystemExit 0)
  ∨ (ShipInput.placement_loop fuel'
       (ShipInput.get_player_ships fuel lines).1).2
    = inl OutOfFuel.
Proof.
  intros Hshort. unfold ShipInput.get_player_ships in *.
  pose proof (placement_loop_frame fuel _ (or_introl (tidy_start lines)))
    as Hframe.
  pose proof (counted_short_is_spoiled _ Hframe Hshort) as Hspoiled.
  pose proof (placement_loop_outcome fuel' _ (or_intror Hspoiled)) as Hloop.
  destruct (ShipInput.placement_loop fuel' _) as [s [e | [fleet | code]]];
    simpl in *.
  - right. by rewrite Hloop.
  - by destruct Hloop as [Hnot _].
  - left. by rewrite Hloop.
Qed.

Lemma refused_ship_is_never_taken_back_witness :
  (ShipInput.placement_loop (ucd := ascii_only)
     (ucc := ShipInput.ascii_case) 5
     (ShipInput.get_player_ships (ucd := ascii_only)
        (ucc := ShipInput.ascii_case) 2
        [lit "A1 A4"; lit "B1 B3"; lit "D1 D3"]).1).2
    = inr (ShipInput.SystemExit 0)
  ∨ (ShipInput.placement_loop (ucd := ascii_only)
       (ucc := ShipInput.ascii_case) 5
       (ShipInput.get_player_ships (ucd := ascii_only)
          (ucc := ShipInput.ascii_case) 2
          [lit "A1 A4"; lit "B1 B3"; lit "D1 D3"]).1).2
    = inl OutOfFuel.
Proof.
  apply (refused_ship_is_never_taken_back (ucd := ascii_only)
           (ucc := ShipInput.ascii_case) 2 5
           [lit "A1 A4"; lit "B1 B3"; lit "D1 D3"]).
  vm_compute. reflexivity.
Defined.

(** X28.  At the end of input, with fewer than ten ships placed,
    [get_player_ships] does not end: [input] raises [EOFError], the
    [except Exception] handler takes it for a wrong entry, and the loop
    asks again, with nothing changed. *)
Theorem end_of_input_is_asked_again_for_ever
    {ucd : UnicodeData} {ucc : ShipInput.UnicodeCase}
    (fuel : nat) (s : ShipInput.frame) :
  ShipInput.stdin s = [] → ShipInput.ship_count s < ShipInput.total_ships →
  ShipInput.placement_loop fuel s = (s, inl OutOfFuel).
Proof. apply end_of_input_spins. Qed.

Lemma end_of_input_is_asked_again_for_ever_witness :
  ShipInput.placement_loop (ucd := ascii_only) (ucc := ShipInput.ascii_case)
    1000
    {| ShipInput.stdin := []; ShipInput.ships := [];
       ShipInput.ship_count := 0 |}
  = ({| ShipInput.stdin := []; ShipInput.ships := [];
        ShipInput.ship_count := 0 |}, inl OutOfFuel).
Proof.
  apply (end_of_input_is_asked_again_for_ever (ucd := ascii_only)
           (ucc := ShipInput.ascii_case) 1000).
  - reflexivity.
  - vm_compute. reflexivity.
Defined.

(** X29.  Every fleet on the board that passes the final validation can
    be entered: typed in ship by ship, each as its two coordinates with a
    space between, in the order of the list, it is returned as it is
    after ten rounds, with the rest of the input left unread. *)
Theorem typed_fleet_is_returned
    {ucd : UnicodeData} {ucc : ShipInput.UnicodeCase}
    (fuel : nat) (fleet : list ship) (rest : list str) :
  validate_ship_placement fleet true = inr true →
  (∀ x, x ∈ fleet → on_board x) →
  (10 ≤ fuel)%nat →
  ShipInput.get_player_ships fuel (map typed fleet ++ rest)
  = ({| ShipInput.stdin := rest; ShipInput.ships := fleet;
        ShipInput.ship_count := 10 |},
     inr (ShipInput.Return fleet)).
Proof.
  intros Hv Hboard Hfuel. unfold ShipInput.get_player_ships.
  pose proof (proj1 (validate_final_inr _ _ Hv)) as Hlen.
  change (len SHIP_SIZES) with 10 in Hlen.
  rewrite <- Hlen at 1.
  apply (placement_loop_typed fleet [] rest fuel); [done | done |].
  unfold len in Hlen. lia.
Qed.

Lemma typed_fleet_is_returned_witness :
  ShipInput.get_player_ships (ucd := ascii_only) (ucc := ShipInput.ascii_case)
    12 (map typed spaced_fleet ++ [lit "A1"])
  = ({| ShipInput.stdin := [lit "A1"]; ShipInput.ships := spaced_fleet;
        ShipInput.ship_count := 10 |},
     inr (ShipInput.Return spaced_fleet)).
Proof.
  apply (typed_fleet_is_returned (ucd := ascii_only)
           (ucc := ShipInput.ascii_case) 12 spaced_fleet [lit "A1"]).
  - vm_compute. reflexivity.
  - intros x Hx. unfold spaced_fleet in Hx.
    repeat (apply elem_of_cons in Hx as [-> | Hx]);
      [.. | by apply elem_of_nil in Hx]; split; reflexivity.
  - lia.
Defined.

(** ** The program as a whole *)

(** X30.  The fleets that [get_player_ships] and [generate_bot_ships]
    return, which [main] hands to [GameBoard], make boards: [GameBoard]
    returns on both, each board has twenty ship cells, and [play_game]
    on the two boards, with the input that is left and the random source
    as the generator left it, names the right winner when it returns and
    raises nothing but the [EOFError] of an input that has run out,
    unless the run of the model is cut off. *)
Theorem both_fleets_make_boards_for_the_game
    {ucd : UnicodeData} {ucc : ShipInput.UnicodeCase}
    (fuel fuel' : nat) (lines : list str) (s : ShipInput.frame)
    (player_ships bot_ships : list ship) (max_attempts : Z) (g g' : random) :
  ShipInput.get_player_ships fuel lines
    = (s, inr (ShipInput.Return player_ships)) →
  generate_bot_ships max_attempts g = (g', inr bot_ships) →
  ∃ player_board bot_board,
    GameBoard__init__ player_ships = inr player_board
    ∧ GameBoard__init__ bot_ships = inr bot_board
    ∧ size (ship_cells player_board) = 20%nat
    ∧ size (ship_cells bot_board) = 20%nat
    ∧ match (play_game fuel' player_board bot_board
               (ShipInput.stdin s) g').2 with
      | inr winner =>
          winner_ok
            (play_game fuel' player_board bot_board (ShipInput.stdin s) g').1
            winner
      | inl e =>
          stopped
            (play_game fuel' player_board bot_board (ShipInput.stdin s) g').1
            e
      end.
Proof.
  intros Hplayer Hbot.
  pose proof (placement_loop_outcome fuel _ (or_introl (tidy_start lines)))
    as Hp.
  unfold ShipInput.get_player_ships in Hplayer. rewrite Hplayer in Hp.
  simpl in Hp. destruct Hp as (_ & Hvp & _).
  pose proof (attempt_loop_outcome max_attempts
                (length (range 0 max_attempts)) g) as Hb.
  unfold generate_bot_ships in Hbot. rewrite Hbot in Hb. simpl in Hb.
  destruct Hb as (p & _ & _ & Hvb).
  destruct (validated_board player_ships true Hvp) as (pb & Hpb & _ & Hp20).
  destruct (validated_board bot_ships true Hvb) as (bb & Hbb & _ & Hb20).
  exists pb, bb. split; [done |]. split; [done |].
  split; [by apply Hp20 |]. split; [by apply Hb20 |].
  pose proof (play_game_outcome fuel' pb bb (ShipInput.stdin s) g') as Hgame.
  specialize (Hgame ltac:(exists player_ships, pb; split; [done | by exists []])
                    ltac:(exists bot_ships, bb; split; [done | by exists []])).
  destruct (play_game fuel' pb bb (ShipInput.stdin s) g') as [w [e | winner]];
    simpl in *; [done |]. by destruct Hgame.
Qed.

Lemma both_fleets_make_boards_for_the_game_witness :
  ∃ player_board bot_board,
    GameBoard__init__ spaced_fleet = inr player_board
    ∧ GameBoard__init__ spaced_fleet = inr bot_board
    ∧ size (ship_cells player_board) = 20%nat
    ∧ size (ship_cells bot_board) = 20%nat
    ∧ match (play_game (ucd := ascii_only) 30 player_board bot_board
               winning_lines
               {| draws := draws (scripted spaced_draws); next := 30 |}).2 with
      | inr winner =>
          winner_ok
            (play_game (ucd := ascii_only) 30 player_board bot_board
               winning_lines
               {| draws := draws (scripted spaced_draws); next := 30 |}).1
            winner
      | inl e =>
          stopped
            (play_game (ucd := ascii_only) 30 player_board bot_board
               winning_lines
               {| draws := draws (scripted spaced_draws); next := 30 |}).1
            e
      end.
Proof.
  apply (both_fleets_make_boards_for_the_game (ucd := ascii_only)
           (ucc := ShipInput.ascii_case) 10 30
           (map typed spaced_fleet ++ winning_lines)
           {| ShipInput.stdin := winning_lines;
              ShipInput.ships := spaced_fleet;
              ShipInput.ship_count := 10 |}
           spaced_fleet spaced_fleet 1000 (scripted spaced_draws)
           {| draws := draws (scripted spaced_draws); next := 30 |}).
  - vm_compute. reflexivity.
  - vm_compute. reflexivity.
Defined.
